(** * maltmill: formula parsing, patching and release reconciliation

    A shallow embedding of [formula.go] and [creator.go] of maltmill,
    with the parts of Go's [regexp], [strings], [path], [crypto/sha256]
    and of Masterminds' [semver] that the two files call.

    Go strings are byte sequences; they are modelled as lists of
    [ascii] (one [ascii] per byte). *)

From Stdlib Require Import Ascii String List Bool Arith Lia ZArith DecimalPos.
Import ListNotations.

Set Implicit Arguments.

Definition str := list ascii.

Abbreviation L := list_ascii_of_string.

Definition str_eqb (a b : str) : bool :=
  if list_eq_dec ascii_dec a b then true else false.

(** ** Go's [strings] package, on bytes *)

Module Strings.

(** [strings.HasPrefix] *)
Fixpoint HasPrefix (s p : str) {struct p} : bool :=
  match p, s with
  | [], _ => true
  | _ :: _, [] => false
  | x :: p', y :: s' => Ascii.eqb x y && HasPrefix s' p'
  end.

(** [strings.Contains] *)
Fixpoint Contains (s sub : str) : bool :=
  HasPrefix s sub ||
  match s with
  | [] => false
  | _ :: t => Contains t sub
  end.

(** [strings.HasSuffix] *)
Definition HasSuffix (s suf : str) : bool :=
  HasPrefix (rev s) (rev suf).

(** [strings.Replace(s, old, new, -1)] for a non-empty [old]: the
    non-overlapping occurrences of [old], from the left, become [new].
    The recursion skips [length old] bytes after a hit through [skip]. *)
Fixpoint ReplaceAll_go (old new : str) (skip : nat) (s : str) : str :=
  match s with
  | [] => []
  | c :: t =>
      match skip with
      | S k => ReplaceAll_go old new k t
      | O => if HasPrefix s old
             then new ++ ReplaceAll_go old new (length old - 1) t
             else c :: ReplaceAll_go old new 0 t
      end
  end.

Definition ReplaceAll (s old new : str) : str := ReplaceAll_go old new 0 s.

(** [strings.Split(s, sep)] for a one-byte separator. *)
Fixpoint Split (s : str) (sep : ascii) : list str :=
  match s with
  | [] => [[]]
  | c :: t =>
      if Ascii.eqb c sep then [] :: Split t sep
      else match Split t sep with
           | [] => [[c]]
           | h :: r => (c :: h) :: r
           end
  end.

(** Number of (possibly overlapping) places where [sub] occurs in [s]. *)
Fixpoint Occurrences (s sub : str) : nat :=
  (if HasPrefix s sub then 1 else 0) +
  match s with
  | [] => 0
  | _ :: t => Occurrences t sub
  end.

End Strings.

(** ** Go's [regexp]: syntax and leftmost-first matching

    The engine is a backtracking matcher that lists the ways a regular
    expression can match at a position, in the order a backtracking search
    tries them; Go's leftmost-first semantics takes the first one at the
    leftmost position that has any. *)

Module Regexp.

Inductive regex : Type :=
| Eps : regex
| Cls : (ascii -> bool) -> regex          (* one byte of a class *)
| Lit : str -> regex                      (* a literal string *)
| Bol : regex                             (* [^] under [(?m)] *)
| Bot : regex                             (* [^] without [(?m)] *)
| Eot : regex                             (* [$] without [(?m)] *)
| Cat : regex -> regex -> regex
| Alt : regex -> regex -> regex
| Star : regex -> regex                   (* greedy [*] *)
| Grp : nat -> regex -> regex             (* capture group number n *)
| Any : regex.                            (* [.]: one code point but a newline *)

Infix ">>" := Cat (at level 60, right associativity).

Definition Plus (r : regex) : regex := r >> Star r.
Definition Opt (r : regex) : regex := Alt r Eps.

(** Character classes. *)
Definition nl : ascii := "010"%char.
Definition is_nl (c : ascii) : bool := Ascii.eqb c nl.
(** [\s] is [[\t\n\f\r ]]. *)
Definition is_space (c : ascii) : bool :=
  Ascii.eqb c "009" || Ascii.eqb c "010" || Ascii.eqb c "012" ||
  Ascii.eqb c "013" || Ascii.eqb c " ".
(** [.] without the [s] flag: anything but a newline. *)
Definition is_dot (c : ascii) : bool := negb (is_nl c).
Definition is_quote (c : ascii) : bool :=
  Ascii.eqb c "'" || Ascii.eqb c "034".
Definition is_char (x : ascii) (c : ascii) : bool := Ascii.eqb c x.
Definition not_slash (c : ascii) : bool := negb (Ascii.eqb c "/").
Definition is_digit (c : ascii) : bool :=
  (("0" <=? c) && (c <=? "9"))%char.
Definition is_alpha (c : ascii) : bool :=
  (("a" <=? c) && (c <=? "z") || ("A" <=? c) && (c <=? "Z"))%char.

(** [utf8.DecodeRuneInString]: the number of bytes of the first code point
    of a text.  The first byte decides how many bytes a well-formed
    encoding has and which second byte it accepts; a byte that begins no
    well-formed encoding counts alone (Go reads it as U+FFFD, of width
    1). *)
Definition byte_in (lo hi : N) (c : ascii) : bool :=
  ((lo <=? N_of_ascii c) && (N_of_ascii c <=? hi))%N.

Definition is_cont (c : ascii) : bool := byte_in 128 191 c.

Definition rune_width (s : str) : nat :=
  match s with
  | [] => 0
  | b0 :: t =>
      if byte_in 194 223 b0 then
        match t with
        | b1 :: _ => if is_cont b1 then 2 else 1
        | _ => 1
        end
      else if byte_in 224 239 b0 then
        match t with
        | b1 :: b2 :: _ =>
            if (if (N_of_ascii b0 =? 224)%N then byte_in 160 191 b1
                else if (N_of_ascii b0 =? 237)%N then byte_in 128 159 b1
                else is_cont b1) && is_cont b2
            then 3 else 1
        | _ => 1
        end
      else if byte_in 240 244 b0 then
        match t with
        | b1 :: b2 :: b3 :: _ =>
            if (if (N_of_ascii b0 =? 240)%N then byte_in 144 191 b1
                else if (N_of_ascii b0 =? 244)%N then byte_in 128 143 b1
                else is_cont b1) && is_cont b2 && is_cont b3
            then 4 else 1
        | _ => 1
        end
      else 1
  end.

(** A matcher state: the byte before the position (for [^]), the position,
    the rest of the input and the capture groups closed so far (most recent
    first). *)
Record state : Type := mkState {
  prev : option ascii;
  pos : nat;
  rest : str;
  caps : list (nat * (nat * nat))
}.

Fixpoint advance (l : str) (st : state) : state :=
  match l, rest st with
  | c :: l', _ :: t =>
      advance l' (mkState (Some c) (S (pos st)) t (caps st))
  | _, _ => st
  end.

Definition at_bol (st : state) : bool :=
  match prev st with
  | None => true
  | Some c => is_nl c
  end.

Definition set_cap (n start : nat) (st : state) : state :=
  mkState (prev st) (pos st) (rest st) ((n, (start, pos st)) :: caps st).

Fixpoint mrun (r : regex) : nat -> state -> list state :=
  match r with
  | Eps => fun _ st => [st]
  | Cls p => fun _ st =>
      match rest st with
      | c :: t => if p c then [mkState (Some c) (S (pos st)) t (caps st)] else []
      | [] => []
      end
  | Lit l => fun _ st =>
      if Strings.HasPrefix (rest st) l then [advance l st] else []
  | Bol => fun _ st => if at_bol st then [st] else []
  | Bot => fun _ st => match prev st with None => [st] | Some _ => [] end
  | Eot => fun _ st => match rest st with [] => [st] | _ :: _ => [] end
  | Cat a b => fun fuel st => flat_map (mrun b fuel) (mrun a fuel st)
  | Alt a b => fun fuel st => mrun a fuel st ++ mrun b fuel st
  | Star a =>
      fix star (fuel : nat) (st : state) : list state :=
        match fuel with
        | O => [st]
        | S f =>
            flat_map (fun st' => if pos st <? pos st' then star f st' else [])
                     (mrun a (S f) st) ++ [st]
        end
  | Grp n a => fun fuel st => map (set_cap n (pos st)) (mrun a fuel st)
  | Any => fun _ st =>
      match rest st with
      | c :: _ =>
          if is_nl c then []
          else [advance (firstn (rune_width (rest st)) (rest st)) st]
      | [] => []
      end
  end.

(** One successful match: where it starts, where it ends, its groups. *)
Record mtch : Type := mkMatch {
  m_start : nat;
  m_end : nat;
  m_caps : list (nat * (nat * nat))
}.

(** The leftmost-first match at or after a position: [pv] is the byte
    before it, [p] the position and [s] the input from there on. *)
Fixpoint scan (r : regex) (fuel : nat) (pv : option ascii) (p : nat) (s : str)
  : option mtch :=
  match mrun r fuel (mkState pv p s []) with
  | st' :: _ => Some (mkMatch p (pos st') (caps st'))
  | [] =>
      match s with
      | c :: t => scan r fuel (Some c) (S p) t
      | [] => None
      end
  end.

Definition prev_at (s : str) (p : nat) : option ascii :=
  match p with O => None | S q => nth_error s q end.

(** [doExecute] from a search position. *)
Definition exec (r : regex) (s : str) (p : nat) : option mtch :=
  scan r (S (length s)) (prev_at s p) p (skipn p s).

Definition substr (s : str) (a b : nat) : str := firstn (b - a) (skipn a s).

Fixpoint lookup_cap (n : nat) (cs : list (nat * (nat * nat))) : option (nat * nat) :=
  match cs with
  | [] => None
  | (k, ab) :: t => if Nat.eqb k n then Some ab else lookup_cap n t
  end.

(** Text of group [n] ([0] is the whole match); empty when unset. *)
Definition group (s : str) (m : mtch) (n : nat) : str :=
  match n with
  | O => substr s (m_start m) (m_end m)
  | _ => match lookup_cap n (m_caps m) with
         | Some (a, b) => substr s a b
         | None => []
         end
  end.

Fixpoint numSubexp (r : regex) : nat :=
  match r with
  | Cat a b | Alt a b => numSubexp a + numSubexp b
  | Star a => numSubexp a
  | Grp _ a => S (numSubexp a)
  | _ => 0
  end.

(** [FindStringSubmatch]: [nil] without a match, else the whole match and
    the text of every group. *)
Definition FindStringSubmatch (r : regex) (s : str) : list str :=
  match exec r s 0 with
  | None => []
  | Some m => map (group s m) (seq 0 (S (numSubexp r)))
  end.

(** *** Replacement templates ([Regexp.expand])

    [extract] reads the name after a [$]: [name] or [{name}], made of
    letters, digits and [_] (ASCII here).  It returns the group number when
    the name is one, and how many bytes it read. *)
Definition is_name_char (c : ascii) : bool :=
  is_alpha c || is_digit c || Ascii.eqb c "_".

Fixpoint take_while (p : ascii -> bool) (s : str) : str :=
  match s with
  | c :: t => if p c then c :: take_while p t else []
  | [] => []
  end.

Definition digit_val (c : ascii) : N := N_of_ascii c - 48.

Fixpoint parse_num (name : str) (num : N) : option N :=
  match name with
  | [] => Some num
  | c :: t =>
      if negb (is_digit c) || (100000000 <=? num)%N then None
      else parse_num t (num * 10 + digit_val c)%N
  end.

Definition extract (s : str) : option (option N * nat) :=
  match s with
  | [] => None
  | c0 :: t0 =>
      let brace := Ascii.eqb c0 "{" in
      let body := if brace then t0 else s in
      let name := take_while is_name_char body in
      let i := length name in
      if i =? 0 then None
      else if brace && negb (match nth_error body i with
                             | Some c => Ascii.eqb c "}"
                             | None => false
                             end)
      then None
      else
        let num := match name with
                   | c :: _ :: _ => if Ascii.eqb c "0" then None else parse_num name 0
                   | _ => parse_num name 0
                   end in
        Some (num, if brace then i + 2 else i)
  end.

(** None of the expressions here has a named group, so a [$name] that is
    not a number expands to nothing. *)
Fixpoint expand (src : str) (m : mtch) (nsub : nat) (skip : nat) (t : str) : str :=
  match t with
  | [] => []
  | c :: t' =>
      match skip with
      | S k => expand src m nsub k t'
      | O =>
          if Ascii.eqb c "$" then
            match t' with
            | c' :: _ =>
                if Ascii.eqb c' "$" then c' :: expand src m nsub 1 t'
                else
                  match extract t' with
                  | None => c :: expand src m nsub 0 t'
                  | Some (num, n) =>
                      match num with
                      | Some g => if (g <=? N.of_nat nsub)%N
                                  then group src m (N.to_nat g) else []
                      | None => []
                      end ++ expand src m nsub n t'
                  end
            | [] => [c]
            end
          else c :: expand src m nsub 0 t'
      end
  end.

(** *** [Regexp.replaceAll]

    The loop of Go's [replaceAll]; [repl] is the callback, which may keep a
    state of its own ([sigma]).  A byte is one position wide. *)
Fixpoint replaceAll (St : Type) (r : regex) (src : str)
    (repl : St -> mtch -> St * str)
    (fuel lastMatchEnd searchPos : nat) (sigma : St) (buf : str) : str :=
  match fuel with
  | O => buf ++ skipn lastMatchEnd src
  | S f =>
      if length src <? searchPos then buf ++ skipn lastMatchEnd src
      else
        match exec r src searchPos with
        | None => buf ++ skipn lastMatchEnd src
        | Some m =>
            let buf1 := buf ++ substr src lastMatchEnd (m_start m) in
            let '(sigma', buf2) :=
              if (lastMatchEnd <? m_end m) || (m_start m =? 0)
              then let '(s', out) := repl sigma m in (s', buf1 ++ out)
              else (sigma, buf1) in
            let searchPos' :=
              if m_end m <? searchPos + 1 then searchPos + 1 else m_end m in
            replaceAll r src repl f (m_end m) searchPos' sigma' buf2
        end
  end.

(** [ReplaceAllString(src, repl)] *)
Definition ReplaceAllString (r : regex) (src repl : str) : str :=
  replaceAll r src
    (fun (_ : unit) m => (tt, expand src m (numSubexp r) 0 repl))
    (length src + 2) 0 0 tt [].

(** [ReplaceAllStringFunc(src, f)] for a callback with a state. *)
Definition ReplaceAllStringFunc (St : Type) (r : regex) (src : str)
    (f : St -> str -> St * str) (sigma : St) : str :=
  replaceAll r src
    (fun sg m => f sg (substr src (m_start m) (m_end m)))
    (length src + 2) 0 0 sigma [].

End Regexp.

Import Regexp.

(** ** formula.go

    The five expressions of the file.  Below, [Q] stands for the class of
    the two quote characters (single and double), [\s] for white space
    and [.] for any code point but a newline; groups are written
    [( ... )].

    - nameReg: [(?m)^\s+name\s*=\s*Q( .* )Q]
    - verReg: [(?m)( ^\s+version\s*Q )( .* )( Q )]
    - urlReg: [(?m)( ^\s+url\s*Q )( .* )( Q )]
    - shaReg: [(?m)( \s+sha256\s*Q )( .* )( Q )], without [^]
    - parseURLReg: [^https://[^/]*github.com/( [^/]+ )/( [^/]+ )], whose
      [.] is not escaped.

    Go's [.] reads one UTF-8 code point, of one to four bytes: the single
    dot of parseURLReg is [Any].  In the four other expressions the dot
    stands under a star that a quote follows; a quote is one byte and
    begins a code point wherever it stands, and a newline ends the run in
    both readings, so the greedy run of code points and the greedy run of
    bytes [dot] stop at the same places: [.*] is [Star dot] there.  So it
    is with the class [[^/]] of parseURLReg, which "github", "/" or the
    end of the text follows: no byte of a code point of several bytes is
    "/", and a byte of ASCII begins a code point wherever it stands. *)

Definition ws : regex := Cls is_space.
Definition quote : regex := Cls is_quote.
Definition dot : regex := Cls is_dot.

Definition nameReg : regex :=
  Bol >> Plus ws >> Lit (L "name") >> Star ws >> Lit (L "=") >> Star ws >>
  quote >> Grp 1 (Star dot) >> quote.

Definition verReg : regex :=
  Grp 1 (Bol >> Plus ws >> Lit (L "version") >> Star ws >> quote) >>
  Grp 2 (Star dot) >> Grp 3 quote.

Definition urlReg : regex :=
  Grp 1 (Bol >> Plus ws >> Lit (L "url") >> Star ws >> quote) >>
  Grp 2 (Star dot) >> Grp 3 quote.

Definition shaReg : regex :=
  Grp 1 (Plus ws >> Lit (L "sha256") >> Star ws >> quote) >>
  Grp 2 (Star dot) >> Grp 3 quote.

Definition parseURLReg : regex :=
  Bot >> Lit (L "https://") >> Star (Cls not_slash) >> Lit (L "github") >>
  Any >> Lit (L "com/") >> Grp 1 (Plus (Cls not_slash)) >> Lit (L "/") >>
  Grp 2 (Plus (Cls not_slash)).


(** ** [fmt.Sprintf] with [%d] and [%x] *)

Fixpoint uint_chars (d : Decimal.uint) : str :=
  match d with
  | Decimal.Nil => []
  | Decimal.D0 d => "0"%char :: uint_chars d
  | Decimal.D1 d => "1"%char :: uint_chars d
  | Decimal.D2 d => "2"%char :: uint_chars d
  | Decimal.D3 d => "3"%char :: uint_chars d
  | Decimal.D4 d => "4"%char :: uint_chars d
  | Decimal.D5 d => "5"%char :: uint_chars d
  | Decimal.D6 d => "6"%char :: uint_chars d
  | Decimal.D7 d => "7"%char :: uint_chars d
  | Decimal.D8 d => "8"%char :: uint_chars d
  | Decimal.D9 d => "9"%char :: uint_chars d
  end.

(** [%d] of an integer. *)
Definition itoa (z : Z) : str :=
  match Z.to_int z with
  | Decimal.Pos d => uint_chars d
  | Decimal.Neg d => "-"%char :: uint_chars d
  end.

Definition hex_digit (n : Z) : ascii :=
  ascii_of_N (Z.to_N (if n <? 10 then 48 + n else 87 + n)%Z).

(** [%x] of a byte: two lowercase hexadecimal digits. *)
Definition hex_byte (b : Z) : str :=
  [hex_digit (b / 16); hex_digit (b mod 16)]%Z.

(** ** [crypto/sha256] (FIPS 180-4), on 32-bit words held in [Z] *)

Module SHA256.
Open Scope Z_scope.

Definition w32 (x : Z) : Z := x mod 4294967296.
Definition add32 (x y : Z) : Z := w32 (x + y).
Definition rotr (n x : Z) : Z :=
  Z.lor (Z.shiftr x n) (w32 (Z.shiftl x (32 - n))).
Definition not32 (x : Z) : Z := 4294967295 - x.

Definition Ch (x y z : Z) : Z := Z.lxor (Z.land x y) (Z.land (not32 x) z).
Definition Maj (x y z : Z) : Z :=
  Z.lxor (Z.lxor (Z.land x y) (Z.land x z)) (Z.land y z).
Definition Sigma0 (x : Z) : Z := Z.lxor (Z.lxor (rotr 2 x) (rotr 13 x)) (rotr 22 x).
Definition Sigma1 (x : Z) : Z := Z.lxor (Z.lxor (rotr 6 x) (rotr 11 x)) (rotr 25 x).
Definition sigma0 (x : Z) : Z := Z.lxor (Z.lxor (rotr 7 x) (rotr 18 x)) (Z.shiftr x 3).
Definition sigma1 (x : Z) : Z := Z.lxor (Z.lxor (rotr 17 x) (rotr 19 x)) (Z.shiftr x 10).

(** The constants are defined as the standard defines them: the first 32
    bits of the fractional parts of the cube roots (for [K]) and of the
    square roots (for [H0]) of the first primes. *)
Definition primes : list Z :=
  [2; 3; 5; 7; 11; 13; 17; 19; 23; 29; 31; 37; 41; 43; 47; 53; 59; 61; 67;
   71; 73; 79; 83; 89; 97; 101; 103; 107; 109; 113; 127; 131; 137; 139; 149;
   151; 157; 163; 167; 173; 179; 181; 191; 193; 197; 199; 211; 223; 227; 229;
   233; 239; 241; 251; 257; 263; 269; 271; 277; 281; 283; 293; 307; 311].

(** Integer cube root, one bit at a time from bit [n - 1] down. *)
Fixpoint icbrt (n : nat) (x r : Z) : Z :=
  match n with
  | O => r
  | S k =>
      let r' := r + 2 ^ Z.of_nat k in
      icbrt k x (if r' * r' * r' <=? x then r' else r)
  end.

Definition K : list Z :=
  Eval vm_compute in map (fun p => w32 (icbrt 40 (p * 2 ^ 96) 0)) primes.

Definition H0 : list Z :=
  Eval vm_compute in map (fun p => w32 (Z.sqrt (p * 2 ^ 64))) (firstn 8 primes).

Definition byte_val (c : ascii) : Z := Z.of_N (N_of_ascii c).

(** Padding: one [0x80] byte, zeros up to 56 modulo 64, then the length in
    bits as a big-endian 64-bit number. *)
Definition be_bytes (n : nat) (x : Z) : list Z :=
  map (fun i => (x / 2 ^ (8 * Z.of_nat i)) mod 256) (rev (seq 0 n)).

Definition pad (msg : list Z) : list Z :=
  let len := Z.of_nat (length msg) in
  let zeros := Z.to_nat ((55 - len) mod 64) in
  msg ++ [128] ++ repeat 0 zeros ++ be_bytes 8 (8 * len).

Fixpoint words (fuel : nat) (bs : list Z) : list Z :=
  match fuel, bs with
  | S f, b0 :: b1 :: b2 :: b3 :: t =>
      (b0 * 16777216 + b1 * 65536 + b2 * 256 + b3) :: words f t
  | _, _ => []
  end.

(** The message schedule, most recent word first. *)
Fixpoint schedule (n : nat) (w : list Z) : list Z :=
  match n with
  | O => w
  | S k =>
      let x := add32 (add32 (sigma1 (nth 1 w 0)) (nth 6 w 0))
                     (add32 (sigma0 (nth 14 w 0)) (nth 15 w 0)) in
      schedule k (x :: w)
  end.

Definition round (s : list Z) (kw : Z * Z) : list Z :=
  match s with
  | [a; b; c; d; e; f; g; h] =>
      let t1 := add32 (add32 (add32 h (Sigma1 e)) (add32 (Ch e f g) (fst kw))) (snd kw) in
      let t2 := add32 (Sigma0 a) (Maj a b c) in
      [add32 t1 t2; a; b; c; add32 d t1; e; f; g]
  | _ => s
  end.

Definition compress (h : list Z) (block : list Z) : list Z :=
  let w := rev (schedule 48 (rev block)) in
  let s := fold_left round (combine K w) h in
  map (fun p => add32 (fst p) (snd p)) (combine h s).

Fixpoint blocks (fuel : nat) (h : list Z) (ws : list Z) : list Z :=
  match fuel with
  | O => h
  | S f =>
      match ws with
      | [] => h
      | _ => blocks f (compress h (firstn 16 ws)) (skipn 16 ws)
      end
  end.

(** [sha256.Sum256]: the digest as 32 bytes. *)
Definition Sum256 (msg : str) : list Z :=
  let bs := pad (map byte_val msg) in
  let ws := words (length bs) bs in
  flat_map (be_bytes 4) (blocks (length ws) H0 ws).

End SHA256.

(** The digest printed with [%x]. *)
Definition sha256_hex (msg : str) : str :=
  flat_map hex_byte (SHA256.Sum256 msg).

(** ** Masterminds [semver] (version 1): [NewVersion], [LessThan] *)

Module Semver.

Record Version : Type := mkVersion {
  major : Z;
  minor : Z;
  patch : Z;
  pre : str;
  metadata : str;
  original : str
}.

Definition is_idch (c : ascii) : bool :=
  is_digit c || is_alpha c || Ascii.eqb c "-".

Definition digits : regex := Plus (Cls is_digit).
Definition ident : regex := Plus (Cls is_idch).

(** [^v?(D)(\.D)?(\.D)?(-(I(\.I)* ))?(\+(I(\.I)* ))?$] with [D] for
    [[0-9]+] and [I] for [[0-9A-Za-z\-]+]. *)
Definition versionRegex : regex :=
  Bot >> Opt (Lit (L "v")) >> Grp 1 digits >>
  Opt (Grp 2 (Lit (L ".") >> digits)) >>
  Opt (Grp 3 (Lit (L ".") >> digits)) >>
  Opt (Grp 4 (Lit (L "-") >> Grp 5 (ident >> Star (Grp 6 (Lit (L ".") >> ident))))) >>
  Opt (Grp 7 (Lit (L "+") >> Grp 8 (ident >> Star (Grp 9 (Lit (L ".") >> ident))))) >>
  Eot.

Definition max_int64 : Z := 9223372036854775807.

Fixpoint digits_val (s : str) (acc : Z) : option Z :=
  match s with
  | [] => Some acc
  | c :: t => if is_digit c
              then digits_val t (acc * 10 + Z.of_N (digit_val c))%Z
              else None
  end.

(** [strconv.ParseInt(s, 10, 64)] *)
Definition ParseInt (s : str) : option Z :=
  let '(neg, ds) :=
    match s with
    | c :: t => if Ascii.eqb c "-" then (true, t)
                else if Ascii.eqb c "+" then (false, t) else (false, s)
    | [] => (false, s)
    end in
  match ds with
  | [] => None
  | _ =>
      match digits_val ds 0 with
      | None => None
      | Some v =>
          if neg then (if (v <=? max_int64 + 1)%Z then Some (- v)%Z else None)
          else (if (v <=? max_int64)%Z then Some v else None)
      end
  end.

Definition segment (s : str) : option Z :=
  match s with
  | [] => Some 0%Z
  | _ :: t => ParseInt t          (* the leading dot is trimmed *)
  end.

Definition NewVersion (v : str) : option Version :=
  match FindStringSubmatch versionRegex v with
  | [] => None
  | m =>
      match ParseInt (nth 1 m []), segment (nth 2 m []), segment (nth 3 m []) with
      | Some ma, Some mi, Some pa =>
          Some (mkVersion ma mi pa (nth 5 m []) (nth 8 m []) v)
      | _, _, _ => None
      end
  end.

Definition compareSegment (v o : Z) : Z :=
  if (v <? o)%Z then (-1)%Z else if (o <? v)%Z then 1%Z else 0%Z.

Fixpoint str_ltb (a b : str) : bool :=
  match a, b with
  | _, [] => false
  | [], _ :: _ => true
  | x :: a', y :: b' =>
      if (N_of_ascii x <? N_of_ascii y)%N then true
      else if (N_of_ascii y <? N_of_ascii x)%N then false
      else str_ltb a' b'
  end.

Definition comparePrePart (s o : str) : Z :=
  if str_eqb s o then 0%Z
  else match s, o with
       | [], _ => (-1)%Z
       | _, [] => 1%Z
       | _, _ =>
           match ParseInt o, ParseInt s with
           | None, None => if str_ltb o s then 1%Z else (-1)%Z
           | None, Some _ => (-1)%Z
           | Some _, None => 1%Z
           | Some oi, Some si => if (oi <? si)%Z then 1%Z else (-1)%Z
           end
       end.

Fixpoint comparePrerelease (sparts oparts : list str) : Z :=
  match sparts, oparts with
  | [], [] => 0%Z
  | x :: sp, [] =>
      let d := comparePrePart x [] in
      if (d =? 0)%Z then comparePrerelease sp [] else d
  | [], y :: _ => comparePrePart [] y
  | x :: sp, y :: op =>
      let d := comparePrePart x y in
      if (d =? 0)%Z then comparePrerelease sp op else d
  end.

Definition Compare (v o : Version) : Z :=
  let d := compareSegment (major v) (major o) in
  if negb (d =? 0)%Z then d else
  let d := compareSegment (minor v) (minor o) in
  if negb (d =? 0)%Z then d else
  let d := compareSegment (patch v) (patch o) in
  if negb (d =? 0)%Z then d else
  match pre v, pre o with
  | [], [] => 0%Z
  | [], _ => 1%Z
  | _, [] => (-1)%Z
  | ps, po => comparePrerelease (Strings.Split ps ".") (Strings.Split po ".")
  end.

Definition LessThan (v o : Version) : bool := (Compare v o <? 0)%Z.

End Semver.

(** ** Go's [path] *)

Module Path.

Definition is_slash (c : ascii) : bool := Ascii.eqb c "/".

Fixpoint drop_while (p : ascii -> bool) (s : str) : str :=
  match s with
  | c :: t => if p c then drop_while p t else s
  | [] => []
  end.

(** [path.Base] *)
Definition Base (p : str) : str :=
  match p with
  | [] => L "."
  | _ =>
      match drop_while is_slash (rev p) with
      | [] => L "/"
      | r => rev (take_while (fun c => negb (is_slash c)) r)
      end
  end.

(** [path.Ext]: from the last dot of the last element, or empty.  The
    argument of [ext_rev] is the path reversed. *)
Fixpoint ext_rev (r : str) (acc : str) : str :=
  match r with
  | [] => []
  | c :: t =>
      if is_slash c then []
      else if Ascii.eqb c "." then c :: acc
      else ext_rev t (c :: acc)
  end.

Definition Ext (p : str) : str := ext_rev (rev p) [].

End Path.

(** ** The outside world: files, the GitHub API, HTTP *)

Record asset : Type := mkAsset {
  browser_download_url : str      (* [GetBrowserDownloadURL]; empty when unset *)
}.

Record release : Type := mkRelease {
  tag_name : str;                 (* [GetTagName] *)
  assets : list asset
}.

(** What an HTTP GET of a URL gives: the request cannot be built, the
    round trip fails, or a response arrives with a status code and a body;
    [read_fails] says that reading the body stops with an error. *)
Inductive http_result : Type :=
| NewRequestFails
| DoFails
| Response (status : Z) (body : str) (read_fails : bool).

(** Package [unicode] on the code points outside ASCII, a code point being
    given by the bytes of its UTF-8 encoding: the tables of the package
    are not part of this development and are taken as they come. *)
Record Unicode : Type := mkUnicode {
  IsLetter : str -> bool;
  IsDigit : str -> bool;
  IsSpace : str -> bool;
  ToTitle : str -> str
}.

Record World : Type := mkWorld {
  readFile : str -> option str;                       (* [ioutil.ReadFile] *)
  getLatestRelease : str -> str -> option release;    (* owner, repo *)
  getReleaseByTag : str -> str -> str -> option release;
  httpGet : str -> http_result;
  createFile : str -> bool;                           (* [os.Create] succeeds *)
  nameFirst : bool;   (* [range] over a map visits "name" before "version" *)
  unicode : Unicode                                   (* package [unicode] *)
}.

Inductive error : Type :=
| ErrReadFile
| ErrNoVersion
| ErrNoSha256
| ErrNoURL
| ErrCompile
| ErrInvalidURLFormat (urlTmpl : str)
| ErrInvalidOrigVersion
| ErrUpdateFailed
| ErrInvalidNewVersion
| ErrExpand
| ErrNoAssets
| ErrNewRequest
| ErrRequest (u : str)
| ErrReadBody (u : str)
| ErrUpload (e : error)
| ErrInvalidSlug (slug : str)
| ErrCreateFailed
| ErrInvalidTag (tag : str)
| ErrCreate (e : error)
| ErrCreateFile.

Inductive result (A : Type) : Type :=
| Ok (a : A)
| Err (e : error).
Arguments Ok {A} a.
Arguments Err {A} e.

(** ** formula.go: the formula record and its operations *)

Record formula : Type := mkFormula {
  fname : str;
  content : str;
  urlTmpl : str;
  isURLTmpl : bool;
  name : str;
  version : str;
  url : str;
  sha256 : str;
  owner : str;
  repo : str
}.

(** [regexp.Compile] of [#{k}]: a brace that does not open a repetition
    count is a literal, so for a key made of letters the expression is the
    literal text. *)
Definition compilePlaceholder (k : str) : option regex :=
  Some (Lit (L "#{" ++ k ++ L "}")).

(** [expandStr]; [m] lists the entries of the map in the order [range]
    visits them. *)
Fixpoint expandStr (s : str) (m : list (str * str)) : result str :=
  match m with
  | [] => Ok s
  | (k, v) :: m' =>
      match compilePlaceholder k with
      | None => Err ErrCompile
      | Some reg => expandStr (ReplaceAllString reg s v) m'
      end
  end.

(** The map with keys "name" and "version", in iteration order. *)
Definition info_map (w : World) (name version : str) : list (str * str) :=
  if nameFirst w
  then [(L "name", name); (L "version", version)]
  else [(L "version", version); (L "name", name)].

Definition newFormula (w : World) (f : str) : result formula :=
  match readFile w f with
  | None => Err ErrReadFile
  | Some b =>
      let name :=
        match FindStringSubmatch nameReg b with
        | _ :: n :: _ => n
        | _ => []
        end in
      let m := FindStringSubmatch verReg b in
      if length m <? 4 then Err ErrNoVersion else
      let version := nth 2 m [] in
      let m := FindStringSubmatch shaReg b in
      if length m <? 4 then Err ErrNoSha256 else
      let sha := nth 2 m [] in
      let m := FindStringSubmatch urlReg b in
      if length m <? 4 then Err ErrNoURL else
      let tmpl := nth 2 m [] in
      let isTmpl := Strings.Contains tmpl (L "#{version}") in
      match (if isTmpl then expandStr tmpl (info_map w name version)
             else Ok tmpl) with
      | Err e => Err e
      | Ok u =>
          let m := FindStringSubmatch parseURLReg u in
          if length m <? 3 then Err (ErrInvalidURLFormat tmpl) else
          Ok (mkFormula f b tmpl isTmpl name version u sha (nth 1 m []) (nth 2 m []))
      end
  end.

(** [getSHA256FromURL]: the status code of the response is not looked at. *)
Definition getSHA256FromURL (w : World) (u : str) : result str :=
  match httpGet w u with
  | NewRequestFails => Err ErrNewRequest
  | DoFails => Err (ErrRequest u)
  | Response _ body read_fails =>
      if read_fails then Err (ErrReadBody u)
      else Ok (sha256_hex body)
  end.

(** [replaceOne]: the callback replaces the first match and returns the
    later ones as they are; its flag [replaced] is the callback's state. *)
Definition replaceOne (reg : regex) (s replace : str) : str :=
  ReplaceAllStringFunc reg s
    (fun (replaced : bool) (mt : str) =>
       if replaced then (replaced, mt)
       else (true, ReplaceAllString reg mt replace))
    false.

(** [fmt.Sprintf] of the template [${1}%s${3}]. *)
Definition repl_template (v : str) : str := L "${1}" ++ v ++ L "${3}".

(** [updateContent], as a function of the fields it reads. *)
Definition patchContent (c version sha url : str) (isTmpl : bool) : str :=
  let c := replaceOne verReg c (repl_template version) in
  let c := replaceOne shaReg c (repl_template sha) in
  if negb isTmpl then replaceOne urlReg c (repl_template url) else c.

Definition updateContent (fo : formula) : formula :=
  mkFormula (fname fo)
    (patchContent (content fo) (version fo) (sha256 fo) (url fo) (isURLTmpl fo))
    (urlTmpl fo) (isURLTmpl fo) (name fo) (version fo) (url fo) (sha256 fo)
    (owner fo) (repo fo).

(** The asset loop of [update]. *)
Definition asset_matches (ext : str) (a : asset) : bool :=
  let fname := Path.Base (browser_download_url a) in
  Strings.Contains fname (L "amd64") && Strings.Contains fname (L "darwin") &&
  Strings.HasSuffix fname ext.

Fixpoint selectAsset (ext : str) (l : list asset) : result str :=
  match l with
  | [] => Err ErrNoAssets
  | a :: t =>
      if asset_matches ext a then Ok (browser_download_url a)
      else selectAsset ext t
  end.

(** [%d.%d.%d] of a version. *)
Definition verStr (v : Semver.Version) : str :=
  itoa (Semver.major v) ++ L "." ++ itoa (Semver.minor v) ++ L "." ++
  itoa (Semver.patch v).

Definition with_fields (fo : formula) (v u sha : str) : formula :=
  mkFormula (fname fo) (content fo) (urlTmpl fo) (isURLTmpl fo) (name fo)
    v u sha (owner fo) (repo fo).

(** [update]: the formula after the call, [updated] and the error. *)
Definition update (w : World) (fo : formula) : formula * bool * option error :=
  match Semver.NewVersion (version fo) with
  | None => (fo, false, Some ErrInvalidOrigVersion)
  | Some origVer =>
      match getLatestRelease w (owner fo) (repo fo) with
      | None => (fo, false, Some ErrUpdateFailed)
      | Some rele =>
          match Semver.NewVersion (tag_name rele) with
          | None => (fo, false, Some ErrInvalidNewVersion)
          | Some newVer =>
              if negb (Semver.LessThan origVer newVer) then (fo, false, None)
              else
                let newVerStr := verStr newVer in
                let newURL :=
                  if isURLTmpl fo then
                    match expandStr (urlTmpl fo) (info_map w (name fo) newVerStr) with
                    | Err e => Err (ErrUpload e)
                    | Ok u => Ok u
                    end
                  else selectAsset (Path.Ext (url fo)) (assets rele) in
                match newURL with
                | Err e => (fo, false, Some e)
                | Ok newURL =>
                    match getSHA256FromURL w newURL with
                    | Err e => (fo, false, Some (ErrUpload e))
                    | Ok newSHA256 =>
                        (updateContent (with_fields fo newVerStr newURL newSHA256),
                         true, None)
                    end
                end
          end
      end
  end.

(** ** creator.go *)

Record creator : Type := mkCreator {
  slug : str;
  overwrite : bool;
  outFile : str
}.

Record formulaData : Type := mkFormulaData {
  Name : str;
  CapitalizedName : str;
  Version : str;
  Owner : str;
  Repo : str;
  SHA256 : str;
  URL : str
}.

(** [strings.Title]: the text is read code point by code point, and a code
    point that follows a separator goes to its title case; what precedes
    the text counts as a space.  A code point is given by the bytes of
    its encoding. *)
Definition is_ascii (c : ascii) : bool := (N_of_ascii c <? 128)%N.

(** U+FFFD, which Go reads where no well-formed encoding begins. *)
Definition RuneError : str := ["239"; "191"; "189"]%char.

(** The code point a [range] over a text reads first, and its width in
    the text. *)
Definition decodeRune (s : str) : str * nat :=
  match firstn (rune_width s) s with
  | [c] => (if is_ascii c then [c] else RuneError, 1)
  | r => (r, rune_width s)
  end.

Definition as_ascii (r : str) : option ascii :=
  match r with
  | [c] => if is_ascii c then Some c else None
  | _ => None
  end.

(** [isSeparator]: in ASCII everything but letters, digits and the
    underscore; elsewhere the spaces that are no letter and no digit. *)
Definition isSeparator (U : Unicode) (r : str) : bool :=
  match as_ascii r with
  | Some c => negb (is_digit c || is_alpha c || Ascii.eqb c "_")
  | None => if IsLetter U r || IsDigit U r then false else IsSpace U r
  end.

(** [unicode.ToTitle]: in ASCII the lower-case letters go to upper case. *)
Definition toTitle (c : ascii) : ascii :=
  if (("a" <=? c) && (c <=? "z"))%char
  then ascii_of_N (N_of_ascii c - 32) else c.

Definition toTitleRune (U : Unicode) (r : str) : str :=
  match as_ascii r with
  | Some c => [toTitle c]
  | None => ToTitle U r
  end.

(** The loop of [strings.Map] with the closure of [Title], which keeps the
    code point read before: one step for each code point, of which the
    text has no more than bytes. *)
Fixpoint Title_go (U : Unicode) (fuel : nat) (prev s : str) : str :=
  match fuel, s with
  | S f, _ :: _ =>
      let (r, n) := decodeRune s in
      (if isSeparator U prev then toTitleRune U r else r) ++
      Title_go U f r (skipn n s)
  | _, _ => []
  end.

Definition Title (U : Unicode) (s : str) : str :=
  Title_go U (length s) (L " ") s.

Definition capitalized (U : Unicode) (repo : str) : str :=
  Strings.ReplaceAll (Title U repo) (L "-") [].

(** The template [tmpl], executed on the fields. *)
Definition render (d : formulaData) : str :=
  L "class " ++ CapitalizedName d ++ L " < Formula
  version '" ++ Version d ++ L "'
  homepage 'https://github.com/" ++ Owner d ++ L "/" ++ Repo d ++ L "'
  url " ++ ["034"%char] ++ URL d ++ ["034"%char] ++ L "
  sha256 '" ++ SHA256 d ++ L "'
  head 'https://github.com/" ++ Owner d ++ L "/" ++ Repo d ++ L ".git'

  head do
    depands_on 'go' => :build
  end

  def install
    if build.head?
      system 'make', 'build'
    end
    bin.install '" ++ Name d ++ L "'
  end
end
".

Definition selectAssetCreate : list asset -> result str :=
  fix go (l : list asset) : result str :=
    match l with
    | [] => Err ErrNoAssets
    | a :: t =>
        let u := browser_download_url a in
        let fname := Path.Base u in
        if Strings.Contains fname (L "amd64") && Strings.Contains fname (L "darwin")
        then Ok u else go t
    end.

(** Where [run] writes: the creator's writer or a file it creates. *)
Inductive sink : Type :=
| ToWriter
| ToFile (fname : str).

(** The first part of [run]: the slug split into owner, repository and
    tag, and the names derived from the repository. *)
Definition parseSlug (U : Unicode) (sl : str) : result (formulaData * str) :=
  match Strings.Split sl "/" with
  | [ow; rv] =>
      let repoAndVer := Strings.Split rv "@" in
      let tag := match repoAndVer with _ :: t :: _ => t | _ => [] end in
      let rp := nth 0 repoAndVer [] in
      Ok (mkFormulaData rp (capitalized U rp) [] ow rp [] [], tag)
  | _ => Err (ErrInvalidSlug sl)
  end.

Definition run (w : World) (cr : creator) : result (sink * str) :=
  match parseSlug (unicode w) (slug cr) with
  | Err e => Err e
  | Ok (nf, tag) =>
      match (match tag with
             | [] => getLatestRelease w (Owner nf) (Repo nf)
             | _ => getReleaseByTag w (Owner nf) (Repo nf) tag
             end) with
      | None => Err ErrCreateFailed
      | Some rele =>
          match Semver.NewVersion (tag_name rele) with
          | None => Err (ErrInvalidTag (tag_name rele))
          | Some ver =>
              match selectAssetCreate (assets rele) with
              | Err e => Err e
              | Ok u =>
                  match getSHA256FromURL w u with
                  | Err e => Err (ErrCreate e)
                  | Ok sha =>
                      let nf' := mkFormulaData (Name nf) (CapitalizedName nf)
                                   (verStr ver) (Owner nf) (Repo nf) sha u in
                      if overwrite cr || negb (str_eqb (outFile cr) []) then
                        let fname := if str_eqb (outFile cr) []
                                     then Name nf ++ L ".rb" else outFile cr in
                        if createFile w fname then Ok (ToFile fname, render nf')
                        else Err ErrCreateFile
                      else Ok (ToWriter, render nf')
                  end
              end
          end
      end
  end.

(** Number of matches [FindAllStringIndex(s, -1)] delivers: the loop of
    Go's [allMatches], which skips an empty match that touches the match
    before it. *)
Fixpoint countFrom (r : regex) (s : str) (fuel p : nat) (prevEnd : option nat) : nat :=
  match fuel with
  | O => 0
  | S f =>
      if length s <? p then 0
      else
        match exec r s p with
        | None => 0
        | Some m =>
            let empty := m_end m =? p in
            let accept :=
              negb (empty && match prevEnd with
                             | Some e => m_start m =? e
                             | None => false
                             end) in
            (if accept then 1 else 0) +
            countFrom r s f (if empty then p + 1 else m_end m) (Some (m_end m))
        end
  end.

Definition countMatches (r : regex) (s : str) : nat :=
  countFrom r s (length s + 2) 0 None.

(** ** Sample inputs *)

Module Sample.

(** A formula with a literal URL, at version 1.2.0. *)
Definition literal_rb : str := L "class R < Formula
  version '1.2.0'
  url 'https://github.com/o/r/releases/download/v1.2.0/r_darwin_amd64.zip'
  sha256 'abc'
end
".

(** The same formula with a URL template. *)
Definition template_rb : str := L "class R < Formula
  name = 'r'
  version '1.2.0'
  url 'https://github.com/o/#{name}/releases/download/v#{version}/#{name}_darwin_amd64.zip'
  sha256 'abc'
end
".

Definition assets_130 : list asset :=
  [mkAsset (L "https://github.com/o/r/releases/download/v1.3.0/r_linux_amd64.zip");
   mkAsset (L "https://github.com/o/r/releases/download/v1.3.0/r_darwin_amd64.tar.gz");
   mkAsset (L "https://github.com/o/r/releases/download/v1.3.0/r_darwin_amd64.zip");
   mkAsset (L "https://github.com/o/r/releases/download/v1.3.0/r_darwin_amd64_2.zip")].

(** The samples are written in ASCII, where the tables of package unicode
    are not looked up: these are constant. *)
Definition tables : Unicode :=
  mkUnicode (fun _ => false) (fun _ => false) (fun _ => false) (fun r => r).

(** A world whose file is [file], whose latest release has tag [tag] and
    the assets [al], and where every download answers [status] with the
    body "abc". *)
Definition world (file tag : str) (al : list asset) (status : Z) (order : bool) : World :=
  mkWorld (fun _ => Some file)
          (fun _ _ => Some (mkRelease tag al))
          (fun _ _ t => Some (mkRelease t al))
          (fun _ => Response status (L "abc") false)
          (fun _ => true)
          order
          tables.

Definition fo_literal : formula :=
  mkFormula (L "r.rb") literal_rb
    (L "https://github.com/o/r/releases/download/v1.2.0/r_darwin_amd64.zip") false
    [] (L "1.2.0")
    (L "https://github.com/o/r/releases/download/v1.2.0/r_darwin_amd64.zip")
    (L "abc") (L "o") (L "r").

Definition fo_template : formula :=
  mkFormula (L "r.rb") template_rb
    (L "https://github.com/o/#{name}/releases/download/v#{version}/#{name}_darwin_amd64.zip")
    true (L "r") (L "1.2.0")
    (L "https://github.com/o/r/releases/download/v1.2.0/r_darwin_amd64.zip")
    (L "abc") (L "o") (L "r").

(** A formula with two version assignments. *)
Definition two_versions_rb : str := L "class R < Formula
  version '1.2.0'
  url 'https://github.com/o/r/releases/download/v1.2.0/r_darwin_amd64.zip'
  sha256 'abc'
  version '1.2.0'
end
".

(** A formula whose URL line ends with a comment that quotes an old
    checksum; the released file has no extension. *)
Definition commented_rb : str := L "class R < Formula
  version '1.2.0'
  url 'https://github.com/o/r/releases/download/v1.2.0/r_darwin_amd64' # was sha256 'abc'
  sha256 'def'
end
".

Definition assets_plain : list asset :=
  [mkAsset (L "https://github.com/o/r/releases/download/v1.3.0/r_darwin_amd64")].

Definition abc_digest : str :=
  L "ba7816bf8f01cfea414140de5dae2223b00361a396177a9cb410ff61f20015ad".

(** A formula whose URL template has the placeholder of the version
    only. *)
Definition version_tmpl_rb : str := L "class R < Formula
  version '1.2.0'
  url 'https://github.com/o/r/releases/download/v#{version}/r_darwin_amd64.zip'
  sha256 'abc'
end
".

Definition fo_version_tmpl : formula :=
  mkFormula (L "r.rb") version_tmpl_rb
    (L "https://github.com/o/r/releases/download/v#{version}/r_darwin_amd64.zip")
    true [] (L "1.2.0")
    (L "https://github.com/o/r/releases/download/v1.2.0/r_darwin_amd64.zip")
    (L "abc") (L "o") (L "r").

End Sample.

(** ** The assignment expressions, matched directly

    [verReg], [urlReg] and [shaReg] have one shape: white space, a keyword,
    optional white space and a quote (group 1), the longest text on the
    line that a quote follows (group 2), that quote (group 3).  The
    functions below find such a match by reading the input; the engine is
    shown to agree with them. *)

Definition assignReg (anchored : bool) (kw : str) : regex :=
  let body := Plus ws >> Lit kw >> Star ws >> quote in
  Grp 1 (if anchored then Bol >> body else body) >>
  Grp 2 (Star dot) >> Grp 3 quote.

(** The last quote of the first line of [s]: the text before it, the
    quote, and what follows it (to the end of the input). *)
Fixpoint lastq (s : str) : option (str * ascii * str) :=
  match s with
  | [] => None
  | c :: t =>
      if is_dot c then
        match lastq t with
        | Some (g, q, tl) => Some (c :: g, q, tl)
        | None => if is_quote c then Some ([], c, t) else None
        end
      else None
  end.

Definition bol (pv : option ascii) : bool :=
  match pv with None => true | Some c => is_nl c end.

(** Group 1 at the beginning of [s]: its text and the input after it. *)
Definition head_of (kw : str) (s : str) : option (str * str) :=
  match take_while is_space s with
  | [] => None
  | w1 =>
      let s1 := Path.drop_while is_space s in
      if Strings.HasPrefix s1 kw then
        let s2 := skipn (length kw) s1 in
        match Path.drop_while is_space s2 with
        | q :: s4 =>
            if is_quote q
            then Some (w1 ++ kw ++ take_while is_space s2 ++ [q], s4)
            else None
        | [] => None
        end
      else None
  end.

(** A match of the assignment that starts at the beginning of [s], the
    byte before being [pv]: groups 1, 2 and 3 and the input after them. *)
Definition starts (anchored : bool) (kw : str) (pv : option ascii) (s : str)
  : option (str * str * ascii * str) :=
  if anchored && negb (bol pv) then None else
  match head_of kw s with
  | Some (g1, s4) =>
      match lastq s4 with
      | Some (g2, q3, post) => Some (g1, g2, q3, post)
      | None => None
      end
  | None => None
  end.

(** The leftmost match: the input before it, then as [starts]. *)
Fixpoint first_from (anchored : bool) (kw : str) (pv : option ascii) (s : str)
  : option (str * (str * str * ascii * str)) :=
  match starts anchored kw pv s with
  | Some m => Some ([], m)
  | None =>
      match s with
      | [] => None
      | c :: t =>
          match first_from anchored kw (Some c) t with
          | Some (pre, m) => Some (c :: pre, m)
          | None => None
          end
      end
  end.

(** ** States and matches of the assignment expressions *)

(** The state after reading the byte [c], [t] being what follows it. *)
Definition step1 (c : ascii) (t : str) (st : state) : state :=
  mkState (Some c) (S (pos st)) t (caps st).

(** The state after groups 2 and 3, which started at [p2]. *)
Definition closed (p2 : nat) (st : state) (g : str) (q : ascii) (tl : str) : state :=
  mkState (Some q) (pos st + length g + 1) tl
    ((3, (pos st + length g, pos st + length g + 1)) ::
     (2, (p2, pos st + length g)) :: caps st).

(** The match the engine reports for groups found at position [p]. *)
Definition caps_of (p : nat) (g1 g2 : str) : list (nat * (nat * nat)) :=
  [(3, (p + length g1 + length g2, p + length g1 + length g2 + 1));
   (2, (p + length g1, p + length g1 + length g2));
   (1, (p, p + length g1))].

(** Group 1 without its anchor. *)
Definition body_reg (kw : str) : regex :=
  Plus (Cls is_space) >> Lit kw >> Star (Cls is_space) >> Cls is_quote.

(** A replacement text without [$] and a run of white space. *)
Definition no_dollar (v : str) : Prop := Forall (fun c => Ascii.eqb c "$" = false) v.

Definition all_space (w : str) : Prop := Forall (fun c => is_space c = true) w.

(** Texts without quotes, without white space, without a newline. *)
Definition no_quote (v : str) : Prop := Forall (fun c => is_quote c = false) v.
Definition no_space (v : str) : Prop := Forall (fun c => is_space c = false) v.
Definition one_line (v : str) : Prop := Forall (fun c => is_dot c = true) v.
Definition ascii_only (v : str) : Prop := Forall (fun c => is_ascii c = true) v.

(** [pre] put before the text that precedes a match. *)
Definition prepend (w : str) (r : option (str * (str * str * ascii * str)))
  : option (str * (str * str * ascii * str)) :=
  match r with
  | Some (pre, m) => Some (w ++ pre, m)
  | None => None
  end.

(** The byte before the position after [w]. *)
Definition pv_after (pv : option ascii) (w : str) : option ascii :=
  match rev w with
  | [] => pv
  | c :: _ => Some c
  end.

(** A text in which no match of the expression can start. *)
Definition skippable (anchored : bool) (z : str) : Prop :=
  no_space z \/ (anchored = true /\ one_line z).

(** Every byte a match of [r] reads satisfies [P]. *)
Fixpoint alphabet (P : ascii -> bool) (r : regex) : Prop :=
  match r with
  | Cls p => forall c, p c = true -> P c = true
  | Lit l => Forall (fun c => P c = true) l
  | Cat a b | Alt a b => alphabet P a /\ alphabet P b
  | Star a | Grp _ a => alphabet P a
  | Any => forall c, P c = true
  | _ => True
  end.

(** [r] ends with the end-of-text anchor, begins with the start-of-text
    anchor. *)
Fixpoint ends_eot (r : regex) : Prop :=
  match r with
  | Eot => True
  | Cat _ b => ends_eot b
  | _ => False
  end.

Fixpoint begins_bot (r : regex) : Prop :=
  match r with
  | Bot => True
  | Cat a _ => begins_bot a
  | _ => False
  end.

(** The bytes of a version string. *)
Definition semver_char (c : ascii) : bool :=
  is_digit c || is_alpha c || Ascii.eqb c "." || Ascii.eqb c "-" || Ascii.eqb c "+".

(** A byte that is not white space, a quote or [$]. *)
Definition plain_char (c : ascii) : bool :=
  negb (is_space c || is_quote c || Ascii.eqb c "$").

Definition plain (v : str) : Prop := Forall (fun c => plain_char c = true) v.

(** A keyword of an assignment: it starts with a byte that is not white
    space, has no quote and ends with [la], not white space either. *)
Definition good_kw (kw : str) (la : ascii) : Prop :=
  (exists k0 kw', kw = k0 :: kw' /\ is_space k0 = false) /\
  no_quote kw /\ (exists ka, kw = ka ++ [la]) /\ is_space la = false.

(** The first matches of the three assignments of a formula. *)
Definition Fv (c : str) := first_from true (L "version") None c.
Definition Fs (c : str) := first_from false (L "sha256") None c.
Definition Fu (c : str) := first_from true (L "url") None c.

(** Index of the first occurrence of [p] in [t]. *)
Fixpoint index_of (p t : str) : option nat :=
  if Strings.HasPrefix t p then Some 0
  else match t with
       | [] => None
       | _ :: t' => option_map S (index_of p t')
       end.

(** The bytes of a version string written by [update]. *)
Definition ver_char (c : ascii) : bool :=
  is_digit c || Ascii.eqb c "." || Ascii.eqb c "-".

(** ** Notions of the specification *)

(** [sub] occurs in [s]. *)
Definition occurs_in (sub s : str) : Prop := exists a b, s = a ++ sub ++ b.

(** The asset the updater wants for a formula whose URL is [origURL]: its
    file name (the last element of its download URL) contains "darwin"
    and "amd64" and ends with the extension of [origURL]. *)
Definition wanted_asset (origURL : str) (a : asset) : Prop :=
  let fname := Path.Base (browser_download_url a) in
  occurs_in (L "darwin") fname /\ occurs_in (L "amd64") fname /\
  exists p, fname = p ++ Path.Ext origURL.

(** [c'] is [c] with the bytes of group 2 of the leftmost-first match of
    [r], which read [old], replaced by [new]. *)
Definition replaces_first (r : regex) (old new c c' : str) : Prop :=
  exists m a b,
    exec r c 0 = Some m /\ lookup_cap 2 (m_caps m) = Some (a, b) /\
    a <= b /\ b <= length c /\ old = substr c a b /\
    c' = firstn a c ++ new ++ skipn b c.

Definition is_lower_hex (c : ascii) : bool :=
  is_digit c || (("a" <=? c) && (c <=? "f"))%char.

Definition not_hyphen (c : ascii) : bool := negb (Ascii.eqb c "-").

(** [strings.Join] with a one-byte separator. *)
Fixpoint join (sep : ascii) (l : list str) : str :=
  match l with
  | [] => []
  | [a] => a
  | a :: t => a ++ sep :: join sep t
  end.

(** The asset the creator wants: its file name contains "darwin" and
    "amd64". *)
Definition darwin_amd64 (a : asset) : Prop :=
  occurs_in (L "darwin") (Path.Base (browser_download_url a)) /\
  occurs_in (L "amd64") (Path.Base (browser_download_url a)).

(** Where [run] writes for a creator and a formula name. *)
Definition destination (cr : creator) (nm : str) : sink :=
  if overwrite cr || negb (str_eqb (outFile cr) [])
  then ToFile (if str_eqb (outFile cr) [] then nm ++ L ".rb" else outFile cr)
  else ToWriter.

(** The numbers of the groups of an expression. *)
Fixpoint group_ids (r : regex) : list nat :=
  match r with
  | Grp n a => n :: group_ids a
  | Cat a b | Alt a b => group_ids a ++ group_ids b
  | Star a => group_ids a
  | _ => []
  end.

(** The state [st] of a run on [v]: its position is where its rest
    begins. *)
Definition located (v : str) (st : state) : Prop :=
  exists before, v = before ++ rest st /\ length before = pos st.

(** * Properties *)

(** ** Strings *)

Lemma str_eqb_eq a b : str_eqb a b = true <-> a = b.
Proof. unfold str_eqb. destruct (list_eq_dec ascii_dec a b); split; congruence. Qed.

Lemma HasPrefix_spec s p :
  Strings.HasPrefix s p = true <-> exists t, s = p ++ t.
Proof.
  revert s; induction p as [|x p IH]; intros s; simpl.
  - split; [intros _; now exists s | reflexivity].
  - destruct s as [|y s].
    + split; [discriminate | intros [t H]; discriminate].
    + rewrite andb_true_iff, IH, Ascii.eqb_eq. split.
      * intros [-> [t ->]]. now exists t.
      * intros [t H]. injection H as -> ->. split; [reflexivity | now exists t].
Qed.

Lemma HasPrefix_app p t : Strings.HasPrefix (p ++ t) p = true.
Proof. apply HasPrefix_spec. now exists t. Qed.

Lemma Contains_spec s sub :
  Strings.Contains s sub = true <-> exists a b, s = a ++ sub ++ b.
Proof.
  induction s as [|c s IH]; simpl; rewrite orb_true_iff, HasPrefix_spec.
  - split.
    + intros [[t H]|H]; [|discriminate]. exists [], t. exact H.
    + intros [a [b H]]. left. destruct a; simpl in H.
      * now exists b.
      * discriminate.
  - rewrite IH. split.
    + intros [[t H]|[a [b H]]].
      * exists [], t. exact H.
      * exists (c :: a), b. simpl. now rewrite H.
    + intros [a [b H]]. destruct a as [|x a]; simpl in H.
      * left. now exists b.
      * right. injection H as _ H. now exists a, b.
Qed.

Lemma HasSuffix_spec s suf :
  Strings.HasSuffix s suf = true <-> exists a, s = a ++ suf.
Proof.
  unfold Strings.HasSuffix. rewrite HasPrefix_spec. split.
  - intros [t H]. exists (rev t).
    rewrite <- (rev_involutive s), H, rev_app_distr, rev_involutive. reflexivity.
  - intros [a ->]. exists (rev a). apply rev_app_distr.
Qed.

(** ** The engine on the assignment expressions *)

Lemma run_star_cls (p : ascii -> bool) (f : nat) (st : state) :
  mrun (Star (Cls p)) (S f) st =
  match rest st with
  | c :: t => if p c then mrun (Star (Cls p)) f (step1 c t st) ++ [st] else [st]
  | [] => [st]
  end.
Proof.
  cbn [mrun]. destruct (rest st) as [|c t]; [reflexivity|].
  destruct (p c); [|reflexivity].
  cbn [flat_map pos]. rewrite app_nil_r.
  replace (pos st <? S (pos st)) with true by (symmetry; apply Nat.ltb_lt; lia).
  reflexivity.
Qed.

Lemma run_star_nil (p : ascii -> bool) (fuel : nat) (st : state) :
  rest st = [] -> mrun (Star (Cls p)) fuel st = [st].
Proof.
  intros H. destruct fuel; [reflexivity|]. rewrite run_star_cls, H. reflexivity.
Qed.

Lemma advance_cons (c : ascii) (l t : str) (st : state) (c' : ascii) :
  rest st = c' :: t -> advance (c :: l) st = advance l (step1 c t st).
Proof. intros H. cbn [advance]. rewrite H. reflexivity. Qed.

(** A greedy star of a class, followed by something that cannot start
    with a byte of the class, stops after the longest mrun of the class. *)
Lemma star_cls_then (p : ascii -> bool) (K : state -> list state) :
  (forall st c t, rest st = c :: t -> p c = true -> K st = []) ->
  forall fuel st,
    length (rest st) <= fuel ->
    flat_map K (mrun (Star (Cls p)) fuel st) =
    K (advance (take_while p (rest st)) st).
Proof.
  intros HK. induction fuel as [|f IH]; intros st Hf.
  - destruct (rest st) eqn:E; [|simpl in Hf; lia].
    cbn [mrun flat_map take_while advance]. apply app_nil_r.
  - rewrite run_star_cls. destruct (rest st) as [|c t] eqn:E.
    + cbn [flat_map take_while advance]. apply app_nil_r.
    + cbn [take_while]. destruct (p c) eqn:Ep.
      * rewrite flat_map_app. cbn [flat_map]. rewrite (HK st c t E Ep), app_nil_r.
        rewrite IH by (simpl in Hf |- *; lia).
        cbn [advance]. rewrite E. reflexivity.
      * cbn [flat_map advance]. apply app_nil_r.
Qed.

Lemma take_drop_while (p : ascii -> bool) (s : str) :
  s = take_while p s ++ Path.drop_while p s.
Proof.
  induction s as [|c s IH]; [reflexivity|]. simpl.
  destruct (p c); [simpl; now rewrite <- IH | reflexivity].
Qed.

Lemma drop_while_head (p : ascii -> bool) (s : str) (c : ascii) (t : str) :
  Path.drop_while p s = c :: t -> p c = false.
Proof.
  induction s as [|x s IH]; simpl; [discriminate|].
  destruct (p x) eqn:E; [exact IH|]. intros [= <- _]. exact E.
Qed.

Lemma take_while_all (p : ascii -> bool) (s : str) :
  Forall (fun c => p c = true) (take_while p s).
Proof.
  induction s as [|c s IH]; simpl; [constructor|].
  destruct (p c) eqn:E; constructor; auto.
Qed.

(** The state after reading [l], when the input starts with [l]. *)
Lemma advance_app (l t : str) (st : state) :
  rest st = l ++ t ->
  advance l st =
  mkState (match rev l with [] => prev st | c :: _ => Some c end)
          (pos st + length l) t (caps st).
Proof.
  revert st. induction l as [|c l IH]; intros st H.
  - simpl in *. destruct st; simpl in *. subst. f_equal. lia.
  - cbn [advance]. cbn [app] in H. rewrite H.
    rewrite IH by reflexivity. cbn [prev pos rest caps length rev].
    f_equal; [|lia].
    destruct (rev l) eqn:E; reflexivity.
Qed.

Lemma rest_advance (l t : str) (st : state) :
  rest st = l ++ t -> rest (advance l st) = t.
Proof. intros H. now rewrite (advance_app _ _ _ H). Qed.

Lemma pos_advance (l t : str) (st : state) :
  rest st = l ++ t -> pos (advance l st) = pos st + length l.
Proof. intros H. now rewrite (advance_app _ _ _ H). Qed.

Lemma caps_advance (l t : str) (st : state) :
  rest st = l ++ t -> caps (advance l st) = caps st.
Proof. intros H. now rewrite (advance_app _ _ _ H). Qed.

Lemma run_Cat (a b : regex) (fuel : nat) (st : state) :
  mrun (a >> b) fuel st = flat_map (mrun b fuel) (mrun a fuel st).
Proof. reflexivity. Qed.

Lemma run_Cls (p : ascii -> bool) (fuel : nat) (st : state) :
  mrun (Cls p) fuel st =
  match rest st with
  | c :: t => if p c then [step1 c t st] else []
  | [] => []
  end.
Proof. reflexivity. Qed.

Lemma run_Lit (l : str) (fuel : nat) (st : state) :
  mrun (Lit l) fuel st =
  if Strings.HasPrefix (rest st) l then [advance l st] else [].
Proof. reflexivity. Qed.

Lemma run_Grp (n : nat) (a : regex) (fuel : nat) (st : state) :
  mrun (Grp n a) fuel st = map (set_cap n (pos st)) (mrun a fuel st).
Proof. reflexivity. Qed.

Lemma run_Any (fuel : nat) (st : state) :
  mrun Any fuel st =
  match rest st with
  | c :: _ =>
      if is_nl c then []
      else [advance (firstn (rune_width (rest st)) (rest st)) st]
  | [] => []
  end.
Proof. reflexivity. Qed.

(** A code point has at least one byte and no more than the text has. *)
Lemma rune_width_bounds (c : ascii) (t : str) :
  1 <= rune_width (c :: t) <= length (c :: t).
Proof.
  unfold rune_width.
  repeat match goal with
         | |- context [if ?b then _ else _] => destruct b
         | |- context [match ?l with [] => _ | _ :: _ => _ end] => destruct l
         end; cbn [length]; lia.
Qed.

Lemma rune_width_le4 (s : str) : rune_width s <= 4.
Proof.
  unfold rune_width.
  repeat match goal with
         | |- context [if ?b then _ else _] => destruct b
         | |- context [match ?l with [] => _ | _ :: _ => _ end] => destruct l
         end; lia.
Qed.

(** What [.] reads: the first code point of the input, unless it is a
    newline. *)
Lemma in_Any (fuel : nat) (st st' : state) :
  In st' (mrun Any fuel st) ->
  exists c r,
    rest st = (c :: r) ++ rest st' /\ is_nl c = false /\
    rune_width (rest st) = length (c :: r) /\
    pos st' = pos st + length (c :: r) /\ caps st' = caps st.
Proof.
  rewrite run_Any. destruct (rest st) as [|c t] eqn:E; [intros []|].
  destruct (is_nl c) eqn:N; [intros []|]. intros [<-|[]].
  pose proof (rune_width_bounds c t) as [B1 B2].
  pose proof (firstn_skipn (rune_width (c :: t)) (c :: t)) as FS.
  pose proof (firstn_length_le (c :: t) B2) as FL.
  destruct (firstn (rune_width (c :: t)) (c :: t)) as [|c' r] eqn:F;
    [cbn [length] in FL; lia|].
  assert (c' = c) as ->.
  { destruct (rune_width (c :: t)); [lia|]. cbn [firstn] in F. congruence. }
  assert (rest st = (c :: r) ++ skipn (rune_width (c :: t)) (c :: t)) as E'
    by (rewrite E; symmetry; exact FS).
  exists c, r.
  rewrite (rest_advance _ _ _ E'), (pos_advance _ _ _ E'), (caps_advance _ _ _ E').
  repeat split; auto.
Qed.

Lemma Any_head (fuel : nat) (st : state) (c : ascii) (r t : str) :
  rest st = (c :: r) ++ t -> is_nl c = false ->
  rune_width (rest st) = length (c :: r) ->
  mrun Any fuel st = [advance (c :: r) st].
Proof.
  intros E N W. rewrite run_Any, W, E. cbn [app]. rewrite N.
  change (c :: r ++ t) with ((c :: r) ++ t).
  rewrite firstn_app, Nat.sub_diag, firstn_all. cbn [firstn].
  now rewrite app_nil_r.
Qed.

Lemma advance_advance (a b t : str) (st : state) :
  rest st = a ++ t -> advance (a ++ b) st = advance b (advance a st).
Proof.
  revert st. induction a as [|c a IH]; intros st H; [reflexivity|].
  cbn [app] in *. cbn [advance]. rewrite H. apply IH. reflexivity.
Qed.

Lemma space_not_quote (c : ascii) : is_space c = true -> is_quote c = false.
Proof.
  destruct c as [[] [] [] [] [] [] [] []]; try reflexivity; discriminate.
Qed.

Lemma HasPrefix_cons_neq (c k : ascii) (t kw : str) :
  c <> k -> Strings.HasPrefix (c :: t) (k :: kw) = false.
Proof.
  intros H. cbn [Strings.HasPrefix].
  destruct (Ascii.eqb k c) eqn:E; [|reflexivity].
  apply Ascii.eqb_eq in E. congruence.
Qed.

Lemma skipn_app_exact (a b : str) : skipn (length a) (a ++ b) = b.
Proof. induction a; simpl; auto. Qed.

Section Body.
Variables (k0 : ascii) (kw' : str).
Hypothesis k0_not_space : is_space k0 = false.
Let kw := k0 :: kw'.


Lemma run_tail (fuel : nat) (st : state) :
  length (rest st) <= fuel ->
  mrun (Star (Cls is_space) >> Cls is_quote) fuel st =
  match Path.drop_while is_space (rest st) with
  | q :: s4 =>
      if is_quote q then [advance (take_while is_space (rest st) ++ [q]) st] else []
  | [] => []
  end.
Proof.
  intros Hf. rewrite run_Cat.
  rewrite star_cls_then with (K := mrun (Cls is_quote) fuel); [| |exact Hf].
  - pose proof (take_drop_while is_space (rest st)) as E.
    set (w := take_while is_space (rest st)) in *.
    destruct (Path.drop_while is_space (rest st)) as [|q s4] eqn:Ed.
    + rewrite run_Cls, (rest_advance w [] st E). reflexivity.
    + rewrite run_Cls, (rest_advance w (q :: s4) st E).
      destruct (is_quote q); [|reflexivity].
      rewrite (advance_advance w [q] (q :: s4) st E).
      cbn [advance]. rewrite (rest_advance w (q :: s4) st E). reflexivity.
  - intros st' c t E Hc. rewrite run_Cls, E.
    now rewrite (space_not_quote c Hc).
Qed.

Lemma run_body (fuel : nat) (st : state) :
  length (rest st) <= fuel ->
  mrun (body_reg kw) fuel st =
  match head_of kw (rest st) with
  | Some (g1, _) => [advance g1 st]
  | None => []
  end.
Proof.
  intros Hf. unfold body_reg, Plus, head_of.
  rewrite run_Cat, run_Cat, run_Cls.
  destruct (rest st) as [|c t] eqn:E; [reflexivity|].
  cbn [take_while Path.drop_while].
  destruct (is_space c) eqn:Ec; [|reflexivity].
  cbn [flat_map]. rewrite app_nil_r.
  rewrite star_cls_then
    with (K := mrun (Lit kw >> Star (Cls is_space) >> Cls is_quote) fuel).
  2:{ intros st' c' t' E' Hc'. rewrite run_Cat, run_Lit, E'. unfold kw.
      rewrite HasPrefix_cons_neq; [reflexivity|]. intros ->. congruence. }
  2:{ cbn [rest step1]. simpl in Hf. lia. }
  cbn [rest step1].
  pose proof (take_drop_while is_space t) as Et.
  set (w := take_while is_space t) in *. set (s1 := Path.drop_while is_space t) in *.
  assert (rest (step1 c t st) = w ++ s1) as E1 by exact Et.
  rewrite run_Cat, run_Lit, (rest_advance w s1 _ E1).
  destruct (Strings.HasPrefix s1 kw) eqn:Ep; [|reflexivity].
  cbn [flat_map]. rewrite app_nil_r.
  apply HasPrefix_spec in Ep. destruct Ep as [s2 Es2].
  assert (rest (advance w (step1 c t st)) = kw ++ s2) as E2.
  { rewrite (rest_advance w s1 _ E1). exact Es2. }
  rewrite run_tail.
  2:{ rewrite (rest_advance kw s2 _ E2).
      assert (length t = length w + length s1) by (rewrite Et at 1; apply length_app).
      rewrite Es2, length_app in H. simpl in Hf. lia. }
  rewrite (rest_advance kw s2 _ E2). rewrite Es2, skipn_app_exact.
  destruct (Path.drop_while is_space s2) as [|q s4]; [reflexivity|].
  destruct (is_quote q); [|reflexivity].
  f_equal.
  assert (rest st = (c :: w) ++ s1) as E0 by (rewrite E, Et at 1; reflexivity).
  change (c :: w ++ kw ++ take_while is_space s2 ++ [q])
    with ((c :: w) ++ kw ++ take_while is_space s2 ++ [q]).
  rewrite (advance_advance (c :: w) _ s1 st E0).
  cbn [advance]. rewrite E. fold (step1 c t st).
  rewrite (advance_advance kw _ s2 _ E2). reflexivity.
Qed.
End Body.

Lemma hd_error_app (A : Type) (a b : list A) :
  hd_error (a ++ b) = match hd_error a with Some x => Some x | None => hd_error b end.
Proof. destruct a; reflexivity. Qed.

Lemma not_dot_not_quote (c : ascii) : is_dot c = false -> is_quote c = false.
Proof.
  unfold is_dot, is_nl. destruct (Ascii.eqb c nl) eqn:E; [|discriminate].
  apply Ascii.eqb_eq in E. subst. reflexivity.
Qed.


Lemma closed_step (p2 : nat) (st : state) (c : ascii) (t g : str) (q : ascii) (tl : str) :
  closed p2 (step1 c t st) g q tl = closed p2 st (c :: g) q tl.
Proof.
  unfold closed. cbn [pos caps step1 length].
  replace (S (pos st) + length g) with (pos st + S (length g)) by lia.
  reflexivity.
Qed.

Lemma run_dot_quote (p2 fuel' : nat) :
  forall fuel st,
    length (rest st) <= fuel ->
    hd_error (flat_map (mrun (Grp 3 (Cls is_quote)) fuel')
                (map (set_cap 2 p2) (mrun (Star (Cls is_dot)) fuel st))) =
    match lastq (rest st) with
    | Some (g, q, tl) => Some (closed p2 st g q tl)
    | None => None
    end.
Proof.
  assert (forall st,
             flat_map (mrun (Grp 3 (Cls is_quote)) fuel') [set_cap 2 p2 st] =
             match rest st with
             | c :: t => if is_quote c then [closed p2 st [] c t] else []
             | [] => []
             end) as HK.
  { intros st. cbn [flat_map]. rewrite app_nil_r, run_Grp, run_Cls.
    cbn [rest set_cap]. destruct (rest st) as [|c t]; [reflexivity|].
    destruct (is_quote c); [|reflexivity].
    cbn [map]. unfold closed, set_cap, step1. cbn [prev pos rest caps length].
    rewrite !Nat.add_0_r, Nat.add_1_r. reflexivity. }
  induction fuel as [|f IH]; intros st Hf.
  - destruct (rest st) eqn:E; [|simpl in Hf; lia].
    cbn [mrun map]. rewrite HK, E. reflexivity.
  - rewrite run_star_cls. destruct (rest st) as [|c t] eqn:E.
    + cbn [map]. rewrite HK, E. reflexivity.
    + cbn [lastq]. destruct (is_dot c) eqn:Ed.
      * rewrite map_app, flat_map_app, hd_error_app.
        rewrite IH by (simpl in Hf |- *; lia). cbn [rest step1].
        destruct (lastq t) as [[[g q] tl]|].
        -- now rewrite closed_step.
        -- cbn [map]. rewrite HK, E. destruct (is_quote c); reflexivity.
      * cbn [map]. rewrite HK, E. now rewrite (not_dot_not_quote c Ed).
Qed.

Lemma head_of_app (kw s g1 s4 : str) :
  head_of kw s = Some (g1, s4) -> s = g1 ++ s4.
Proof.
  unfold head_of. pose proof (take_drop_while is_space s) as E.
  destruct (take_while is_space s) as [|c w] eqn:Ew; [discriminate|].
  destruct (Strings.HasPrefix _ kw) eqn:Ep; [|discriminate].
  apply HasPrefix_spec in Ep. destruct Ep as [s2 Es2].
  rewrite Es2, skipn_app_exact.
  pose proof (take_drop_while is_space s2) as E2.
  destruct (Path.drop_while is_space s2) as [|q s5]; [discriminate|].
  destruct (is_quote q); [|discriminate].
  intros [= <- <-]. rewrite E, Es2, E2 at 1.
  cbn [app]. f_equal. rewrite <- !app_assoc. reflexivity.
Qed.

Section Assign.
Variables (k0 : ascii) (kw' : str).
Hypothesis k0_not_space : is_space k0 = false.
Let kw := k0 :: kw'.


Lemma run_assign (anchored : bool) (fuel : nat) (pv : option ascii) (p : nat) (s : str) :
  length s <= fuel ->
  hd_error (mrun (assignReg anchored kw) fuel (mkState pv p s [])) =
  match starts anchored kw pv s with
  | Some (g1, g2, q3, post) =>
      Some (mkState (Some q3) (p + length g1 + length g2 + 1) post (caps_of p g1 g2))
  | None => None
  end.
Proof.
  intros Hf. unfold assignReg, starts. cbv zeta.
  set (st := mkState pv p s []).
  assert (mrun (if anchored
               then Bol >> Plus ws >> Lit kw >> Star ws >> quote
               else Plus ws >> Lit kw >> Star ws >> quote) fuel st =
          if anchored && negb (bol pv) then []
          else match head_of kw s with
               | Some (g1, _) => [advance g1 st]
               | None => []
               end) as E.
  { pose proof (@run_body k0 kw' k0_not_space fuel st Hf) as B.
    unfold body_reg in B. unfold ws, quote.
    destruct anchored; cbn [andb].
    - rewrite run_Cat. cbn [mrun]. unfold at_bol. cbn [prev st]. fold (bol pv).
      destruct (bol pv); cbn [negb flat_map]; [|reflexivity].
      rewrite app_nil_r. exact B.
    - exact B. }
  rewrite run_Cat, run_Grp, E. clear E.
  destruct (anchored && negb (bol pv)); [reflexivity|].
  destruct (head_of kw s) as [[g1 s4]|] eqn:Eh; [|reflexivity].
  apply head_of_app in Eh.
  cbn [map flat_map]. rewrite app_nil_r, run_Cat, run_Grp.
  unfold dot, quote.
  assert (rest st = g1 ++ s4) as Er by exact Eh.
  rewrite run_dot_quote.
  2:{ cbn [rest set_cap]. rewrite (rest_advance g1 s4 st Er).
      rewrite Eh, length_app in Hf. lia. }
  cbn [rest pos set_cap]. rewrite (rest_advance g1 s4 st Er).
  destruct (lastq s4) as [[[g2 q3] post]|]; [|reflexivity].
  unfold closed, caps_of. cbn [pos caps set_cap].
  rewrite (pos_advance g1 s4 st Er), (caps_advance g1 s4 st Er). reflexivity.
Qed.

Lemma scan_assign (anchored : bool) (fuel : nat) :
  forall s pv p,
    length s <= fuel ->
    scan (assignReg anchored kw) fuel pv p s =
    match first_from anchored kw pv s with
    | Some (pre, (g1, g2, q3, post)) =>
        Some (mkMatch (p + length pre)
                      (p + length pre + length g1 + length g2 + 1)
                      (caps_of (p + length pre) g1 g2))
    | None => None
    end.
Proof.
  induction s as [|c t IH]; intros pv p Hf.
  - cbn [scan first_from]. pose proof (run_assign anchored pv p [] Hf) as R.
    destruct (mrun _ fuel _) as [|st' l]; cbn [hd_error] in R.
    + destruct (starts anchored kw pv []) as [[[[g1 g2] q3] post]|]; [discriminate|].
      reflexivity.
    + destruct (starts anchored kw pv []) as [[[[g1 g2] q3] post]|]; [|discriminate].
      injection R as ->. cbn [pos caps length]. now rewrite Nat.add_0_r.
  - cbn [scan first_from]. pose proof (run_assign anchored pv p (c :: t) Hf) as R.
    destruct (mrun _ fuel _) as [|st' l]; cbn [hd_error] in R.
    + destruct (starts anchored kw pv (c :: t)) as [[[[g1 g2] q3] post]|]; [discriminate|].
      rewrite IH by (simpl in Hf; lia).
      destruct (first_from anchored kw (Some c) t) as [[pre [[[g1 g2] q3] post]]|];
        [|reflexivity].
      cbn [length]. rewrite <- !Nat.add_succ_comm. reflexivity.
    + destruct (starts anchored kw pv (c :: t)) as [[[[g1 g2] q3] post]|]; [|discriminate].
      injection R as ->. cbn [pos caps length]. now rewrite Nat.add_0_r.
Qed.
End Assign.

(** ** Matches, groups and single replacement *)

Lemma lastq_spec (s g : str) (q : ascii) (tl : str) :
  lastq s = Some (g, q, tl) ->
  s = g ++ q :: tl /\ is_quote q = true /\
  Forall (fun c => is_dot c = true) g /\ lastq tl = None.
Proof.
  revert g. induction s as [|c t IH]; intros g; cbn [lastq]; [discriminate|].
  destruct (is_dot c) eqn:Ed; [|discriminate].
  destruct (lastq t) as [[[g' q'] tl']|] eqn:El.
  - intros [= <- <- <-]. destruct (IH g' eq_refl) as [-> [Hq [Hg Hn]]].
    repeat split; auto.
  - destruct (is_quote c) eqn:Eq; [|discriminate].
    intros [= <- <- <-]. repeat split; auto.
Qed.

Lemma starts_app (anchored : bool) (kw : str) (pv : option ascii)
    (s g1 g2 : str) (q3 : ascii) (post : str) :
  starts anchored kw pv s = Some (g1, g2, q3, post) ->
  s = g1 ++ g2 ++ q3 :: post.
Proof.
  unfold starts. destruct (anchored && negb (bol pv)); [discriminate|].
  destruct (head_of kw s) as [[h s4]|] eqn:Eh; [|discriminate].
  destruct (lastq s4) as [[[g q] tl]|] eqn:El; [|discriminate].
  intros [= <- <- <- <-]. apply head_of_app in Eh. apply lastq_spec in El.
  destruct El as [-> _]. exact Eh.
Qed.

Lemma first_from_app (anchored : bool) (kw : str) :
  forall s pv pre g1 g2 q3 post,
    first_from anchored kw pv s = Some (pre, (g1, g2, q3, post)) ->
    s = pre ++ g1 ++ g2 ++ q3 :: post.
Proof.
  induction s as [|c t IH]; intros pv pre g1 g2 q3 post; cbn [first_from].
  - destruct (starts anchored kw pv []) as [m|] eqn:E; [|discriminate].
    intros [= <- ->]. now apply starts_app in E.
  - destruct (starts anchored kw pv (c :: t)) as [m|] eqn:E.
    + intros [= <- ->]. now apply starts_app in E.
    + destruct (first_from anchored kw (Some c) t) as [[pre' m]|] eqn:F; [|discriminate].
      intros [= <- ->]. apply IH in F. cbn [app]. now rewrite <- F.
Qed.

Lemma substr_mid (a b c : str) :
  substr (a ++ b ++ c) (length a) (length a + length b) = b.
Proof.
  unfold substr. rewrite skipn_app_exact.
  replace (length a + length b - length a) with (length b) by lia.
  rewrite firstn_app, firstn_all, Nat.sub_diag. cbn [firstn]. apply app_nil_r.
Qed.

Lemma substr_0 (a b : str) : substr (a ++ b) 0 (length a) = a.
Proof. exact (substr_mid [] a b). Qed.

Lemma lookup_caps_of (p : nat) (g1 g2 : str) :
  lookup_cap 1 (caps_of p g1 g2) = Some (p, p + length g1) /\
  lookup_cap 2 (caps_of p g1 g2) = Some (p + length g1, p + length g1 + length g2) /\
  lookup_cap 3 (caps_of p g1 g2) =
    Some (p + length g1 + length g2, p + length g1 + length g2 + 1).
Proof. repeat split. Qed.

(** The groups of the match of an assignment found after [pre]. *)
Lemma groups_of_match (pre g1 g2 : str) (q3 : ascii) (post : str) :
  let s := pre ++ g1 ++ g2 ++ q3 :: post in
  let m := mkMatch (length pre) (length pre + length g1 + length g2 + 1)
                   (caps_of (length pre) g1 g2) in
  group s m 0 = g1 ++ g2 ++ [q3] /\ group s m 1 = g1 /\
  group s m 2 = g2 /\ group s m 3 = [q3].
Proof.
  intros s m. unfold group, m. cbn [m_start m_end m_caps].
  destruct (lookup_caps_of (length pre) g1 g2) as [-> [-> ->]].
  unfold s. repeat split.
  - replace (pre ++ g1 ++ g2 ++ q3 :: post)
      with (pre ++ (g1 ++ g2 ++ [q3]) ++ post)
      by (now rewrite <- !app_assoc).
    replace (length pre + length g1 + length g2 + 1)
      with (length pre + length (g1 ++ g2 ++ [q3]))
      by (rewrite !length_app; simpl; lia).
    apply substr_mid.
  - apply substr_mid.
  - rewrite (app_assoc pre g1), <- (length_app pre g1). apply substr_mid.
  - replace (pre ++ g1 ++ g2 ++ q3 :: post)
      with ((pre ++ g1 ++ g2) ++ [q3] ++ post)
      by (now rewrite <- !app_assoc).
    replace (length pre + length g1 + length g2) with (length (pre ++ g1 ++ g2))
      by (rewrite !length_app; lia).
    apply (substr_mid (pre ++ g1 ++ g2) [q3] post).
Qed.

Lemma substr_skipn (s : str) (a b : nat) :
  a <= b -> b <= length s -> substr s a b ++ skipn b s = skipn a s.
Proof.
  intros Hab Hb. unfold substr.
  replace (skipn b s) with (skipn (b - a) (skipn a s)).
  - apply firstn_skipn.
  - rewrite skipn_skipn. f_equal. lia.
Qed.

Lemma substr_empty (s : str) (a : nat) : substr s a a = [].
Proof. unfold substr. now rewrite Nat.sub_diag. Qed.

(** A callback that returns every match as it is leaves the input as it
    is. *)
Lemma replaceAll_identity (St : Type) (r : regex) (s : str)
    (repl : St -> mtch -> St * str) (sigma : St) :
  (forall p m, p <= length s -> exec r s p = Some m ->
               p <= m_start m /\ m_start m <= m_end m /\ m_end m <= length s) ->
  (forall m, repl sigma m = (sigma, substr s (m_start m) (m_end m))) ->
  forall fuel lastEnd searchPos buf,
    lastEnd <= searchPos ->
    replaceAll r s repl fuel lastEnd searchPos sigma buf = buf ++ skipn lastEnd s.
Proof.
  intros Hb Hid. induction fuel as [|f IH]; intros lastEnd searchPos buf Hle;
    cbn [replaceAll]; [reflexivity|].
  destruct (length s <? searchPos) eqn:El; [reflexivity|].
  apply Nat.ltb_ge in El.
  destruct (exec r s searchPos) as [m|] eqn:Ex; [|reflexivity].
  destruct (Hb _ _ El Ex) as [H1 [H2 H3]].
  rewrite Hid.
  destruct ((lastEnd <? m_end m) || (m_start m =? 0)) eqn:Ec.
  - rewrite IH
      by (destruct (m_end m <? searchPos + 1) eqn:E1;
          [apply Nat.ltb_lt in E1|]; lia).
    rewrite <- !app_assoc. f_equal.
    rewrite (substr_skipn s H2 H3). apply substr_skipn; lia.
  - rewrite IH
      by (destruct (m_end m <? searchPos + 1) eqn:E1;
          [apply Nat.ltb_lt in E1|]; lia).
    apply orb_false_iff in Ec. destruct Ec as [Ec _]. apply Nat.ltb_ge in Ec.
    assert (m_start m = lastEnd) as -> by lia.
    assert (m_end m = lastEnd) as -> by lia.
    now rewrite substr_empty, app_nil_r.
Qed.

Section AssignExec.
Variables (k0 : ascii) (kw' : str) (anchored : bool).
Hypothesis k0_not_space : is_space k0 = false.
Let kw := k0 :: kw'.
Let R := assignReg anchored kw.

Lemma exec_assign (s : str) (p : nat) :
  exec R s p =
  match first_from anchored kw (prev_at s p) (skipn p s) with
  | Some (pre, (g1, g2, q3, post)) =>
      Some (mkMatch (p + length pre)
                    (p + length pre + length g1 + length g2 + 1)
                    (caps_of (p + length pre) g1 g2))
  | None => None
  end.
Proof.
  unfold exec, R, kw. apply scan_assign; [exact k0_not_space|].
  rewrite length_skipn. lia.
Qed.

Lemma exec_assign_bounds (s : str) (p : nat) (m : mtch) :
  p <= length s -> exec R s p = Some m ->
  p <= m_start m /\ m_start m <= m_end m /\ m_end m <= length s.
Proof.
  intros Hp. rewrite exec_assign.
  destruct (first_from _ _ _ _) as [[pre [[[g1 g2] q3] post]]|] eqn:E; [|discriminate].
  intros [= <-]. cbn [m_start m_end]. apply first_from_app in E.
  apply (f_equal (@length ascii)) in E.
  rewrite length_skipn, !length_app in E. cbn [length] in E. lia.
Qed.

Lemma numSubexp_assign : numSubexp R = 3.
Proof. unfold R, assignReg. destruct anchored; reflexivity. Qed.

Lemma FindStringSubmatch_assign (s : str) :
  FindStringSubmatch R s =
  match first_from anchored kw None s with
  | Some (_, (g1, g2, q3, _)) => [g1 ++ g2 ++ [q3]; g1; g2; [q3]]
  | None => []
  end.
Proof.
  unfold FindStringSubmatch. rewrite exec_assign, numSubexp_assign.
  cbn [prev_at skipn].
  destruct (first_from _ _ _ _) as [[pre [[[g1 g2] q3] post]]|] eqn:E; [|reflexivity].
  apply first_from_app in E. subst s. cbn [Nat.add seq map].
  destruct (groups_of_match pre g1 g2 q3 post) as [-> [-> [-> ->]]].
  reflexivity.
Qed.
End AssignExec.


Lemma expand_plain (src : str) (m : mtch) (n : nat) (v t : str) :
  no_dollar v -> expand src m n 0 (v ++ t) = v ++ expand src m n 0 t.
Proof.
  intros H. induction H as [|c v Hc Hv IH]; [reflexivity|].
  cbn [app expand]. rewrite Hc. now rewrite IH.
Qed.

Lemma expand_template (src : str) (m : mtch) (v : str) :
  no_dollar v ->
  expand src m 3 0 (repl_template v) = group src m 1 ++ v ++ group src m 3.
Proof.
  intros H. unfold repl_template.
  change (L "${1}" ++ v ++ L "${3}")
    with ("$"%char :: "{"%char :: "1"%char :: "}"%char :: (v ++ L "${3}")).
  cbn [expand]. change (Ascii.eqb "$" "$") with true. cbv iota.
  change (Ascii.eqb "{" "$") with false. cbv iota.
  change (extract ("{"%char :: "1"%char :: "}"%char :: (v ++ L "${3}")))
    with (Some (Some 1%N, 3)).
  cbv iota beta. change (1 <=? N.of_nat 3)%N with true. cbv iota.
  change (N.to_nat 1) with 1. f_equal.
  rewrite (@expand_plain src m 3 v (L "${3}") H). f_equal.
  cbn. apply app_nil_r.
Qed.


Lemma take_while_app_stop (p : ascii -> bool) (w s : str) :
  Forall (fun c => p c = true) w ->
  match s with c :: _ => p c = false | [] => True end ->
  take_while p (w ++ s) = w /\ Path.drop_while p (w ++ s) = s.
Proof.
  intros Hw Hs. induction Hw as [|c w Hc Hw IH]; cbn [app].
  - destruct s as [|c t]; [split; reflexivity|].
    cbn [take_while Path.drop_while]. rewrite Hs. split; reflexivity.
  - cbn [take_while Path.drop_while]. rewrite Hc.
    destruct IH as [-> ->]. split; reflexivity.
Qed.

Lemma quote_not_space (q : ascii) : is_quote q = true -> is_space q = false.
Proof.
  intros H. destruct (is_space q) eqn:E; [|reflexivity].
  apply space_not_quote in E. congruence.
Qed.

Lemma quote_is_dot (q : ascii) : is_quote q = true -> is_dot q = true.
Proof.
  intros H. destruct (is_dot q) eqn:E; [reflexivity|].
  apply not_dot_not_quote in E. congruence.
Qed.

(** Group 1 is white space, the keyword, white space and a quote. *)
Lemma head_of_inv (kw s g1 s4 : str) :
  head_of kw s = Some (g1, s4) ->
  exists w1 w2 q,
    g1 = w1 ++ kw ++ w2 ++ [q] /\ w1 <> [] /\ all_space w1 /\ all_space w2 /\
    is_quote q = true.
Proof.
  unfold head_of.
  pose proof (take_while_all is_space s) as A1.
  destruct (take_while is_space s) as [|c w] eqn:Ew; [discriminate|].
  destruct (Strings.HasPrefix _ kw) eqn:Ep; [|discriminate].
  set (s2 := skipn (length kw) (Path.drop_while is_space s)).
  pose proof (take_while_all is_space s2) as A2.
  destruct (Path.drop_while is_space s2) as [|q s5]; [discriminate|].
  destruct (is_quote q) eqn:Eq; [|discriminate].
  intros [= <- <-]. exists (c :: w), (take_while is_space s2), q.
  repeat split; auto. discriminate.
Qed.

Lemma head_of_intro (k0 : ascii) (kw' w1 w2 : str) (q : ascii) (s4 : str) :
  is_space k0 = false -> w1 <> [] -> all_space w1 -> all_space w2 ->
  is_quote q = true ->
  head_of (k0 :: kw') ((w1 ++ (k0 :: kw') ++ w2 ++ [q]) ++ s4) =
  Some (w1 ++ (k0 :: kw') ++ w2 ++ [q], s4).
Proof.
  intros Hk Hne H1 H2 Hq. unfold head_of.
  rewrite <- !app_assoc.
  destruct (@take_while_app_stop is_space w1 ((k0 :: kw') ++ w2 ++ [q] ++ s4) H1 Hk)
    as [-> ->].
  destruct w1 as [|c w]; [congruence|].
  rewrite HasPrefix_app, skipn_app_exact.
  destruct (@take_while_app_stop is_space w2 ([q] ++ s4) H2 (quote_not_space q Hq))
    as [-> ->].
  cbn [app]. rewrite Hq. reflexivity.
Qed.

Lemma lastq_intro (g : str) (q : ascii) (tl : str) :
  Forall (fun c => is_dot c = true) g -> is_quote q = true -> lastq tl = None ->
  lastq (g ++ q :: tl) = Some (g, q, tl).
Proof.
  intros Hg Hq Hn. induction Hg as [|c g Hc Hg IH]; cbn [app lastq].
  - now rewrite (quote_is_dot q Hq), Hn, Hq.
  - now rewrite Hc, IH.
Qed.

Lemma replaceAll_step (St : Type) (r : regex) (src : str)
    (repl : St -> mtch -> St * str) (f lastEnd searchPos : nat) (sigma : St)
    (buf : str) (m : mtch) :
  searchPos <= length src ->
  exec r src searchPos = Some m ->
  replaceAll r src repl (S f) lastEnd searchPos sigma buf =
  let buf1 := buf ++ substr src lastEnd (m_start m) in
  let sb := if (lastEnd <? m_end m) || (m_start m =? 0)
            then (fst (repl sigma m), buf1 ++ snd (repl sigma m))
            else (sigma, buf1) in
  replaceAll r src repl f (m_end m)
    (if m_end m <? searchPos + 1 then searchPos + 1 else m_end m)
    (fst sb) (snd sb).
Proof.
  intros Hp Hx. cbn [replaceAll].
  replace (length src <? searchPos) with false by (symmetry; apply Nat.ltb_ge; lia).
  rewrite Hx. cbv zeta.
  destruct ((lastEnd <? m_end m) || (m_start m =? 0)); [|reflexivity].
  destruct (repl sigma m); reflexivity.
Qed.

Lemma replaceAll_stop (St : Type) (r : regex) (src : str)
    (repl : St -> mtch -> St * str) (f lastEnd searchPos : nat) (sigma : St)
    (buf : str) :
  exec r src searchPos = None ->
  replaceAll r src repl (S f) lastEnd searchPos sigma buf = buf ++ skipn lastEnd src.
Proof.
  intros Hx. cbn [replaceAll]. rewrite Hx.
  destruct (length src <? searchPos); reflexivity.
Qed.

Lemma first_from_starts (anchored : bool) (kw : str) :
  forall s pv pre m,
    first_from anchored kw pv s = Some (pre, m) ->
    exists pv' t, starts anchored kw pv' t = Some m.
Proof.
  induction s as [|c s IH]; intros pv pre m; cbn [first_from].
  - destruct (starts anchored kw pv []) eqn:S0; [|discriminate].
    intros [= _ <-]. eauto.
  - destruct (starts anchored kw pv (c :: s)) eqn:S0.
    + intros [= _ <-]. eauto.
    + destruct (first_from anchored kw (Some c) s) as [[pre' m']|] eqn:F';
        [|discriminate].
      intros [= _ <-]. eapply IH. exact F'.
Qed.

Section AssignReplace.
Variables (k0 : ascii) (kw' : str) (anchored : bool).
Hypothesis k0_not_space : is_space k0 = false.
Let kw := k0 :: kw'.
Let R := assignReg anchored kw.

(** A match, cut out of its input, matches as a whole and with the same
    groups. *)
Lemma starts_isolated (pv : option ascii) (s g1 g2 : str) (q3 : ascii) (post : str) :
  starts anchored kw pv s = Some (g1, g2, q3, post) ->
  starts anchored kw None (g1 ++ g2 ++ [q3]) = Some (g1, g2, q3, []).
Proof.
  unfold starts. destruct (anchored && negb (bol pv)); [discriminate|].
  destruct (head_of kw s) as [[h s4]|] eqn:Eh; [|discriminate].
  destruct (lastq s4) as [[[g q] tl]|] eqn:El; [|discriminate].
  intros [= -> -> -> ->].
  cbn [bol negb]. rewrite andb_false_r.
  apply head_of_inv in Eh. destruct Eh as [w1 [w2 [q [-> [Hne [H1 [H2 Hq]]]]]]].
  apply lastq_spec in El. destruct El as [_ [Hq3 [Hg _]]].
  unfold kw.
  rewrite head_of_intro by assumption.
  now rewrite lastq_intro.
Qed.

Lemma exec_assign_end (s : str) : exec R s (length s) = None.
Proof.
  unfold R, kw. rewrite (@exec_assign k0 kw' anchored k0_not_space s (length s)).
  rewrite skipn_all. cbn [first_from]. unfold starts, head_of. cbn [take_while].
  now destruct (anchored && negb (bol (prev_at s (length s)))).
Qed.

Lemma ReplaceAllString_match (pv : option ascii) (s g1 g2 : str) (q3 : ascii)
    (post v : str) :
  starts anchored kw pv s = Some (g1, g2, q3, post) ->
  no_dollar v ->
  ReplaceAllString R (g1 ++ g2 ++ [q3]) (repl_template v) = g1 ++ v ++ [q3].
Proof.
  intros Hs Hv. apply starts_isolated in Hs.
  set (m0 := g1 ++ g2 ++ [q3]) in *.
  assert (length m0 = length g1 + length g2 + 1) as Hlen
    by (unfold m0; rewrite !length_app; cbn [length]; lia).
  assert (first_from anchored kw None m0 = Some ([], (g1, g2, q3, []))) as F.
  { destruct m0; cbn [first_from]; now rewrite Hs. }
  assert (exec R m0 0 =
          Some (mkMatch 0 (length m0) (caps_of 0 g1 g2))) as E.
  { unfold R, kw. rewrite (@exec_assign k0 kw' anchored k0_not_space m0 0).
    cbn [prev_at skipn]. fold kw. rewrite F, Hlen. reflexivity. }
  unfold ReplaceAllString. rewrite Nat.add_comm. cbn [Nat.add].
  erewrite replaceAll_step; [|apply Nat.le_0_l|exact E]. cbv zeta.
  cbn [m_start m_end fst snd].
  replace (0 <? length m0) with true by (symmetry; apply Nat.ltb_lt; lia).
  cbn [orb fst snd]. rewrite replaceAll_stop.
  2:{ replace (length m0 <? 0 + 1) with false by (symmetry; apply Nat.ltb_ge; lia).
      apply exec_assign_end. }
  rewrite skipn_all, app_nil_r, substr_empty. cbn [app].
  unfold R, kw. rewrite (@numSubexp_assign k0 kw' anchored).
  rewrite expand_template by exact Hv.
  pose proof (groups_of_match [] g1 g2 q3 []) as G. cbn [app length Nat.add] in G.
  fold m0 in G. rewrite <- Hlen in G. destruct G as [_ [-> [_ ->]]].
  reflexivity.
Qed.

(** [replaceOne] with the template of [updateContent] puts [v] in place of
    group 2 of the first match and changes nothing else. *)
Lemma replaceOne_assign (s v : str) :
  no_dollar v ->
  replaceOne R s (repl_template v) =
  match first_from anchored kw None s with
  | Some (pre, (g1, g2, q3, post)) => pre ++ g1 ++ v ++ q3 :: post
  | None => s
  end.
Proof.
  intros Hv. unfold replaceOne, ReplaceAllStringFunc.
  rewrite Nat.add_comm. cbn [Nat.add].
  pose proof (@exec_assign k0 kw' anchored k0_not_space s 0) as E.
  fold kw in E. fold R in E. cbn [prev_at skipn] in E.
  destruct (first_from anchored kw None s) as [[pre [[[g1 g2] q3] post]]|] eqn:F.
  - erewrite replaceAll_step; [|apply Nat.le_0_l|exact E]. cbv zeta.
    cbn [m_start m_end Nat.add fst snd].
    replace (0 <? length pre + length g1 + length g2 + 1) with true
      by (symmetry; apply Nat.ltb_lt; lia).
    cbn [orb fst snd].
    pose proof (first_from_app _ _ _ _ F) as Es.
    rewrite replaceAll_identity.
    + assert (substr s 0 (length pre) = pre) as ->
        by (rewrite Es; apply substr_0).
      assert (substr s (length pre) (length pre + length g1 + length g2 + 1) =
              g1 ++ g2 ++ [q3]) as ->.
      { pose proof (groups_of_match pre g1 g2 q3 post) as G. cbv zeta in G.
        rewrite <- Es in G. apply G. }
      assert (skipn (length pre + length g1 + length g2 + 1) s = post) as ->.
      { rewrite Es.
        replace (pre ++ g1 ++ g2 ++ q3 :: post)
          with ((pre ++ g1 ++ g2 ++ [q3]) ++ post) by (now rewrite <- !app_assoc).
        replace (length pre + length g1 + length g2 + 1)
          with (length (pre ++ g1 ++ g2 ++ [q3]))
          by (rewrite !length_app; cbn [length]; lia).
        apply skipn_app_exact. }
      destruct (first_from_starts _ _ _ _ F) as [pv [t St]].
      rewrite (@ReplaceAllString_match pv t g1 g2 q3 post v St Hv).
      cbn [app]. rewrite <- !app_assoc. reflexivity.
    + intros p m Hp Hx. exact (@exec_assign_bounds k0 kw' anchored k0_not_space s p m Hp Hx).
    + reflexivity.
    + match goal with |- context [if ?b then _ else _] => destruct b eqn:Eb end;
        [apply Nat.ltb_lt in Eb|]; lia.
  - now rewrite replaceAll_stop.
Qed.
End AssignReplace.

(** The three expressions of formula.go are instances of the shape. *)
Lemma verReg_assign : verReg = assignReg true (L "version").
Proof. reflexivity. Qed.

Lemma urlReg_assign : urlReg = assignReg true (L "url").
Proof. reflexivity. Qed.

Lemma shaReg_assign : shaReg = assignReg false (L "sha256").
Proof. reflexivity. Qed.


(** ** Replacing group 2 of a match: what the other matches see *)

Lemma head_of_swap (k0 : ascii) (kw' s g1 s4 s4' : str) :
  is_space k0 = false ->
  head_of (k0 :: kw') s = Some (g1, s4) ->
  head_of (k0 :: kw') (g1 ++ s4') = Some (g1, s4').
Proof.
  intros Hk H. apply head_of_inv in H.
  destruct H as [w1 [w2 [q [-> [Hne [H1 [H2 Hq]]]]]]].
  now apply head_of_intro.
Qed.

(** Whether the first line has a quote after a quote does not depend on
    what follows that quote. *)
Lemma lastq_some_swap (x : str) (q1 : ascii) (z z' : str) :
  is_quote q1 = true ->
  lastq (x ++ q1 :: z) <> None -> lastq (x ++ q1 :: z') <> None.
Proof.
  intros Hq. induction x as [|c x IH]; cbn [app lastq].
  - intros _. rewrite (quote_is_dot q1 Hq), Hq.
    destruct (lastq z') as [[[? ?] ?]|]; discriminate.
  - destruct (is_dot c); [|auto].
    destruct (lastq (x ++ q1 :: z)) as [[[g q] tl]|] eqn:E.
    + intros _. destruct (lastq (x ++ q1 :: z')) as [[[g' q'] tl']|] eqn:E'.
      * discriminate.
      * exfalso. apply IH; [discriminate | reflexivity].
    + destruct (is_quote c); [|auto]. intros _.
      destruct (lastq (x ++ q1 :: z')) as [[[g' q'] tl']|]; discriminate.
Qed.

Lemma lastq_none_swap (y : str) (q1 : ascii) (z z' : str) :
  is_quote q1 = true ->
  lastq (y ++ q1 :: z) = None -> lastq (y ++ z') = None.
Proof.
  intros Hq. induction y as [|c y IH]; cbn [app lastq].
  - rewrite (quote_is_dot q1 Hq), Hq.
    destruct (lastq z) as [[[? ?] ?]|]; discriminate.
  - destruct (is_dot c) eqn:Ed.
    + destruct (lastq (y ++ q1 :: z)) as [[[g q] tl]|]; [discriminate|].
      destruct (is_quote c) eqn:Ec; [discriminate|]. intros _.
      now rewrite (IH eq_refl).
    + auto.
Qed.

Lemma lastq_line (old : str) (q3 : ascii) (b0 : str) :
  one_line old -> is_quote q3 = true -> lastq (old ++ q3 :: b0) <> None.
Proof.
  intros Ho Hq. induction Ho as [|c old Hc Ho IH]; cbn [app lastq].
  - rewrite (quote_is_dot q3 Hq), Hq.
    destruct (lastq b0) as [[[? ?] ?]|]; discriminate.
  - rewrite Hc. destruct (lastq (old ++ q3 :: b0)) as [[[? ?] ?]|]; [discriminate|].
    now contradiction IH.
Qed.

(** With no quote in [g2], the closing quote is the first quote. *)
Lemma lastq_first_quote (x2 : str) (q1 : ascii) (z g2 : str) (q : ascii) (post : str) :
  is_quote q1 = true -> no_quote g2 ->
  lastq (x2 ++ q1 :: z) = Some (g2, q, post) ->
  (exists y, x2 = g2 ++ q :: y /\ post = y ++ q1 :: z) \/
  (x2 = g2 /\ q = q1 /\ post = z).
Proof.
  intros Hq1 Hg H. apply lastq_spec in H. destruct H as [E [Hq _]].
  revert x2 E. induction Hg as [|c g2 Hc Hg IH]; intros x2 E.
  - destruct x2 as [|c x2]; cbn [app] in E; injection E as E1 E2; subst.
    + right. auto.
    + left. exists x2. auto.
  - destruct x2 as [|c' x2]; cbn [app] in E; injection E as E1 E2; subst.
    + congruence.
    + destruct (IH x2 E2) as [[y [-> ->]]|[-> [-> ->]]].
      * left. exists y. auto.
      * right. auto.
Qed.

(** Where group 1 ends relative to a quote of the input. *)
Lemma prefix_cases (gi : str) (qa : ascii) (s4 x : str) (q1 : ascii) (z : str) :
  no_quote gi -> is_quote q1 = true ->
  (gi ++ [qa]) ++ s4 = x ++ q1 :: z ->
  (exists x2, x = (gi ++ [qa]) ++ x2 /\ s4 = x2 ++ q1 :: z) \/
  (gi = x /\ qa = q1 /\ s4 = z).
Proof.
  intros Hg Hq. revert x. induction Hg as [|c gi Hc Hg IH]; intros x E.
  - destruct x as [|c x]; cbn [app] in E; injection E as E1 E2; subst.
    + right. auto.
    + left. exists x. auto.
  - destruct x as [|c' x]; cbn [app] in E; injection E as E1 E2; subst.
    + congruence.
    + destruct (IH x E2) as [[x2 [-> ->]]|[-> [-> ->]]].
      * left. exists x2. auto.
      * right. auto.
Qed.

Lemma space_is_not_quote_all (w : str) : all_space w -> no_quote w.
Proof.
  intros H. induction H; constructor; auto using space_not_quote.
Qed.

Lemma no_space_one_line (v : str) : no_space v -> one_line v.
Proof.
  intros H. induction H as [|c v Hc Hv IH]; constructor; auto.
  unfold is_dot, is_nl. destruct (Ascii.eqb c nl) eqn:E; [|reflexivity].
  apply Ascii.eqb_eq in E. subst. discriminate.
Qed.


Lemma first_from_here (anchored : bool) (kw : str) (pv : option ascii) (s : str) m :
  starts anchored kw pv s = Some m -> first_from anchored kw pv s = Some ([], m).
Proof. intros H. destruct s; cbn [first_from]; now rewrite H. Qed.

Lemma first_from_nil_pre (anchored : bool) (kw : str) (pv : option ascii) (s : str) m :
  first_from anchored kw pv s = Some ([], m) -> starts anchored kw pv s = Some m.
Proof.
  destruct s as [|c s]; cbn [first_from];
    destruct (starts anchored kw pv _); try discriminate; try (now intros [= ->]).
  destruct (first_from anchored kw (Some c) s) as [[? ?]|]; discriminate.
Qed.

Lemma first_from_next (anchored : bool) (kw : str) (pv : option ascii)
    (c : ascii) (s : str) :
  starts anchored kw pv (c :: s) = None ->
  first_from anchored kw pv (c :: s) =
  prepend [c] (first_from anchored kw (Some c) s).
Proof.
  intros H. cbn [first_from]. rewrite H.
  destruct (first_from anchored kw (Some c) s) as [[? ?]|]; reflexivity.
Qed.

Lemma prepend_prepend (a b : str) r : prepend a (prepend b r) = prepend (a ++ b) r.
Proof. destruct r as [[? ?]|]; cbn [prepend]; [|reflexivity]. now rewrite app_assoc. Qed.

Lemma starts_no_space (anchored : bool) (kw : str) (pv : option ascii)
    (c : ascii) (s : str) :
  is_space c = false -> starts anchored kw pv (c :: s) = None.
Proof.
  intros H. unfold starts, head_of. cbn [take_while]. rewrite H.
  now destruct (anchored && negb (bol pv)).
Qed.

Lemma starts_not_bol (kw : str) (pv : option ascii) (s : str) :
  bol pv = false -> starts true kw pv s = None.
Proof. intros H. unfold starts. now rewrite H. Qed.


Lemma pv_after_cons (pv : option ascii) (c : ascii) (w : str) :
  pv_after pv (c :: w) = pv_after (Some c) w.
Proof.
  unfold pv_after. cbn [rev]. destruct (rev w) eqn:E; reflexivity.
Qed.

(** No match starts inside a text without white space. *)
Lemma first_from_no_space (anchored : bool) (kw : str) (w t : str) :
  no_space w ->
  forall pv,
    first_from anchored kw pv (w ++ t) =
    prepend w (first_from anchored kw (pv_after pv w) t).
Proof.
  intros H. induction H as [|c w Hc Hw IH]; intros pv.
  - cbn [app pv_after rev prepend]. destruct (first_from _ _ _ _) as [[? ?]|]; reflexivity.
  - cbn [app]. rewrite first_from_next by (now apply starts_no_space).
    rewrite IH, prepend_prepend, pv_after_cons. reflexivity.
Qed.

(** No anchored match starts inside a line. *)
Lemma first_from_one_line (kw : str) (w t : str) :
  one_line w ->
  forall pv,
    bol pv = false ->
    first_from true kw pv (w ++ t) =
    prepend w (first_from true kw (pv_after pv w) t).
Proof.
  intros H. induction H as [|c w Hc Hw IH]; intros pv Hb.
  - cbn [app pv_after rev prepend]. destruct (first_from _ _ _ _) as [[? ?]|]; reflexivity.
  - cbn [app]. rewrite first_from_next by (now apply starts_not_bol).
    rewrite IH, prepend_prepend, pv_after_cons; [reflexivity|].
    cbn [bol]. unfold is_dot in Hc. now destruct (is_nl c).
Qed.


Section Edit.
Variables (k0 : ascii) (kw' : str) (anchored : bool).
Hypothesis k0_not_space : is_space k0 = false.
Hypothesis kw_no_quote : no_quote (k0 :: kw').
Let kw := k0 :: kw'.

Variables (q1 q3 : ascii) (b0 : str).
Hypothesis q1_quote : is_quote q1 = true.
Hypothesis q3_quote : is_quote q3 = true.

(** The input around the replaced text [z]. *)
Let site (z : str) : str := q1 :: z ++ q3 :: b0.

Lemma quote_not_bol (q : ascii) : is_quote q = true -> bol (Some q) = false.
Proof.
  intros H. cbn [bol]. apply quote_is_dot in H. unfold is_dot in H.
  now destruct (is_nl q).
Qed.

Lemma site_skip (z : str) (pv : option ascii) :
  skippable anchored z ->
  first_from anchored kw pv (site z) =
  prepend (q1 :: z ++ [q3]) (first_from anchored kw (Some q3) b0).
Proof.
  intros Hz. unfold site.
  rewrite first_from_next by (apply starts_no_space, quote_not_space, q1_quote).
  assert (forall pv', first_from anchored kw pv' (q3 :: b0) =
                      prepend [q3] (first_from anchored kw (Some q3) b0)) as E3.
  { intros pv'. apply first_from_next, starts_no_space, quote_not_space, q3_quote. }
  destruct Hz as [Hz|[-> Hz]].
  - rewrite first_from_no_space by exact Hz.
    rewrite E3, !prepend_prepend. reflexivity.
  - rewrite first_from_one_line by (auto using quote_not_bol).
    rewrite E3, !prepend_prepend. reflexivity.
Qed.

Lemma head_shape (s g1 s4 : str) :
  head_of kw s = Some (g1, s4) ->
  exists gi qa, g1 = gi ++ [qa] /\ no_quote gi /\ is_quote qa = true.
Proof.
  intros H. apply head_of_inv in H.
  destruct H as [w1 [w2 [q [-> [_ [H1 [H2 Hq]]]]]]].
  exists (w1 ++ kw ++ w2), q. rewrite <- !app_assoc. repeat split; auto.
  apply Forall_app. split; [now apply space_is_not_quote_all|].
  apply Forall_app. split; [exact kw_no_quote | now apply space_is_not_quote_all].
Qed.

(** A match that starts before the replaced text still starts there when
    the text is replaced by one line. *)
Lemma starts_edit_exists (x z z' : str) (pv : option ascii) :
  one_line z' ->
  starts anchored kw pv (x ++ site z) <> None ->
  starts anchored kw pv (x ++ site z') <> None.
Proof.
  intros Hz'. unfold starts.
  destruct (anchored && negb (bol pv)); [auto|].
  destruct (head_of kw (x ++ site z)) as [[g1 s4]|] eqn:Eh; [|congruence].
  pose proof (head_of_app _ _ Eh) as Es.
  destruct (head_shape _ Eh) as [gi [qa [-> [Hgi Hqa]]]].
  unfold site in Es. symmetry in Es.
  destruct (@prefix_cases _ _ _ _ _ _ Hgi q1_quote Es) as [[x2 [-> ->]]|[-> [-> ->]]].
  - rewrite <- app_assoc. unfold kw.
    rewrite (@head_of_swap _ _ _ _ _ (x2 ++ site z') k0_not_space Eh).
    unfold site.
    destruct (lastq (x2 ++ q1 :: z ++ q3 :: b0)) as [[[g q] tl]|] eqn:El; [|congruence].
    intros _.
    destruct (lastq (x2 ++ q1 :: z' ++ q3 :: b0)) as [[[g' q'] tl']|] eqn:El';
      [discriminate|].
    exfalso. apply (@lastq_some_swap x2 q1 (z ++ q3 :: b0) (z' ++ q3 :: b0) q1_quote);
      congruence.
  - intros _. unfold site, kw.
    change (x ++ q1 :: z' ++ q3 :: b0) with (x ++ [q1] ++ z' ++ q3 :: b0).
    rewrite app_assoc.
    rewrite (@head_of_swap _ _ _ _ _ (z' ++ q3 :: b0) k0_not_space Eh).
    destruct (lastq (z' ++ q3 :: b0)) as [[[g' q'] tl']|] eqn:El'; [discriminate|].
    exfalso. now apply (@lastq_line _ _ b0 Hz' q3_quote).
Qed.

(** A match before the replaced text whose group 2 has no quote is not
    changed by the replacement. *)
Lemma starts_edit_same (x old new : str) (pv : option ascii)
    (g1 g2 : str) (q : ascii) (post : str) :
  one_line old -> no_quote g2 -> g1 <> x ++ [q1] ->
  starts anchored kw pv (x ++ site old) = Some (g1, g2, q, post) ->
  exists post', starts anchored kw pv (x ++ site new) = Some (g1, g2, q, post').
Proof.
  intros Ho Hg2 Hns. unfold starts.
  destruct (anchored && negb (bol pv)); [discriminate|].
  destruct (head_of kw (x ++ site old)) as [[h s4]|] eqn:Eh; [|discriminate].
  destruct (lastq s4) as [[[g q'] tl]|] eqn:El; [|discriminate].
  intros [= -> -> -> ->].
  pose proof (head_of_app _ _ Eh) as Es.
  destruct (head_shape _ Eh) as [gi [qa [-> [Hgi Hqa]]]].
  unfold site in Es. symmetry in Es.
  destruct (@prefix_cases _ _ _ _ _ _ Hgi q1_quote Es) as [[x2 [-> ->]]|[-> [-> ->]]];
    [|congruence].
  destruct (@lastq_first_quote _ _ _ _ _ _ q1_quote Hg2 El) as [[y [-> ->]]|[-> [-> ->]]].
  - exists (y ++ site new).
    rewrite <- app_assoc. unfold kw.
    rewrite (@head_of_swap _ _ _ _ _ ((g2 ++ q :: y) ++ site new) k0_not_space Eh).
    apply lastq_spec in El. destruct El as [_ [Hq [Hl Hn]]].
    rewrite <- app_assoc. cbn [app].
    rewrite lastq_intro; auto.
    unfold site. apply (@lastq_none_swap _ _ _ _ q1_quote Hn).
  - apply lastq_spec in El. destruct El as [_ [_ [_ Hn]]].
    exfalso. now apply (@lastq_line _ _ b0 Ho q3_quote).
Qed.
(** A first match survives the replacement, possibly with other groups. *)
Lemma edit_exists (old new : str) :
  skippable anchored old -> no_space new ->
  forall a pv,
    first_from anchored kw pv (a ++ site old) <> None ->
    first_from anchored kw pv (a ++ site new) <> None.
Proof.
  intros Ho Hn. induction a as [|c a IH]; intros pv.
  - cbn [app]. rewrite !site_skip by (auto; now left).
    destruct (first_from anchored kw (Some q3) b0) as [[? ?]|]; cbn [prepend]; congruence.
  - cbn [app]. intros H.
    destruct (starts anchored kw pv (c :: a ++ site new)) as [m'|] eqn:S';
      [now rewrite (first_from_here _ _ _ _ S')|].
    destruct (starts anchored kw pv (c :: a ++ site old)) as [m|] eqn:S0.
    + exfalso.
      apply (@starts_edit_exists (c :: a) old new pv (no_space_one_line Hn));
        [cbn [app]; congruence | exact S'].
    + rewrite first_from_next in H |- * by assumption.
      specialize (IH (Some c)).
      destruct (first_from anchored kw (Some c) (a ++ site old)) as [[? ?]|];
        [|now contradiction H].
      destruct (first_from anchored kw (Some c) (a ++ site new)) as [[? ?]|];
        [discriminate|]. now contradiction IH.
Qed.

(** A first match whose group 2 has no quote, and which is not the match
    being replaced, keeps its groups. *)
Lemma edit_same (old new : str) :
  skippable anchored old -> one_line old -> no_space new ->
  forall a pv pre g1 g2 q post,
    no_quote g2 -> pre ++ g1 <> a ++ [q1] ->
    first_from anchored kw pv (a ++ site old) = Some (pre, (g1, g2, q, post)) ->
    exists pre' post',
      first_from anchored kw pv (a ++ site new) = Some (pre', (g1, g2, q, post')).
Proof.
  intros Ho Hl Hn. induction a as [|c a IH]; intros pv pre g1 g2 q post Hg Hns.
  - cbn [app]. rewrite !site_skip by (auto; now left).
    destruct (first_from anchored kw (Some q3) b0) as [[pre0 m]|]; cbn [prepend];
      [|discriminate].
    intros [= <- ->]. eauto.
  - cbn [app]. intros H.
    destruct (starts anchored kw pv (c :: a ++ site old)) as [m|] eqn:S0.
    + rewrite (first_from_here _ _ _ _ S0) in H. injection H as <- ->.
      destruct (@starts_edit_same (c :: a) old new pv g1 g2 q post Hl Hg Hns S0)
        as [post' S'].
      exists [], post'. now apply first_from_here.
    + rewrite first_from_next in H by assumption.
      destruct (first_from anchored kw (Some c) (a ++ site old))
        as [[pre0 m]|] eqn:F; [|discriminate].
      cbn [prepend app] in H. injection H as <- ->.
      assert (pre0 ++ g1 <> a ++ [q1]) as Hns' by (intros E; apply Hns; cbn [app]; congruence).
      destruct (IH (Some c) pre0 g1 g2 q post Hg Hns' F) as [pre' [post' F']].
      exists (c :: pre'), post'. rewrite first_from_next, F'; [reflexivity|].
      destruct (starts anchored kw pv (c :: a ++ site new)) eqn:S'; [|reflexivity].
      exfalso. apply (@starts_edit_exists (c :: a) new old pv Hl); cbn [app]; congruence.
Qed.
End Edit.

Lemma starts_inv (anchored : bool) (kw : str) (pv : option ascii) (s g1 g2 : str)
    (q : ascii) (post : str) :
  starts anchored kw pv s = Some (g1, g2, q, post) ->
  anchored && negb (bol pv) = false /\
  exists s4, head_of kw s = Some (g1, s4) /\ lastq s4 = Some (g2, q, post).
Proof.
  unfold starts. destruct (anchored && negb (bol pv)); [discriminate|].
  destruct (head_of kw s) as [[h s4]|]; [|discriminate].
  destruct (lastq s4) as [[[g q'] tl]|] eqn:El; [|discriminate].
  intros [= -> -> -> ->]. split; [reflexivity|]. now exists s4.
Qed.

Section EditSelf.
Variables (k0 : ascii) (kw' : str) (anchored : bool).
Hypothesis k0_not_space : is_space k0 = false.
Hypothesis kw_no_quote : no_quote (k0 :: kw').
Let kw := k0 :: kw'.

(** Replacing group 2 of the first match by one line [new] gives a text
    whose first match is at the same place, with [new] as group 2. *)
Lemma edit_self (g1 g2 : str) (q : ascii) (post new : str) :
  one_line new ->
  forall pre pv,
    first_from anchored kw pv (pre ++ g1 ++ g2 ++ q :: post) =
      Some (pre, (g1, g2, q, post)) ->
    first_from anchored kw pv (pre ++ g1 ++ new ++ q :: post) =
      Some (pre, (g1, new, q, post)).
Proof.
  intros Hn pre pv F.
  destruct (first_from_starts _ _ _ _ F) as [pv' [t St]].
  destruct (starts_inv _ _ _ _ St) as [_ [s4 [Eh El]]].
  destruct (@head_shape k0 kw' kw_no_quote _ _ _ Eh) as [gi [qa [-> [Hgi Hqa]]]].
  apply lastq_spec in El. destruct El as [_ [Hq [Hg2 Hpost]]].
  revert pv F. induction pre as [|c pre IH]; intros pv F.
  - cbn [app] in *. apply first_from_nil_pre in F.
    apply first_from_here.
    destruct (starts_inv _ _ _ _ F) as [Ha [s5 [Eh5 _]]].
    unfold starts. rewrite Ha. unfold kw.
    rewrite (@head_of_swap _ _ _ _ _ (new ++ q :: post) k0_not_space Eh5).
    now rewrite lastq_intro.
  - cbn [app] in *.
    destruct (starts anchored kw pv (c :: pre ++ (gi ++ [qa]) ++ g2 ++ q :: post))
      as [m0|] eqn:S0.
    + rewrite (first_from_here _ _ _ _ S0) in F. discriminate.
    + rewrite first_from_next in F by assumption.
      destruct (first_from anchored kw (Some c) (pre ++ (gi ++ [qa]) ++ g2 ++ q :: post))
        as [[pre0 m]|] eqn:F0; [|discriminate].
      cbn [prepend app] in F. injection F as -> ->.
      rewrite first_from_next, (IH (Some c) F0); [reflexivity|].
      destruct (starts anchored kw pv (c :: pre ++ (gi ++ [qa]) ++ new ++ q :: post))
        eqn:S'; [|reflexivity].
      exfalso.
      apply (@starts_edit_exists k0 kw' anchored k0_not_space kw_no_quote
               qa q post Hqa Hq ((c :: pre) ++ gi) new g2 pv Hg2).
      * cbn [app]. rewrite <- !app_assoc in S' |- *. cbn [app] in S' |- *.
        fold kw. congruence.
      * cbn [app]. rewrite <- !app_assoc in S0 |- *. cbn [app] in S0 |- *.
        exact S0.
Qed.
End EditSelf.

(** Two assignments whose first groups end at the same place have
    keywords with the same last byte. *)
Lemma spaces_then (u u' : str) (la lb : ascii) (A B : str) :
  all_space u -> all_space u' -> is_space la = false -> is_space lb = false ->
  u ++ la :: A = u' ++ lb :: B -> la = lb.
Proof.
  intros Hu. revert u'. induction Hu as [|c u Hc Hu IH]; intros u' Hu' Ha Hb E.
  - destruct Hu' as [|c' u' Hc' Hu']; cbn [app] in E; injection E as E1 E2; congruence.
  - destruct Hu' as [|c' u' Hc' Hu']; cbn [app] in E; injection E as E1 E2.
    + congruence.
    + eapply IH; eauto.
Qed.

Lemma heads_end_same (pre pre' w1 w1' ka kb w2 w2' : str) (la lb q q' : ascii) :
  all_space w2 -> all_space w2' -> is_space la = false -> is_space lb = false ->
  pre ++ w1 ++ (ka ++ [la]) ++ w2 ++ [q] = pre' ++ w1' ++ (kb ++ [lb]) ++ w2' ++ [q'] ->
  la = lb.
Proof.
  intros H2 H2' Ha Hb E.
  apply (f_equal (@rev ascii)) in E.
  rewrite !rev_app_distr in E. cbn [rev app] in E.
  rewrite <- !app_assoc in E. cbn [app] in E. injection E as _ E.
  eapply (@spaces_then (rev w2) (rev w2') la lb);
    [apply Forall_rev, H2 | apply Forall_rev, H2' | exact Ha | exact Hb | exact E].
Qed.

(** ** What a parsed version string is made of *)

Lemma mrun_Star_S (a : regex) (f : nat) (st : state) :
  mrun (Star a) (S f) st =
  flat_map (fun st' => if pos st <? pos st' then mrun (Star a) f st' else [])
           (mrun a (S f) st) ++ [st].
Proof. reflexivity. Qed.

Lemma mrun_consumed (P : ascii -> bool) (r : regex) :
  alphabet P r ->
  forall fuel st st',
    In st' (mrun r fuel st) ->
    exists l, rest st = l ++ rest st' /\ Forall (fun c => P c = true) l.
Proof.
  induction r as [|p|l0| | | |a IHa b IHb|a IHa b IHb|a IHa|n a IHa|];
    intros HP fuel st st'; cbn [alphabet] in HP.
  - intros [<-|[]]. exists []. auto.
  - rewrite run_Cls. destruct (rest st) as [|c t] eqn:E; [intros []|].
    destruct (p c) eqn:Ep; [|intros []]. intros [<-|[]].
    exists [c]. split; [reflexivity|]. constructor; auto.
  - rewrite run_Lit. destruct (Strings.HasPrefix (rest st) l0) eqn:E; [|intros []].
    intros [<-|[]]. apply HasPrefix_spec in E. destruct E as [t E].
    exists l0. split; [|exact HP]. now rewrite (rest_advance _ _ _ E).
  - cbn [mrun]. destruct (at_bol st); [|intros []]. intros [<-|[]]. exists []. auto.
  - cbn [mrun]. destruct (prev st); [intros []|]. intros [<-|[]]. exists []. auto.
  - cbn [mrun]. destruct (rest st) eqn:E; [|intros []]. intros [<-|[]]. exists []. auto.
  - rewrite run_Cat. intros H. apply in_flat_map in H. destruct H as [st1 [H1 H2]].
    destruct HP as [Pa Pb].
    destruct (IHa Pa _ _ _ H1) as [l1 [E1 F1]].
    destruct (IHb Pb _ _ _ H2) as [l2 [E2 F2]].
    exists (l1 ++ l2). split; [now rewrite E1, E2, app_assoc | now apply Forall_app].
  - cbn [mrun]. intros H. destruct HP as [Pa Pb].
    apply in_app_or in H. destruct H as [H|H]; eauto.
  - revert st. induction fuel as [|f IHf]; intros st.
    + intros [<-|[]]. exists []. auto.
    + rewrite mrun_Star_S. intros H. apply in_app_or in H. destruct H as [H|[<-|[]]].
      * apply in_flat_map in H. destruct H as [st1 [H1 H2]].
        destruct (pos st <? pos st1); [|destruct H2].
        destruct (IHa HP _ _ _ H1) as [l1 [E1 F1]].
        destruct (IHf _ H2) as [l2 [E2 F2]].
        exists (l1 ++ l2). split; [now rewrite E1, E2, app_assoc | now apply Forall_app].
      * exists []. auto.
  - rewrite run_Grp. intros H. apply in_map_iff in H. destruct H as [st1 [<- H1]].
    cbn [rest set_cap]. eauto.
  - intros H. apply in_Any in H. destruct H as [c [r [E _]]].
    exists (c :: r). split; [exact E|]. apply Forall_forall. auto.
Qed.

Lemma mrun_ends_eot (r : regex) :
  ends_eot r -> forall fuel st st', In st' (mrun r fuel st) -> rest st' = [].
Proof.
  induction r as [|p|l0| | | |a IHa b IHb|a IHa b IHb|a IHa|n a IHa|];
    cbn [ends_eot]; try contradiction; intros H fuel st st'.
  - cbn [mrun]. destruct (rest st) eqn:E; [|intros []]. now intros [<-|[]].
  - rewrite run_Cat. intros Hin. apply in_flat_map in Hin.
    destruct Hin as [st1 [_ H2]]. eauto.
Qed.

Lemma mrun_begins_bot (r : regex) :
  begins_bot r -> forall fuel st st', In st' (mrun r fuel st) -> prev st = None.
Proof.
  induction r as [|p|l0| | | |a IHa b IHb|a IHa b IHb|a IHa|n a IHa|];
    cbn [begins_bot]; try contradiction; intros H fuel st st'.
  - cbn [mrun]. destruct (prev st); [intros []|reflexivity].
  - rewrite run_Cat. intros Hin. apply in_flat_map in Hin.
    destruct Hin as [st1 [H1 _]]. eauto.
Qed.

(** An expression anchored at both ends matches the whole input only. *)
Lemma exec_whole (P : ascii -> bool) (r : regex) (s : str) (m : mtch) :
  alphabet P r -> begins_bot r -> ends_eot r ->
  exec r s 0 = Some m -> Forall (fun c => P c = true) s.
Proof.
  intros HP Hb He. unfold exec. cbn [prev_at skipn].
  set (fuel := S (length s)). clearbody fuel.
  assert (forall t c p, scan r fuel (Some c) p t = None) as Hnone.
  { induction t as [|c' t IH]; intros c p; cbn [scan].
    - destruct (mrun r fuel _) as [|st' l] eqn:E; [reflexivity|].
      assert (In st' (mrun r fuel (mkState (Some c) p [] []))) as Hin
        by (rewrite E; now left).
      apply (@mrun_begins_bot r Hb) in Hin. discriminate.
    - destruct (mrun r fuel _) as [|st' l] eqn:E; [apply IH|].
      assert (In st' (mrun r fuel (mkState (Some c) p (c' :: t) []))) as Hin
        by (rewrite E; now left).
      apply (@mrun_begins_bot r Hb) in Hin. discriminate. }
  assert (forall st', In st' (mrun r fuel (mkState None 0 s [])) ->
                      Forall (fun c => P c = true) s) as Hin.
  { intros st' H. pose proof (@mrun_ends_eot r He _ _ _ H) as E.
    destruct (@mrun_consumed P r HP _ _ _ H) as [l [El Fl]].
    cbn [rest] in El. rewrite E, app_nil_r in El. now subst. }
  destruct s as [|c t]; cbn [scan];
    destruct (mrun r fuel _) as [|st' l] eqn:E.
  - discriminate.
  - intros _. apply (Hin st'). now left.
  - now rewrite Hnone.
  - intros _. apply (Hin st'). now left.
Qed.


Lemma semver_alphabet : alphabet semver_char Semver.versionRegex.
Proof.
  assert (forall c, is_digit c = true -> semver_char c = true) as D
    by (intros c H; unfold semver_char; now rewrite H).
  assert (forall c, Semver.is_idch c = true -> semver_char c = true) as I.
  { intros c H. unfold semver_char, Semver.is_idch in *.
    destruct (is_digit c), (is_alpha c); cbn in *; try reflexivity.
    rewrite H. now rewrite orb_true_r. }
  assert (forall s, forallb semver_char s = true ->
                    Forall (fun c => semver_char c = true) s) as F
    by (intros s H; apply Forall_forall; now apply forallb_forall).
  cbn [alphabet Semver.versionRegex Semver.digits Semver.ident Plus Opt].
  repeat split; auto.
Qed.

Lemma semver_char_plain (c : ascii) :
  semver_char c = true ->
  is_space c = false /\ is_quote c = false /\ Ascii.eqb c "$" = false.
Proof.
  destruct c as [[] [] [] [] [] [] [] []]; try discriminate; repeat split.
Qed.

Lemma NewVersion_chars (v : str) (ver : Semver.Version) :
  Semver.NewVersion v = Some ver -> Forall (fun c => semver_char c = true) v.
Proof.
  unfold Semver.NewVersion, FindStringSubmatch.
  destruct (exec Semver.versionRegex v 0) as [m|] eqn:E; [|discriminate].
  intros _. apply (@exec_whole semver_char _ _ _ semver_alphabet) in E; auto.
  - cbn. exact I.
  - cbn. exact I.
Qed.

(** ** The sample formulas load as expected *)

Example newFormula_literal :
  newFormula (Sample.world Sample.literal_rb (L "v1.3.0") Sample.assets_130 200 true)
             (L "r.rb") = Ok Sample.fo_literal.
Proof. vm_compute. reflexivity. Qed.

Example newFormula_template (order : bool) :
  newFormula (Sample.world Sample.template_rb (L "v1.3.0") Sample.assets_130 200 order)
             (L "r.rb") = Ok Sample.fo_template.
Proof. destruct order; vm_compute; reflexivity. Qed.

(** ** update *)

(** C8. Whenever [update] returns an error, the formula is the one it was
    given: content, version, url and sha256 (and every other field) are
    unchanged, and [updated] is false. *)
Theorem update_atomic_on_error (w : World) (fo fo' : formula) (b : bool) (e : error) :
  update w fo = (fo', b, Some e) -> fo' = fo /\ b = false.
Proof.
  unfold update.
  destruct (Semver.NewVersion (version fo)) as [ov|]; [|intros [= <- <- _]; auto].
  destruct (getLatestRelease w (owner fo) (repo fo)) as [rele|];
    [|intros [= <- <- _]; auto].
  destruct (Semver.NewVersion (tag_name rele)) as [nv|]; [|intros [= <- <- _]; auto].
  destruct (negb (Semver.LessThan ov nv)); [discriminate|].
  destruct (if isURLTmpl fo then _ else _) as [u|e'] in |- *;
    [|intros [= <- <- _]; auto].
  destruct (getSHA256FromURL w u) as [h|e'']; [discriminate|].
  intros [= <- <- _]; auto.
Qed.

Lemma update_atomic_on_error_witness :
  fst (fst (update
    (Sample.world Sample.literal_rb (L "nightly") Sample.assets_130 200 true)
    Sample.fo_literal)) = Sample.fo_literal /\
  snd (fst (update
    (Sample.world Sample.literal_rb (L "nightly") Sample.assets_130 200 true)
    Sample.fo_literal)) = false.
Proof.
  apply (@update_atomic_on_error
           (Sample.world Sample.literal_rb (L "nightly") Sample.assets_130 200 true)
           Sample.fo_literal _ _ ErrInvalidNewVersion).
  vm_compute. reflexivity.
Defined.

(** C2. When the current version and the tag of the latest release both
    parse and the current version is not less than the tag's, [update]
    returns [updated = false] without an error and leaves the formula,
    its content included, as it was. *)
Theorem update_not_newer (w : World) (fo : formula) (rele : release)
    (ov nv : Semver.Version) :
  Semver.NewVersion (version fo) = Some ov ->
  getLatestRelease w (owner fo) (repo fo) = Some rele ->
  Semver.NewVersion (tag_name rele) = Some nv ->
  Semver.LessThan ov nv = false ->
  update w fo = (fo, false, None).
Proof.
  intros Ho Hr Hn Hlt. unfold update. rewrite Ho, Hr, Hn, Hlt. reflexivity.
Qed.

Lemma update_not_newer_witness :
  update (Sample.world Sample.literal_rb (L "v1.1.9") Sample.assets_130 200 true)
         Sample.fo_literal = (Sample.fo_literal, false, None).
Proof.
  eapply update_not_newer.
  - vm_compute. reflexivity.
  - vm_compute. reflexivity.
  - vm_compute. reflexivity.
  - vm_compute. reflexivity.
Defined.

Example update_same_version :
  update (Sample.world Sample.literal_rb (L "v1.2.0") Sample.assets_130 200 true)
         Sample.fo_literal = (Sample.fo_literal, false, None).
Proof. vm_compute. reflexivity. Qed.

Lemma asset_matches_wanted (u : str) (a : asset) :
  asset_matches (Path.Ext u) a = true <-> wanted_asset u a.
Proof.
  unfold asset_matches, wanted_asset, occurs_in; cbv zeta.
  rewrite !andb_true_iff, !Contains_spec, HasSuffix_spec. tauto.
Qed.

Lemma selectAsset_first (ext : str) (l1 l2 : list asset) (a : asset) :
  (forall x, In x l1 -> asset_matches ext x = false) ->
  asset_matches ext a = true ->
  selectAsset ext (l1 ++ a :: l2) = Ok (browser_download_url a).
Proof.
  intros Hl Ha. induction l1 as [|x l1 IH]; simpl.
  - now rewrite Ha.
  - rewrite (Hl x (or_introl eq_refl)). apply IH.
    intros y Hy. apply Hl. now right.
Qed.

Lemma selectAsset_none (ext : str) (l : list asset) :
  (forall x, In x l -> asset_matches ext x = false) ->
  selectAsset ext l = Err ErrNoAssets.
Proof.
  intros Hl. induction l as [|x l IH]; simpl; [reflexivity|].
  rewrite (Hl x (or_introl eq_refl)). apply IH.
  intros y Hy. apply Hl. now right.
Qed.

Lemma not_wanted_false (u : str) (a : asset) :
  ~ wanted_asset u a -> asset_matches (Path.Ext u) a = false.
Proof.
  intros H. destruct (asset_matches (Path.Ext u) a) eqn:E; [|reflexivity].
  apply asset_matches_wanted in E. contradiction.
Qed.

(** C5. For a formula whose URL is not a template and whose latest release
    is newer: the URL [update] goes on with is the download URL of the
    first asset, in the order of the release's list, that is wanted (file
    name with "darwin", with "amd64" and with the extension of the
    formula's URL); it is the URL whose body is hashed and the URL stored
    in the formula.  When no asset is wanted, [update] returns an error. *)
Theorem update_selects_first_wanted_asset (w : World) (fo : formula)
    (rele : release) (ov nv : Semver.Version) :
  isURLTmpl fo = false ->
  Semver.NewVersion (version fo) = Some ov ->
  getLatestRelease w (owner fo) (repo fo) = Some rele ->
  Semver.NewVersion (tag_name rele) = Some nv ->
  Semver.LessThan ov nv = true ->
  (forall l1 a l2,
      assets rele = l1 ++ a :: l2 ->
      (forall x, In x l1 -> ~ wanted_asset (url fo) x) ->
      wanted_asset (url fo) a ->
      update w fo =
        match getSHA256FromURL w (browser_download_url a) with
        | Ok sha =>
            (updateContent (with_fields fo (verStr nv) (browser_download_url a) sha),
             true, None)
        | Err e => (fo, false, Some (ErrUpload e))
        end /\
      forall fo', update w fo = (fo', true, None) ->
                  url fo' = browser_download_url a) /\
  ((forall x, In x (assets rele) -> ~ wanted_asset (url fo) x) ->
   update w fo = (fo, false, Some ErrNoAssets)).
Proof.
  intros Ht Ho Hr Hn Hlt. unfold update. rewrite Ho, Hr, Hn, Hlt, Ht. cbn [negb].
  split.
  - intros l1 a l2 Hl Hbefore Ha.
    rewrite Hl, selectAsset_first.
    + destruct (getSHA256FromURL w (browser_download_url a)); split;
        try reflexivity; intros fo'; [intros [= <-]; reflexivity | discriminate].
    + intros x Hx. apply not_wanted_false. now apply Hbefore.
    + now apply asset_matches_wanted.
  - intros Hnone. rewrite selectAsset_none; [reflexivity|].
    intros x Hx. apply not_wanted_false. now apply Hnone.
Qed.

Lemma update_selects_first_wanted_asset_witness :
  url (fst (fst (update
         (Sample.world Sample.literal_rb (L "v1.3.0") Sample.assets_130 404 true)
         Sample.fo_literal))) =
  L "https://github.com/o/r/releases/download/v1.3.0/r_darwin_amd64.zip".
Proof.
  refine (proj2 (proj1 (@update_selects_first_wanted_asset
             (Sample.world Sample.literal_rb (L "v1.3.0") Sample.assets_130 404 true)
             Sample.fo_literal
             (mkRelease (L "v1.3.0") Sample.assets_130) _ _
             eq_refl _ eq_refl _ _)
           (firstn 2 Sample.assets_130) (nth 2 Sample.assets_130 (mkAsset []))
           (skipn 3 Sample.assets_130) eq_refl _ _) _ _).
  - vm_compute. reflexivity.
  - vm_compute. reflexivity.
  - vm_compute. reflexivity.
  - intros x Hx Hw. apply asset_matches_wanted in Hw.
    destruct Hx as [<-|[<-|[]]]; vm_compute in Hw; discriminate.
  - apply asset_matches_wanted. vm_compute. reflexivity.
  - vm_compute. reflexivity.
Defined.

(** ** getSHA256FromURL *)

Lemma hex_digit_lower (n : Z) :
  (0 <= n < 16)%Z -> is_lower_hex (hex_digit n) = true.
Proof.
  intros H.
  assert (forallb (fun k => is_lower_hex (hex_digit (Z.of_nat k))) (seq 0 16) = true)
    as E by (vm_compute; reflexivity).
  rewrite forallb_forall in E. specialize (E (Z.to_nat n)).
  rewrite Z2Nat.id in E by lia. apply E, in_seq. lia.
Qed.

Lemma hex_byte_lower (b : Z) :
  (0 <= b < 256)%Z -> Forall (fun c => is_lower_hex c = true) (hex_byte b).
Proof.
  intros H. unfold hex_byte.
  repeat constructor; apply hex_digit_lower.
  - split; [apply Z.div_pos; lia | apply Z.div_lt_upper_bound; lia].
  - apply Z.mod_pos_bound. lia.
Qed.

Lemma be_bytes_range (n : nat) (x : Z) :
  Forall (fun b => 0 <= b < 256)%Z (SHA256.be_bytes n x).
Proof.
  unfold SHA256.be_bytes. apply Forall_forall. intros b Hb.
  apply in_map_iff in Hb. destruct Hb as [i [<- _]].
  apply Z.mod_pos_bound. lia.
Qed.

Lemma Forall_flat_map (A B : Type) (P : A -> Prop) (Q : B -> Prop)
    (f : A -> list B) (l : list A) :
  (forall x, P x -> Forall Q (f x)) -> Forall P l -> Forall Q (flat_map f l).
Proof.
  intros Hf Hl. induction Hl; simpl; [constructor|].
  apply Forall_app. split; auto.
Qed.

Lemma sha256_hex_lower (msg : str) :
  Forall (fun c => is_lower_hex c = true) (sha256_hex msg).
Proof.
  unfold sha256_hex, SHA256.Sum256.
  apply Forall_flat_map with (P := fun b => (0 <= b < 256)%Z).
  - apply hex_byte_lower.
  - apply Forall_flat_map with (P := fun _ => True).
    + intros x _. apply be_bytes_range.
    + apply Forall_forall. trivial.
Qed.

Lemma length_flat_map_const (A B : Type) (f : A -> list B) (k : nat) (l : list A) :
  (forall x, length (f x) = k) -> length (flat_map f l) = k * length l.
Proof.
  intros Hf. induction l as [|x l IH]; simpl; [lia|].
  rewrite length_app, Hf, IH. lia.
Qed.

Lemma round_length (s : list Z) (kw : Z * Z) :
  length (SHA256.round s kw) = length s.
Proof.
  unfold SHA256.round.
  do 9 (destruct s as [|? s]; try reflexivity).
Qed.

Lemma compress_length (h block : list Z) :
  length (SHA256.compress h block) = length h.
Proof.
  unfold SHA256.compress. rewrite length_map, length_combine.
  assert (forall l s, length (fold_left SHA256.round l s) = length s) as E.
  { induction l as [|x l IH]; intros s; simpl; [reflexivity|].
    now rewrite IH, round_length. }
  rewrite E. apply Nat.min_id.
Qed.

Lemma blocks_length (fuel : nat) (h ws : list Z) :
  length (SHA256.blocks fuel h ws) = length h.
Proof.
  revert h ws. induction fuel as [|f IH]; intros h ws; simpl; [reflexivity|].
  destruct ws; [reflexivity|]. now rewrite IH, compress_length.
Qed.

Lemma sha256_hex_length (msg : str) : length (sha256_hex msg) = 64.
Proof.
  unfold sha256_hex, SHA256.Sum256.
  rewrite (@length_flat_map_const _ _ hex_byte 2) by reflexivity.
  rewrite (@length_flat_map_const _ _ (SHA256.be_bytes 4) 4) by reflexivity.
  rewrite blocks_length. reflexivity.
Qed.

(** C6. When the GET of [u] brings a response whose body is read to its
    end, [getSHA256FromURL] returns the SHA-256 digest of the whole body
    as 64 lowercase hexadecimal digits, whatever the status code; for the
    body "abc" it is the digest of the standard's test vector. *)
Theorem getSHA256FromURL_digest (w : World) (u body : str) (status : Z) :
  httpGet w u = Response status body false ->
  getSHA256FromURL w u = Ok (sha256_hex body) /\
  length (sha256_hex body) = 64 /\
  Forall (fun c => is_lower_hex c = true) (sha256_hex body) /\
  (body = L "abc" -> getSHA256FromURL w u = Ok Sample.abc_digest).
Proof.
  intros H. unfold getSHA256FromURL. rewrite H.
  repeat split.
  - apply sha256_hex_length.
  - apply sha256_hex_lower.
  - intros ->. vm_compute. reflexivity.
Qed.

Lemma getSHA256FromURL_digest_witness :
  getSHA256FromURL
    (Sample.world Sample.literal_rb (L "v1.3.0") Sample.assets_130 404 true)
    (L "https://github.com/o/r/x.zip") = Ok Sample.abc_digest.
Proof.
  refine (proj2 (proj2 (proj2
    (@getSHA256FromURL_digest _ (L "https://github.com/o/r/x.zip") (L "abc") 404 _))) _);
    reflexivity.
Defined.

Example sha256_empty :
  sha256_hex [] =
  L "e3b0c44298fc1c149afbf4c8996fb92427ae41e4649b934ca495991b7852b855".
Proof. vm_compute. reflexivity. Qed.

Example sha256_two_blocks :
  sha256_hex (L "abcdbcdecdefdefgefghfghighijhijkijkljklmklmnlmnomnopnopq") =
  L "248d6a61d20638b8e5c026930c3e6039a33ce45964ff2167f6ecedd419db06c1".
Proof. vm_compute. reflexivity. Qed.

(** ** The creator's names *)

Lemma ReplaceAll_hyphen (s : str) :
  Strings.ReplaceAll s (L "-") [] = filter not_hyphen s.
Proof.
  unfold Strings.ReplaceAll. induction s as [|c s IH]; [reflexivity|].
  cbn [Strings.ReplaceAll_go filter]. unfold not_hyphen at 1.
  cbn [list_ascii_of_string Strings.HasPrefix length Nat.sub].
  rewrite andb_true_r, (Ascii.eqb_sym "-" c).
  destruct (Ascii.eqb c "-"); cbn [negb app]; [exact IH | f_equal; exact IH].
Qed.

Lemma filter_not_hyphen_free (s : str) : ~ In "-"%char (filter not_hyphen s).
Proof.
  intros H. apply filter_In in H. destruct H as [_ H]. discriminate H.
Qed.

(** C7. The capitalized name of the creator is the repository name
    title-cased with its hyphens removed, whatever the tables [U] of
    package unicode say outside ASCII: whenever [run] produces a formula,
    it is rendered from data whose capitalized name is that of the
    repository part of the slug; the name has no hyphen, and for
    "my-tool" it is "MyTool". *)
Theorem capitalized_name_derivation :
  (forall U sl nf tag,
      parseSlug U sl = Ok (nf, tag) ->
      CapitalizedName nf = filter not_hyphen (Title U (Repo nf)) /\
      ~ In "-"%char (CapitalizedName nf)) /\
  (forall w cr out text,
      run w cr = Ok (out, text) ->
      exists d, text = render d /\
                CapitalizedName d =
                filter not_hyphen (Title (unicode w) (Repo d))) /\
  (forall U, capitalized U (L "my-tool") = L "MyTool") /\
  (forall U, exists nf, parseSlug U (L "songmu/my-tool") = Ok (nf, []) /\
                        CapitalizedName nf = L "MyTool") /\
  (forall U, exists nf,
      parseSlug U (L "songmu/my-tool@v2.0.0") = Ok (nf, L "v2.0.0") /\
      CapitalizedName nf = L "MyTool").
Proof.
  assert (forall U sl nf tag,
             parseSlug U sl = Ok (nf, tag) ->
             CapitalizedName nf = filter not_hyphen (Title U (Repo nf))) as P.
  { intros U sl nf tag. unfold parseSlug.
    destruct (Strings.Split sl "/") as [|ow [|rv [|? ?]]]; try discriminate.
    intros [= <- _]. cbn [CapitalizedName Repo]. apply ReplaceAll_hyphen. }
  split; [|split; [|split; [|split]]].
  - intros U sl nf tag H. split; [now apply P with (1 := H)|].
    rewrite (P _ _ _ _ H). apply filter_not_hyphen_free.
  - intros w cr out text. unfold run.
    destruct (parseSlug (unicode w) (slug cr)) as [[nf tag]|] eqn:E; [|discriminate].
    apply P in E.
    destruct (match tag with [] => _ | _ :: _ => _ end) as [rele|]; [|discriminate].
    destruct (Semver.NewVersion (tag_name rele)) as [ver|]; [|discriminate].
    destruct (selectAssetCreate (assets rele)) as [u|]; [|discriminate].
    destruct (getSHA256FromURL w u) as [sha|]; [|discriminate].
    destruct (overwrite cr || negb (str_eqb (outFile cr) [])).
    + destruct (createFile w _); [|discriminate].
      intros [= _ <-]. eexists. split; [reflexivity|]. exact E.
    + intros [= _ <-]. eexists. split; [reflexivity|]. exact E.
  - intros U. vm_compute. reflexivity.
  - intros U. eexists. split; vm_compute; reflexivity.
  - intros U. eexists. split; vm_compute; reflexivity.
Qed.

Lemma capitalized_name_derivation_witness :
  parseSlug Sample.tables (L "songmu/my-tool") =
    Ok (mkFormulaData (L "my-tool") (L "MyTool") [] (L "songmu") (L "my-tool") [] [], []) /\
  ~ In "-"%char (L "MyTool").
Proof.
  split; [vm_compute; reflexivity|].
  exact (proj2 (proj1 capitalized_name_derivation Sample.tables
                  (L "songmu/my-tool") _ [] eq_refl)).
Defined.

(** Outside ASCII the tables of package unicode decide.  For the name
    that begins with U+00E9 (the bytes 195 and 169), a letter, the first
    code point goes to its title case and the rest stays; a byte that
    begins no well-formed encoding is written as U+FFFD. *)
Example Title_two_byte_letter (U : Unicode) :
  IsLetter U ["195"; "169"]%char = true ->
  Title U (["195"; "169"]%char ++ L "mile") =
  ToTitle U ["195"; "169"]%char ++ L "mile".
Proof.
  intros H. cbv -[IsLetter IsDigit IsSpace ToTitle]. rewrite H. reflexivity.
Qed.

Example Title_invalid_byte (U : Unicode) :
  Title U (["255"]%char ++ L "-a") = ToTitle U RuneError ++ L "-A".
Proof.
  cbv -[IsLetter IsDigit IsSpace ToTitle].
  repeat match goal with
         | |- context [if ?b then _ else _] => destruct b
         end; reflexivity.
Qed.

(** ** Loading a formula *)

Lemma newFormula_inv (w : World) (f : str) (fo : formula) :
  newFormula w f = Ok fo ->
  exists b,
    readFile w f = Some b /\ content fo = b /\ fname fo = f /\
    exec verReg b 0 <> None /\ exec shaReg b 0 <> None /\
    exec urlReg b 0 <> None /\
    version fo = nth 2 (FindStringSubmatch verReg b) [] /\
    sha256 fo = nth 2 (FindStringSubmatch shaReg b) [] /\
    urlTmpl fo = nth 2 (FindStringSubmatch urlReg b) [] /\
    isURLTmpl fo = Strings.Contains (urlTmpl fo) (L "#{version}") /\
    (if isURLTmpl fo
     then expandStr (urlTmpl fo) (info_map w (name fo) (version fo)) = Ok (url fo)
     else url fo = urlTmpl fo).
Proof.
  unfold newFormula. destruct (readFile w f) as [b|]; [|discriminate].
  intros H. exists b.
  assert (forall r, (length (FindStringSubmatch r b) <? 4) = false ->
                    exec r b 0 <> None) as Hex.
  { intros r Hr E. unfold FindStringSubmatch in Hr. rewrite E in Hr. discriminate. }
  destruct (length (FindStringSubmatch verReg b) <? 4) eqn:Ev; [discriminate|].
  destruct (length (FindStringSubmatch shaReg b) <? 4) eqn:Es; [discriminate|].
  destruct (length (FindStringSubmatch urlReg b) <? 4) eqn:Eu; [discriminate|].
  destruct (Strings.Contains _ _) eqn:Et.
  - destruct (expandStr _ _) as [u|] eqn:Ee; [|discriminate].
    destruct (length (FindStringSubmatch parseURLReg u) <? 3); [discriminate|].
    injection H as <-.
    cbn [content fname version sha256 urlTmpl isURLTmpl url name].
    rewrite Et. repeat split; auto.
  - destruct (length (FindStringSubmatch parseURLReg _) <? 3); [discriminate|].
    injection H as <-.
    cbn [content fname version sha256 urlTmpl isURLTmpl url name].
    rewrite Et. repeat split; auto.
Qed.

Lemma update_success_inv (w : World) (fo fo' : formula) :
  update w fo = (fo', true, None) ->
  exists rele ov nv u sha,
    Semver.NewVersion (version fo) = Some ov /\
    getLatestRelease w (owner fo) (repo fo) = Some rele /\
    Semver.NewVersion (tag_name rele) = Some nv /\
    Semver.LessThan ov nv = true /\
    (if isURLTmpl fo
     then expandStr (urlTmpl fo) (info_map w (name fo) (verStr nv)) = Ok u
     else selectAsset (Path.Ext (url fo)) (assets rele) = Ok u) /\
    getSHA256FromURL w u = Ok sha /\
    fo' = updateContent (with_fields fo (verStr nv) u sha).
Proof.
  unfold update.
  destruct (Semver.NewVersion (version fo)) as [ov|] eqn:Eo; [|discriminate].
  destruct (getLatestRelease w (owner fo) (repo fo)) as [rele|] eqn:Er; [|discriminate].
  destruct (Semver.NewVersion (tag_name rele)) as [nv|] eqn:En; [|discriminate].
  destruct (Semver.LessThan ov nv) eqn:El; [|discriminate]. cbn [negb].
  destruct (isURLTmpl fo).
  - destruct (expandStr _ _) as [u|] eqn:Ee; [|discriminate].
    destruct (getSHA256FromURL w u) as [sha|] eqn:Eh; [|discriminate].
    intros [= <-]. exists rele, ov, nv, u, sha. repeat split; auto.
  - destruct (selectAsset _ _) as [u|] eqn:Ee; [|discriminate].
    destruct (getSHA256FromURL w u) as [sha|] eqn:Eh; [|discriminate].
    intros [= <-]. exists rele, ov, nv, u, sha. repeat split; auto.
Qed.



Lemma countMatches_zero (r : regex) (s : str) :
  countMatches r s = 0 -> exec r s 0 = None.
Proof.
  unfold countMatches. rewrite Nat.add_comm. cbn [Nat.add countFrom Nat.ltb Nat.leb].
  destruct (exec r s 0) as [m|]; [|reflexivity].
  rewrite andb_false_r. discriminate.
Qed.

(** C3, the claim as written fails: a file with two version assignments
    loads. *)
Lemma newFormula_two_versions_loads :
  countMatches verReg Sample.two_versions_rb <> 1 /\
  exists fo,
    newFormula (Sample.world Sample.two_versions_rb (L "v1.3.0") Sample.assets_130 200 true)
               (L "r.rb") = Ok fo.
Proof.
  split; [vm_compute; discriminate|].
  eexists. vm_compute. reflexivity.
Qed.

(** C3, amended. Loading a formula fails unless the content has at least
    one version assignment, at least one sha256 assignment and at least
    one URL assignment: when the file cannot be read or one of the three
    patterns has no match in it, [newFormula] returns an error. *)
Theorem newFormula_needs_assignments (w : World) (f : str) :
  (forall b,
      readFile w f = Some b ->
      countMatches verReg b = 0 \/ countMatches shaReg b = 0 \/
      countMatches urlReg b = 0 ->
      exists e, newFormula w f = Err e) /\
  (forall fo,
      newFormula w f = Ok fo ->
      1 <= countMatches verReg (content fo) /\
      1 <= countMatches shaReg (content fo) /\
      1 <= countMatches urlReg (content fo)).
Proof.
  assert (forall fo r, newFormula w f = Ok fo ->
            In r [verReg; shaReg; urlReg] -> 1 <= countMatches r (content fo)) as P.
  { intros fo r H Hr. apply newFormula_inv in H.
    destruct H as [b [_ [-> [_ [Hv [Hs [Hu _]]]]]]].
    destruct (countMatches r b) eqn:E; [|lia].
    apply countMatches_zero in E.
    destruct Hr as [<-|[<-|[<-|[]]]]; contradiction. }
  split.
  - intros b Hb Hz.
    destruct (newFormula w f) as [fo|e] eqn:E; [|now exists e].
    pose proof (newFormula_inv _ _ E) as [b' [Hb' [Hc _]]].
    rewrite Hb in Hb'. injection Hb' as <-.
    pose proof (P fo verReg eq_refl (or_introl eq_refl)).
    pose proof (P fo shaReg eq_refl (or_intror (or_introl eq_refl))).
    pose proof (P fo urlReg eq_refl (or_intror (or_intror (or_introl eq_refl)))).
    rewrite Hc in *. lia.
  - intros fo H. repeat split; apply P; simpl; auto.
Qed.

Lemma newFormula_needs_assignments_witness :
  exists e,
    newFormula (Sample.world (L "class R < Formula
  url 'https://github.com/o/r/releases/download/v1.2.0/r_darwin_amd64.zip'
  sha256 'abc'
end
") (L "v1.3.0") Sample.assets_130 200 true) (L "r.rb") = Err e.
Proof.
  eapply (proj1 (newFormula_needs_assignments _ _)).
  - reflexivity.
  - left. vm_compute. reflexivity.
Defined.

(** ** Patching the content: the three replacements in a row *)

Lemma plain_char_inv (c : ascii) :
  plain_char c = true ->
  is_space c = false /\ is_quote c = false /\ Ascii.eqb c "$" = false.
Proof.
  unfold plain_char. rewrite negb_true_iff, !orb_false_iff. tauto.
Qed.

Lemma plain_no_space (v : str) : plain v -> no_space v.
Proof. apply Forall_impl. intros c H. now apply plain_char_inv in H. Qed.

Lemma plain_no_quote (v : str) : plain v -> no_quote v.
Proof. apply Forall_impl. intros c H. now apply plain_char_inv in H. Qed.

Lemma plain_no_dollar (v : str) : plain v -> no_dollar v.
Proof. apply Forall_impl. intros c H. now apply plain_char_inv in H. Qed.

Lemma plain_one_line (v : str) : plain v -> one_line v.
Proof. intros H. now apply no_space_one_line, plain_no_space. Qed.

Lemma plain_app (a b : str) : plain a -> plain b -> plain (a ++ b).
Proof. intros Ha Hb. apply Forall_app. now split. Qed.

Lemma uint_chars_plain (d : Decimal.uint) : plain (uint_chars d).
Proof. induction d; cbn [uint_chars]; constructor; auto. Qed.

Lemma itoa_plain (z : Z) : plain (itoa z).
Proof.
  unfold itoa. destruct (Z.to_int z); [|constructor; [reflexivity|]];
    apply uint_chars_plain.
Qed.

Lemma verStr_plain (v : Semver.Version) : plain (verStr v).
Proof.
  unfold verStr. repeat apply plain_app; try apply itoa_plain;
    repeat constructor.
Qed.

Lemma lower_hex_plain (c : ascii) : is_lower_hex c = true -> plain_char c = true.
Proof.
  destruct c as [[] [] [] [] [] [] [] []]; try discriminate; reflexivity.
Qed.

Lemma sha256_hex_plain (msg : str) : plain (sha256_hex msg).
Proof.
  eapply Forall_impl; [|apply sha256_hex_lower]. apply lower_hex_plain.
Qed.

Lemma NewVersion_plain (v : str) (ver : Semver.Version) :
  Semver.NewVersion v = Some ver -> plain v.
Proof.
  intros H. apply NewVersion_chars in H. eapply Forall_impl; [|exact H].
  intros c Hc. apply semver_char_plain in Hc. unfold plain_char.
  destruct Hc as [-> [-> ->]]. reflexivity.
Qed.

Lemma good_version : good_kw (L "version") "n".
Proof.
  repeat split.
  - exists "v"%char, (L "ersion"). now split.
  - repeat constructor.
  - now exists (L "versio").
Qed.

Lemma good_url : good_kw (L "url") "l".
Proof.
  repeat split.
  - exists "u"%char, (L "rl"). now split.
  - repeat constructor.
  - now exists (L "ur").
Qed.

Lemma good_sha256 : good_kw (L "sha256") "6".
Proof.
  repeat split.
  - exists "s"%char, (L "ha256"). now split.
  - repeat constructor.
  - now exists (L "sha25").
Qed.

(** The shape of group 1 of a match of a good keyword. *)
Lemma first_from_shape (anchored : bool) (kw : str) (la : ascii)
    (pv : option ascii) (c pre g1 g2 : str) (q : ascii) (post : str) :
  good_kw kw la ->
  first_from anchored kw pv c = Some (pre, (g1, g2, q, post)) ->
  c = pre ++ g1 ++ g2 ++ q :: post /\
  one_line g2 /\ is_quote q = true /\ lastq post = None /\
  exists w1 ka w2 q1,
    g1 = w1 ++ (ka ++ [la]) ++ w2 ++ [q1] /\ all_space w2 /\
    no_quote (w1 ++ (ka ++ [la]) ++ w2) /\ is_quote q1 = true.
Proof.
  intros [[k0 [kw' [-> Hk0]]] [Hnq [[ka Hka] Hla]]] F.
  split; [now apply first_from_app in F|].
  destruct (first_from_starts _ _ _ _ F) as [pv' [t St]].
  destruct (starts_inv _ _ _ _ St) as [_ [s4 [Eh El]]].
  apply lastq_spec in El. destruct El as [_ [Hq [Hg2 Hpost]]].
  repeat split; auto.
  apply head_of_inv in Eh. destruct Eh as [w1 [w2 [q1 [-> [_ [H1 [H2 Hq1]]]]]]].
  exists w1, ka, w2, q1. rewrite <- Hka. repeat split; auto.
  apply Forall_app. split; [now apply space_is_not_quote_all|].
  apply Forall_app. split; [exact Hnq | now apply space_is_not_quote_all].
Qed.

Section Two.
Variables (anchored anchored' : bool) (kw kwb : str) (la lb : ascii).
Hypothesis Hkw : good_kw kw la.
Hypothesis Hkwb : good_kw kwb lb.

Variables (c pre' g1' old : str) (q' : ascii) (post' new : str).
(** The match of the other expression, whose group 2 is replaced. *)
Hypothesis site : first_from anchored' kwb None c = Some (pre', (g1', old, q', post')).
Hypothesis Hskip : skippable anchored old.
Hypothesis Hnew : no_space new.

Lemma other_exists :
  first_from anchored kw None c <> None ->
  first_from anchored kw None (pre' ++ g1' ++ new ++ q' :: post') <> None.
Proof.
  destruct (@first_from_shape anchored' kwb lb None c pre' g1' old q' post' Hkwb site)
    as [Ec [Hl [Hq [_ [w1 [kb [w2 [q1 [-> [_ [_ Hq1]]]]]]]]]]].
  destruct Hkw as [[k0 [kw' [-> Hk0]]] [Hnq _]].
  assert (forall z, pre' ++ (w1 ++ (kb ++ [lb]) ++ w2 ++ [q1]) ++ z ++ q' :: post' =
                    (pre' ++ w1 ++ (kb ++ [lb]) ++ w2) ++ q1 :: z ++ q' :: post') as A
    by (intros; rewrite <- !app_assoc; reflexivity).
  rewrite Ec, !A.
  apply (@edit_exists k0 kw' anchored Hk0 Hnq q1 q' post' Hq1 Hq old new Hskip Hnew).
Qed.

Lemma other_same (pre g1 g2 : str) (q : ascii) (post : str) :
  la <> lb -> no_quote g2 ->
  first_from anchored kw None c = Some (pre, (g1, g2, q, post)) ->
  exists pre2 post2,
    first_from anchored kw None (pre' ++ g1' ++ new ++ q' :: post') =
    Some (pre2, (g1, g2, q, post2)).
Proof.
  intros Hne Hg2 F.
  destruct (@first_from_shape anchored' kwb lb None c pre' g1' old q' post' Hkwb site)
    as [Ec [Hl [Hq [_ [w1 [kb [w2 [q1 [-> [Hw2 [_ Hq1]]]]]]]]]]].
  destruct (@first_from_shape anchored kw la None c pre g1 g2 q post Hkw F)
    as [Ec' [_ [_ [_ [v1 [ka [v2 [p1 [E1 [Hv2 [_ _]]]]]]]]]]].
  pose proof Hkw as [[k0 [kw' [Ekw Hk0]]] [Hnq [_ Hla]]].
  pose proof Hkwb as [_ [_ [_ Hlb]]].
  subst kw.
  assert (forall z, pre' ++ (w1 ++ (kb ++ [lb]) ++ w2 ++ [q1]) ++ z ++ q' :: post' =
                    (pre' ++ w1 ++ (kb ++ [lb]) ++ w2) ++ q1 :: z ++ q' :: post') as A
    by (intros; rewrite <- !app_assoc; reflexivity).
  revert F. rewrite Ec, !A. intros F.
  eapply (@edit_same k0 kw' anchored Hk0 Hnq q1 q' post' Hq1 Hq old new Hskip Hl Hnew);
    [exact Hg2| |exact F].
  intros E. apply Hne. subst g1.
  apply (@heads_end_same pre pre' v1 w1 ka kb v2 w2 la lb p1 q1 Hv2 Hw2 Hla Hlb).
  rewrite <- !app_assoc. rewrite <- !app_assoc in E. exact E.
Qed.
End Two.


Lemma replaceOne_ver (c v : str) :
  no_dollar v ->
  replaceOne verReg c (repl_template v) =
  match Fv c with
  | Some (pre, (g1, _, q3, post)) => pre ++ g1 ++ v ++ q3 :: post
  | None => c
  end.
Proof. exact (@replaceOne_assign "v" (L "ersion") true eq_refl c v). Qed.

Lemma replaceOne_sha (c v : str) :
  no_dollar v ->
  replaceOne shaReg c (repl_template v) =
  match Fs c with
  | Some (pre, (g1, _, q3, post)) => pre ++ g1 ++ v ++ q3 :: post
  | None => c
  end.
Proof. exact (@replaceOne_assign "s" (L "ha256") false eq_refl c v). Qed.

Lemma replaceOne_url (c v : str) :
  no_dollar v ->
  replaceOne urlReg c (repl_template v) =
  match Fu c with
  | Some (pre, (g1, _, q3, post)) => pre ++ g1 ++ v ++ q3 :: post
  | None => c
  end.
Proof. exact (@replaceOne_assign "u" (L "rl") true eq_refl c v). Qed.

Lemma Find_ver (c : str) :
  FindStringSubmatch verReg c =
  match Fv c with
  | Some (_, (g1, g2, q3, _)) => [g1 ++ g2 ++ [q3]; g1; g2; [q3]]
  | None => []
  end.
Proof. exact (@FindStringSubmatch_assign "v" (L "ersion") true eq_refl c). Qed.

Lemma Find_sha (c : str) :
  FindStringSubmatch shaReg c =
  match Fs c with
  | Some (_, (g1, g2, q3, _)) => [g1 ++ g2 ++ [q3]; g1; g2; [q3]]
  | None => []
  end.
Proof. exact (@FindStringSubmatch_assign "s" (L "ha256") false eq_refl c). Qed.

Lemma Find_url (c : str) :
  FindStringSubmatch urlReg c =
  match Fu c with
  | Some (_, (g1, g2, q3, _)) => [g1 ++ g2 ++ [q3]; g1; g2; [q3]]
  | None => []
  end.
Proof. exact (@FindStringSubmatch_assign "u" (L "rl") true eq_refl c). Qed.

Lemma self_edit (anchored : bool) (kw : str) (la : ascii) (c pre g1 g2 : str)
    (q : ascii) (post new : str) :
  good_kw kw la -> one_line new ->
  first_from anchored kw None c = Some (pre, (g1, g2, q, post)) ->
  first_from anchored kw None (pre ++ g1 ++ new ++ q :: post) =
  Some (pre, (g1, new, q, post)).
Proof.
  intros [[k0 [kw' [-> Hk0]]] [Hnq _]] Hn F.
  pose proof (first_from_app _ _ _ _ F) as Ec. rewrite Ec in F.
  exact (@edit_self k0 kw' anchored Hk0 Hnq g1 g2 q post new Hn pre None F).
Qed.

(** The content after the version and the checksum are patched. *)
Lemma patch_version_sha (c0 nv hex : str) (pv g1v oldv : str) (qv : ascii) (postv : str) :
  plain nv -> plain hex ->
  Fv c0 = Some (pv, (g1v, oldv, qv, postv)) -> no_space oldv ->
  Fs c0 <> None -> Fu c0 <> None ->
  let c1 := replaceOne verReg c0 (repl_template nv) in
  let c2 := replaceOne shaReg c1 (repl_template hex) in
  c1 = pv ++ g1v ++ nv ++ qv :: postv /\
  (exists ps g1s olds qs posts,
      Fs c1 = Some (ps, (g1s, olds, qs, posts)) /\
      c2 = ps ++ g1s ++ hex ++ qs :: posts /\
      Fs c2 = Some (ps, (g1s, hex, qs, posts))) /\
  (exists pv2 postv2, Fv c2 = Some (pv2, (g1v, nv, qv, postv2))) /\
  Fu c2 <> None /\
  (forall pu g1u g2u qu postu,
      Fu c0 = Some (pu, (g1u, g2u, qu, postu)) -> no_quote g2u ->
      exists pu2 postu2, Fu c2 = Some (pu2, (g1u, g2u, qu, postu2))).
Proof.
  intros Hnv Hhex F0 Hold Hs0 Hu0 c1 c2.
  assert (c1 = pv ++ g1v ++ nv ++ qv :: postv) as E1.
  { unfold c1. rewrite replaceOne_ver by (now apply plain_no_dollar).
    now rewrite F0. }
  assert (Fv c1 = Some (pv, (g1v, nv, qv, postv))) as Fv1.
  { rewrite E1.
    apply (@self_edit true _ _ c0 pv g1v oldv qv postv nv good_version
             (plain_one_line Hnv) F0). }
  assert (Fs c1 <> None) as Hs1.
  { rewrite E1.
    apply (@other_exists false true _ _ _ _ good_sha256 good_version
             c0 pv g1v oldv qv postv nv F0 (or_introl Hold) (plain_no_space Hnv) Hs0). }
  assert (Fu c1 <> None) as Hu1.
  { rewrite E1.
    apply (@other_exists true true _ _ _ _ good_url good_version
             c0 pv g1v oldv qv postv nv F0 (or_introl Hold) (plain_no_space Hnv) Hu0). }
  destruct (Fs c1) as [[ps [[[g1s olds] qs] posts]]|] eqn:Fs1; [|congruence].
  assert (one_line olds) as Holds
    by (apply (@first_from_shape _ _ _ _ _ _ _ _ _ _ good_sha256 Fs1)).
  assert (c2 = ps ++ g1s ++ hex ++ qs :: posts) as E2.
  { unfold c2. rewrite replaceOne_sha by (now apply plain_no_dollar).
    fold c1. now rewrite Fs1. }
  split; [exact E1|]. split; [|split; [|split]].
  - exists ps, g1s, olds, qs, posts. repeat split; auto.
    rewrite E2.
    apply (@self_edit false _ _ c1 ps g1s olds qs posts hex good_sha256
             (plain_one_line Hhex) Fs1).
  - rewrite E2.
    apply (@other_same true false _ _ "n" "6" good_version good_sha256
             c1 ps g1s olds qs posts hex Fs1 (or_intror (conj eq_refl Holds))
             (plain_no_space Hhex) pv g1v nv qv postv);
      [discriminate | now apply plain_no_quote | exact Fv1].
  - rewrite E2.
    apply (@other_exists true false _ _ _ _ good_url good_sha256
             c1 ps g1s olds qs posts hex Fs1 (or_intror (conj eq_refl Holds))
             (plain_no_space Hhex) Hu1).
  - intros pu g1u g2u qu postu Fu0 Hg2u.
    destruct (@other_same true true _ _ "l" "n" good_url good_version
                c0 pv g1v oldv qv postv nv F0 (or_introl Hold)
                (plain_no_space Hnv) pu g1u g2u qu postu)
      as [pu1 [postu1 Fu1]]; [discriminate | exact Hg2u | exact Fu0|].
    rewrite <- E1 in Fu1. rewrite E2.
    apply (@other_same true false _ _ "l" "6" good_url good_sha256
             c1 ps g1s olds qs posts hex Fs1 (or_intror (conj eq_refl Holds))
             (plain_no_space Hhex) pu1 g1u g2u qu postu1);
      [discriminate | exact Hg2u | exact Fu1].
Qed.

(** The content after the URL assignment is patched too. *)
Lemma patch_url (c2 u : str) (pu g1u oldu : str) (qu : ascii) (postu : str) :
  no_space u -> no_dollar u ->
  Fu c2 = Some (pu, (g1u, oldu, qu, postu)) ->
  let c3 := replaceOne urlReg c2 (repl_template u) in
  c3 = pu ++ g1u ++ u ++ qu :: postu /\
  Fu c3 = Some (pu, (g1u, u, qu, postu)) /\
  (forall pv g1v nv qv postv,
      Fv c2 = Some (pv, (g1v, nv, qv, postv)) -> no_quote nv ->
      exists pv3 postv3, Fv c3 = Some (pv3, (g1v, nv, qv, postv3))) /\
  (forall ps g1s hex qs posts,
      Fs c2 = Some (ps, (g1s, hex, qs, posts)) -> no_quote hex -> no_space oldu ->
      exists ps3 posts3, Fs c3 = Some (ps3, (g1s, hex, qs, posts3))).
Proof.
  intros Hu Hd F2 c3.
  assert (c3 = pu ++ g1u ++ u ++ qu :: postu) as E3.
  { unfold c3. rewrite replaceOne_url by exact Hd. now rewrite F2. }
  assert (one_line oldu) as Hold
    by (apply (@first_from_shape _ _ _ _ _ _ _ _ _ _ good_url F2)).
  split; [exact E3|]. split; [|split].
  - rewrite E3.
    apply (@self_edit true _ _ c2 pu g1u oldu qu postu u good_url
             (no_space_one_line Hu) F2).
  - intros pv g1v nv qv postv Fv2 Hnv. rewrite E3.
    apply (@other_same true true _ _ "n" "l" good_version good_url
             c2 pu g1u oldu qu postu u F2 (or_intror (conj eq_refl Hold)) Hu
             pv g1v nv qv postv); [discriminate | exact Hnv | exact Fv2].
  - intros ps g1s hex qs posts Fs2 Hhex Holdu. rewrite E3.
    apply (@other_same false true _ _ "6" "l" good_sha256 good_url
             c2 pu g1u oldu qu postu u F2 (or_introl Holdu) Hu
             ps g1s hex qs posts); [discriminate | exact Hhex | exact Fs2].
Qed.


Lemma replaces_first_intro (k0 : ascii) (kw' : str) (anchored : bool)
    (c pre g1 g2 : str) (q : ascii) (post v : str) :
  is_space k0 = false ->
  first_from anchored (k0 :: kw') None c = Some (pre, (g1, g2, q, post)) ->
  replaces_first (assignReg anchored (k0 :: kw')) g2 v c
                 (pre ++ g1 ++ v ++ q :: post).
Proof.
  intros Hk F. pose proof (first_from_app _ _ _ _ F) as Ec.
  pose proof (@exec_assign k0 kw' anchored Hk c 0) as E.
  cbn [prev_at skipn] in E. rewrite F in E. cbn [Nat.add] in E.
  eexists _, (length pre + length g1), (length pre + length g1 + length g2).
  split; [exact E|]. cbn [m_caps].
  split; [apply lookup_caps_of|].
  assert (length c = length pre + length g1 + length g2 + S (length post)) as Hlen
    by (rewrite Ec, !length_app; cbn [length]; lia).
  split; [lia|]. split; [lia|]. split.
  - rewrite Ec, (app_assoc pre g1), <- (length_app pre g1). symmetry.
    apply substr_mid.
  - assert (firstn (length pre + length g1) c = pre ++ g1) as ->.
    { rewrite Ec, (app_assoc pre g1), <- (length_app pre g1).
      rewrite firstn_app, firstn_all, Nat.sub_diag. cbn [firstn]. apply app_nil_r. }
    assert (skipn (length pre + length g1 + length g2) c = q :: post) as ->.
    { rewrite Ec.
      replace (pre ++ g1 ++ g2 ++ q :: post) with ((pre ++ g1 ++ g2) ++ q :: post)
        by (now rewrite <- !app_assoc).
      replace (length pre + length g1 + length g2) with (length (pre ++ g1 ++ g2))
        by (rewrite !length_app; lia).
      apply skipn_app_exact. }
    now rewrite <- app_assoc.
Qed.

(** ** The rewritten content *)

Lemma exec_Fv (c : str) : exec verReg c 0 <> None -> Fv c <> None.
Proof.
  intros H E. apply H. change verReg with (assignReg true ("v"%char :: L "ersion")).
  rewrite (@exec_assign "v" (L "ersion") true eq_refl c 0).
  cbn [prev_at skipn].
  change (first_from true ("v"%char :: L "ersion") None c) with (Fv c).
  now rewrite E.
Qed.

Lemma exec_Fs (c : str) : exec shaReg c 0 <> None -> Fs c <> None.
Proof.
  intros H E. apply H. change shaReg with (assignReg false ("s"%char :: L "ha256")).
  rewrite (@exec_assign "s" (L "ha256") false eq_refl c 0).
  cbn [prev_at skipn].
  change (first_from false ("s"%char :: L "ha256") None c) with (Fs c).
  now rewrite E.
Qed.

Lemma exec_Fu (c : str) : exec urlReg c 0 <> None -> Fu c <> None.
Proof.
  intros H E. apply H. change urlReg with (assignReg true ("u"%char :: L "rl")).
  rewrite (@exec_assign "u" (L "rl") true eq_refl c 0).
  cbn [prev_at skipn].
  change (first_from true ("u"%char :: L "rl") None c) with (Fu c).
  now rewrite E.
Qed.

(** What [newFormula] found in the content it accepted. *)
Lemma loaded_matches (w : World) (f : str) (fo : formula) :
  newFormula w f = Ok fo ->
  (exists pv g1v qv postv,
      Fv (content fo) = Some (pv, (g1v, version fo, qv, postv))) /\
  Fs (content fo) <> None /\
  (exists pu g1u qu postu,
      Fu (content fo) = Some (pu, (g1u, urlTmpl fo, qu, postu))) /\
  (isURLTmpl fo = false -> url fo = urlTmpl fo).
Proof.
  intros H. apply newFormula_inv in H.
  destruct H as [b [_ [Hc [_ [Hv [Hs [Hu [Ev [_ [Eu [_ Hl]]]]]]]]]]].
  rewrite Hc. apply exec_Fv in Hv. apply exec_Fs in Hs. apply exec_Fu in Hu.
  rewrite Find_ver in Ev. rewrite Find_url in Eu.
  repeat split.
  - destruct (Fv b) as [[pv [[[g1v g2v] qv] postv]]|]; [|congruence].
    cbn [nth] in Ev. rewrite Ev. eauto.
  - exact Hs.
  - destruct (Fu b) as [[pu [[[g1u g2u] qu] postu]]|]; [|congruence].
    cbn [nth] in Eu. rewrite Eu. eauto.
  - intros E. now rewrite E in Hl.
Qed.

Lemma getSHA256FromURL_plain (w : World) (u sha : str) :
  getSHA256FromURL w u = Ok sha -> plain sha.
Proof.
  unfold getSHA256FromURL. destruct (httpGet w u) as [| |st body rf]; try discriminate.
  destruct rf; [discriminate|]. intros [= <-]. apply sha256_hex_plain.
Qed.

(** A successful [update], told in terms of the content. *)
Lemma update_content (w : World) (fo fo' : formula) :
  update w fo = (fo', true, None) ->
  plain (version fo) /\ plain (version fo') /\ plain (sha256 fo') /\
  isURLTmpl fo' = isURLTmpl fo /\
  content fo' =
    patchContent (content fo) (version fo') (sha256 fo') (url fo') (isURLTmpl fo) /\
  exists rele nv,
    getLatestRelease w (owner fo) (repo fo) = Some rele /\
    Semver.NewVersion (tag_name rele) = Some nv /\ version fo' = verStr nv.
Proof.
  intros H. apply update_success_inv in H.
  destruct H as [rele [ov [nv [u [sha [Ho [Hr [Hn [_ [_ [Hsha ->]]]]]]]]]]].
  unfold updateContent, with_fields.
  cbn [content fname version sha256 urlTmpl isURLTmpl url name].
  repeat split.
  - exact (NewVersion_plain _ Ho).
  - apply verStr_plain.
  - exact (getSHA256FromURL_plain _ _ Hsha).
  - exists rele, nv. auto.
Qed.

(** C1, the claim as written fails: for the sample formula at version
    1.2.0, whose URL is literal, and a latest release v1.3.0, the rewritten
    content has "1.3.0" twice, in the version and in the URL. *)
Lemma update_writes_new_version_twice :
  exists fo',
    newFormula (Sample.world Sample.literal_rb (L "v1.3.0") Sample.assets_130 200 true)
               (L "r.rb") = Ok Sample.fo_literal /\
    update (Sample.world Sample.literal_rb (L "v1.3.0") Sample.assets_130 200 true)
           Sample.fo_literal = (fo', true, None) /\
    content fo' = L "class R < Formula
  version '1.3.0'
  url 'https://github.com/o/r/releases/download/v1.3.0/r_darwin_amd64.zip'
  sha256 'ba7816bf8f01cfea414140de5dae2223b00361a396177a9cb410ff61f20015ad'
end
" /\
    Strings.Occurrences (content fo') (L "1.3.0") = 2.
Proof.
  eexists. split; [exact newFormula_literal|].
  split; [vm_compute; reflexivity|]. split; vm_compute; reflexivity.
Qed.

(** C1, amended. A successful [update] of a loaded formula rewrites the
    content in steps, each of which replaces the bytes of group 2 of the
    leftmost-first match of one assignment in the text so far and leaves
    every other byte as it is: first the version (the old version gives
    way to the new one), then the checksum and, when the URL is not a
    template and the new URL has no [$], the URL.  With version 1.2.0 and
    a latest release v1.3.0, the version written is 1.3.0. *)
Theorem update_patches_first_matches (w : World) (f : str) (fo : formula)
    (w' : World) (fo' : formula) :
  newFormula w f = Ok fo ->
  update w' fo = (fo', true, None) ->
  (exists c1 c2 oldsha,
      replaces_first verReg (version fo) (version fo') (content fo) c1 /\
      replaces_first shaReg oldsha (sha256 fo') c1 c2 /\
      (isURLTmpl fo = true -> content fo' = c2) /\
      (isURLTmpl fo = false -> no_dollar (url fo') ->
       exists oldurl, replaces_first urlReg oldurl (url fo') c2 (content fo'))) /\
  (forall rele,
      getLatestRelease w' (owner fo) (repo fo) = Some rele ->
      tag_name rele = L "v1.3.0" -> version fo' = L "1.3.0").
Proof.
  intros Hload Hup.
  destruct (loaded_matches _ _ Hload) as [[pv [g1v [qv [postv F0]]]] [Hs0 [[pu [g1u [qu [postu Fu0]]]] _]]].
  destruct (update_content _ _ Hup) as [Hold [Hnv [Hsha [_ [Ec [rele [nv [Hr [Hn Ev]]]]]]]]].
  assert (Fu (content fo) <> None) as Hu0 by congruence.
  destruct (@patch_version_sha _ _ _ _ _ _ _ _ Hnv Hsha F0 (plain_no_space Hold) Hs0 Hu0)
    as [E1 [[ps [g1s [olds [qs [posts [Fs1 [E2 _]]]]]]] [_ [Hu2 _]]]].
  split.
  - exists (replaceOne verReg (content fo) (repl_template (version fo'))),
           (replaceOne shaReg
              (replaceOne verReg (content fo) (repl_template (version fo')))
              (repl_template (sha256 fo'))), olds.
    split; [|split; [|split]].
    + rewrite E1. exact (@replaces_first_intro "v" (L "ersion") true _ _ _ _ _ _
                           (version fo') eq_refl F0).
    + rewrite E2. exact (@replaces_first_intro "s" (L "ha256") false _ _ _ _ _ _
                           (sha256 fo') eq_refl Fs1).
    + intros Et. rewrite Ec. unfold patchContent. now rewrite Et.
    + intros Et Hd. rewrite Ec. unfold patchContent. rewrite Et. cbn [negb].
      destruct (Fu _) as [[pu2 [[[g1u2 oldu] qu2] postu2]]|] eqn:Fu2 in Hu2;
        [|congruence].
      exists oldu. rewrite (replaceOne_url _ Hd), Fu2.
      exact (@replaces_first_intro "u" (L "rl") true _ _ _ _ _ _
               (url fo') eq_refl Fu2).
  - intros rele' Hr' Ht. rewrite Hr in Hr'. injection Hr' as <-.
    rewrite Ht in Hn. rewrite Ev.
    assert (Semver.NewVersion (L "v1.3.0") =
            Some (Semver.mkVersion 1 3 0 [] [] (L "v1.3.0"))) as E
      by (vm_compute; reflexivity).
    rewrite E in Hn. injection Hn as <-. reflexivity.
Qed.

Lemma update_patches_first_matches_witness :
  version (fst (fst (update
    (Sample.world Sample.literal_rb (L "v1.3.0") Sample.assets_130 200 true)
    Sample.fo_literal))) = L "1.3.0".
Proof.
  refine (proj2 (@update_patches_first_matches _ _ _
                   (Sample.world Sample.literal_rb (L "v1.3.0") Sample.assets_130 200 true)
                   _ newFormula_literal _) _ eq_refl eq_refl).
  vm_compute. reflexivity.
Defined.


(** C9. The round trip fails on the code.  The sample file whose URL line
    ends with a comment quoting an old checksum loads; [update] to
    release v1.3.0 returns true with the version "1.3.0" and the checksum
    of the new download; yet the rewritten content keeps the old
    assignment sha256 'def' beside the new URL.  The version pattern,
    which begins with [^], finds the new version there; the checksum
    pattern, the only one of the three without [^], had matched inside
    the URL line, where the rewriting of the URL then erased the new
    checksum: it now yields "def", and so does loading the rewritten
    file. *)
Lemma reparse_sha_fails :
  exists fo fo',
    newFormula (Sample.world Sample.commented_rb (L "v1.3.0") Sample.assets_plain 200 true)
               (L "r.rb") = Ok fo /\
    update (Sample.world Sample.commented_rb (L "v1.3.0") Sample.assets_plain 200 true) fo =
      (fo', true, None) /\
    sha256 fo' = Sample.abc_digest /\
    nth 2 (FindStringSubmatch shaReg (content fo')) [] = L "def" /\
    nth 2 (FindStringSubmatch shaReg (content fo')) [] <> sha256 fo' /\
    version fo' = L "1.3.0" /\
    nth 2 (FindStringSubmatch verReg (content fo')) [] = version fo' /\
    nth 2 (FindStringSubmatch urlReg (content fo')) [] = url fo' /\
    content fo' = L "class R < Formula
  version '1.3.0'
  url 'https://github.com/o/r/releases/download/v1.3.0/r_darwin_amd64'
  sha256 'def'
end
" /\
    exists fo2,
      newFormula (Sample.world (content fo') (L "v1.3.0") Sample.assets_plain 200 true)
                 (L "r.rb") = Ok fo2 /\
      version fo2 = version fo' /\ url fo2 = url fo' /\ sha256 fo2 = L "def".
Proof.
  eexists. eexists. split; [vm_compute; reflexivity|].
  split; [vm_compute; reflexivity|].
  split; [vm_compute; reflexivity|].
  split; [vm_compute; reflexivity|].
  split; [vm_compute; discriminate|].
  split; [vm_compute; reflexivity|].
  split; [vm_compute; reflexivity|].
  split; [vm_compute; reflexivity|].
  split; [vm_compute; reflexivity|].
  eexists. split; [vm_compute; reflexivity|].
  repeat split; vm_compute; reflexivity.
Qed.

(** X15. After a successful [update] of a loaded formula, the version
    pattern applied to the rewritten content yields the new version and
    the checksum pattern the new checksum, provided that, when the URL is
    not a template, the URL of the formula has no white space and no
    quote and the new URL has no white space and no [$]; the URL pattern
    then yields the new URL.  With a URL template there is no condition. *)
Theorem reparse_after_update (w : World) (f : str) (fo : formula)
    (w' : World) (fo' : formula) :
  newFormula w f = Ok fo ->
  update w' fo = (fo', true, None) ->
  (isURLTmpl fo = false ->
   no_space (url fo) /\ no_quote (url fo) /\
   no_space (url fo') /\ no_dollar (url fo')) ->
  length (FindStringSubmatch verReg (content fo')) = 4 /\
  nth 2 (FindStringSubmatch verReg (content fo')) [] = version fo' /\
  length (FindStringSubmatch shaReg (content fo')) = 4 /\
  nth 2 (FindStringSubmatch shaReg (content fo')) [] = sha256 fo' /\
  (isURLTmpl fo = false ->
   nth 2 (FindStringSubmatch urlReg (content fo')) [] = url fo').
Proof.
  intros Hload Hup Hurl.
  destruct (loaded_matches _ _ Hload)
    as [[pv [g1v [qv [postv F0]]]] [Hs0 [[pu [g1u [qu [postu Fu0]]]] Hlit]]].
  destruct (update_content _ _ Hup) as [Hold [Hnv [Hsha [_ [Ec _]]]]].
  assert (Fu (content fo) <> None) as Hu0 by congruence.
  destruct (@patch_version_sha _ _ _ _ _ _ _ _ Hnv Hsha F0 (plain_no_space Hold) Hs0 Hu0)
    as [_ [[ps [g1s [olds [qs [posts [_ [_ Fs2]]]]]]] [[pv2 [postv2 Fv2]] [_ Hu2]]]].
  rewrite Find_ver, Find_sha, Find_url, Ec. unfold patchContent.
  destruct (isURLTmpl fo) eqn:Et; cbn [negb].
  - rewrite Fv2, Fs2. repeat split. discriminate.
  - destruct (Hurl eq_refl) as [U1 [U2 [U3 U4]]].
    rewrite (Hlit eq_refl) in U1, U2.
    destruct (Hu2 _ _ _ _ _ Fu0 U2) as [pu2 [postu2 Fu2]].
    destruct (@patch_url _ _ _ _ _ _ _ U3 U4 Fu2) as [_ [Fu3 [Hv3 Hs3]]].
    destruct (Hv3 _ _ _ _ _ Fv2 (plain_no_quote Hnv)) as [pv3 [postv3 Fv3]].
    destruct (Hs3 _ _ _ _ _ Fs2 (plain_no_quote Hsha) U1) as [ps3 [posts3 Fs3]].
    rewrite Fv3, Fs3, Fu3. repeat split.
Qed.

Lemma reparse_after_update_witness :
  nth 2 (FindStringSubmatch shaReg (content (fst (fst (update
    (Sample.world Sample.literal_rb (L "v1.3.0") Sample.assets_130 200 true)
    Sample.fo_literal))))) [] = Sample.abc_digest.
Proof.
  refine (eq_trans (proj1 (proj2 (proj2 (proj2
    (@reparse_after_update _ _ _
       (Sample.world Sample.literal_rb (L "v1.3.0") Sample.assets_130 200 true)
       _ newFormula_literal _ _))))) _).
  - vm_compute. reflexivity.
  - intros _. repeat split.
    + apply plain_no_space. apply Forall_forall, forallb_forall. vm_compute. reflexivity.
    + apply plain_no_quote. apply Forall_forall, forallb_forall. vm_compute. reflexivity.
    + apply plain_no_space. apply Forall_forall, forallb_forall. vm_compute. reflexivity.
    + apply plain_no_dollar. apply Forall_forall, forallb_forall. vm_compute. reflexivity.
  - vm_compute. reflexivity.
Defined.

(** ** Literal expressions and [expandStr] *)

Lemma scan_Lit (p : str) (fuel : nat) :
  forall t pv k,
    scan (Lit p) fuel pv k t =
    match index_of p t with
    | Some i => Some (mkMatch (k + i) (k + i + length p) [])
    | None => None
    end.
Proof.
  induction t as [|c t IH]; intros pv k; cbn [scan index_of]; rewrite run_Lit;
    cbn [rest]; destruct (Strings.HasPrefix _ p) eqn:E.
  - apply HasPrefix_spec in E. destruct E as [t' E].
    rewrite (@pos_advance p t' (mkState pv k [] []) E),
      (@caps_advance p t' (mkState pv k [] []) E).
    cbn [pos caps]. now rewrite Nat.add_0_r.
  - reflexivity.
  - apply HasPrefix_spec in E. destruct E as [t' E].
    rewrite (@pos_advance p t' (mkState pv k (c :: t) []) E),
      (@caps_advance p t' (mkState pv k (c :: t) []) E).
    cbn [pos caps]. now rewrite Nat.add_0_r.
  - rewrite IH. destruct (index_of p t) as [i|]; cbn [option_map]; [|reflexivity].
    now rewrite <- !Nat.add_succ_comm.
Qed.

Lemma index_of_bound (p t : str) (i : nat) :
  index_of p t = Some i -> i + length p <= length t.
Proof.
  revert i. induction t as [|c t IH]; intros i; cbn [index_of];
    destruct (Strings.HasPrefix _ p) eqn:E.
  - intros [= <-]. apply HasPrefix_spec in E. destruct E as [t' E].
    rewrite E, length_app. lia.
  - discriminate.
  - intros [= <-]. apply HasPrefix_spec in E. destruct E as [t' E].
    rewrite E, length_app. lia.
  - destruct (index_of p t) as [j|]; [|discriminate]. intros [= <-].
    specialize (IH j eq_refl). cbn [length]. lia.
Qed.

Lemma ReplaceAll_go_skip (old new : str) :
  forall n t,
    Strings.ReplaceAll_go old new n t = Strings.ReplaceAll_go old new 0 (skipn n t).
Proof.
  induction n as [|n IH]; intros t; [reflexivity|].
  destruct t as [|c t]; [reflexivity|]. cbn [Strings.ReplaceAll_go skipn]. apply IH.
Qed.

Lemma ReplaceAll_go_none (old new t : str) :
  index_of old t = None -> Strings.ReplaceAll_go old new 0 t = t.
Proof.
  induction t as [|c t IH]; [reflexivity|]. cbn [index_of Strings.ReplaceAll_go].
  destruct (Strings.HasPrefix (c :: t) old); [discriminate|].
  destruct (index_of old t); [discriminate|]. intros _. now rewrite IH.
Qed.

Lemma ReplaceAll_go_index (old new : str) :
  old <> [] ->
  forall t i,
    index_of old t = Some i ->
    Strings.ReplaceAll_go old new 0 t =
    firstn i t ++ new ++ Strings.ReplaceAll_go old new 0 (skipn (i + length old) t).
Proof.
  intros Hne. induction t as [|c t IH]; intros i; cbn [index_of].
  - destruct old; [congruence|]. discriminate.
  - cbn [Strings.ReplaceAll_go].
    destruct (Strings.HasPrefix (c :: t) old) eqn:E.
    + intros [= <-]. cbn [firstn app Nat.add]. f_equal.
      rewrite ReplaceAll_go_skip. destruct old as [|o old']; [congruence|].
      cbn [length Nat.sub skipn]. now rewrite Nat.sub_0_r.
    + destruct (index_of old t) as [j|]; [|discriminate]. intros [= <-].
      cbn [firstn app Nat.add skipn]. f_equal. now apply IH.
Qed.

Lemma expand_no_dollar (src : str) (m : mtch) (n : nat) (v : str) :
  no_dollar v -> expand src m n 0 v = v.
Proof.
  intros H. rewrite <- (app_nil_r v) at 1.
  rewrite expand_plain by exact H. cbn [expand]. apply app_nil_r.
Qed.

(** Replacing a literal by a text without [$] is [strings.Replace]. *)
Lemma ReplaceAllString_Lit (p s v : str) :
  p <> [] -> no_dollar v ->
  ReplaceAllString (Lit p) s v = Strings.ReplaceAll s p v.
Proof.
  intros Hp Hv. unfold ReplaceAllString, Strings.ReplaceAll.
  assert (forall fuel k buf,
             k <= length s -> length s - k < fuel ->
             replaceAll (Lit p) s
               (fun (_ : unit) m => (tt, expand s m (numSubexp (Lit p)) 0 v))
               fuel k k tt buf =
             buf ++ Strings.ReplaceAll_go p v 0 (skipn k s)) as Loop.
  { induction fuel as [|f IH]; intros k buf Hk Hf; [lia|].
    assert (exec (Lit p) s k =
            match index_of p (skipn k s) with
            | Some i => Some (mkMatch (k + i) (k + i + length p) [])
            | None => None
            end) as Ex by apply scan_Lit.
    destruct (index_of p (skipn k s)) as [i|] eqn:Ei.
    - erewrite replaceAll_step; [|exact Hk|exact Ex]. cbv zeta.
      cbn [m_start m_end fst snd].
      assert (0 < length p) by (destruct p; [congruence|cbn; lia]).
      pose proof (index_of_bound _ _ Ei) as Hb. rewrite length_skipn in Hb.
      replace (k <? k + i + length p) with true by (symmetry; apply Nat.ltb_lt; lia).
      replace (k + i + length p <? k + 1) with false
        by (symmetry; apply Nat.ltb_ge; lia).
      cbn [orb fst snd]. rewrite IH by lia.
      rewrite expand_no_dollar by exact Hv.
      rewrite (ReplaceAll_go_index v Hp _ Ei), skipn_skipn.
      rewrite <- !app_assoc. f_equal. unfold substr.
      replace (k + i - k) with i by lia.
      replace (i + length p + k) with (k + i + length p) by lia. reflexivity.
    - rewrite replaceAll_stop by exact Ex.
      now rewrite ReplaceAll_go_none. }
  rewrite Loop by lia. reflexivity.
Qed.

Lemma index_of_absent (p t : str) :
  Strings.Contains t p = false -> index_of p t = None.
Proof.
  induction t as [|c t IH]; cbn [Strings.Contains index_of];
    intros H; apply orb_false_iff in H; destruct H as [H1 H2]; rewrite H1.
  - reflexivity.
  - now rewrite IH.
Qed.

Lemma ReplaceAll_absent (s old new : str) :
  Strings.Contains s old = false -> Strings.ReplaceAll s old new = s.
Proof. intros H. apply ReplaceAll_go_none. now apply index_of_absent. Qed.

Lemma Contains_app_l (a t pat : str) :
  Strings.Contains t pat = true -> Strings.Contains (a ++ t) pat = true.
Proof.
  intros H. apply Contains_spec in H. destruct H as [x [y ->]].
  apply Contains_spec. exists (a ++ x), y. now rewrite app_assoc.
Qed.

Lemma Contains_skipn (k : nat) (t pat : str) :
  Strings.Contains (skipn k t) pat = true -> Strings.Contains t pat = true.
Proof.
  intros H. rewrite <- (firstn_skipn k t). now apply Contains_app_l.
Qed.

Lemma Contains_app_inv (v x pat : str) (p0 : ascii) (pat' : str) :
  pat = p0 :: pat' ->
  Strings.Contains (v ++ x) pat = true ->
  In p0 v \/ Strings.Contains x pat = true.
Proof.
  intros ->. induction v as [|c v IH]; cbn [app]; [now right|].
  cbn [Strings.Contains]. intros H. apply orb_true_iff in H. destruct H as [H|H].
  - left. left. cbn [Strings.HasPrefix] in H. apply andb_true_iff in H.
    destruct H as [H _]. now apply Ascii.eqb_eq in H.
  - destruct (IH H) as [Hin|Hx]; [left; now right | now right].
Qed.

(** A match of [pat] at the head of the output is one at the head of the
    input when the inserted text starts with a byte foreign to [pat]. *)
Lemma ReplaceAll_go_prefix_back (old new' : str) (c0 : ascii) :
  forall pat t,
    ~ In c0 pat ->
    Strings.HasPrefix (Strings.ReplaceAll_go old (c0 :: new') 0 t) pat = true ->
    Strings.HasPrefix t pat = true.
Proof.
  induction pat as [|x pat IH]; intros t Hc; [reflexivity|].
  destruct t as [|c t]; [discriminate|]. cbn [Strings.ReplaceAll_go].
  destruct (Strings.HasPrefix (c :: t) old).
  - cbn [app Strings.HasPrefix]. intros H. apply andb_true_iff in H.
    destruct H as [H _]. apply Ascii.eqb_eq in H. subst x.
    exfalso. apply Hc. now left.
  - cbn [Strings.HasPrefix]. intros H. apply andb_true_iff in H.
    destruct H as [H1 H2]. rewrite H1. cbn [andb].
    apply IH; [|exact H2]. intros Hin. apply Hc. now right.
Qed.

(** Substituting a non-empty text whose bytes are foreign to [pat] creates
    no occurrence of [pat]. *)
Lemma ReplaceAll_go_no_new (old new' pat : str) (c0 : ascii) :
  old <> [] ->
  (forall c, In c (c0 :: new') -> ~ In c pat) ->
  forall t,
    Strings.Contains (Strings.ReplaceAll_go old (c0 :: new') 0 t) pat = true ->
    Strings.Contains t pat = true.
Proof.
  intros Hold Hfor t.
  assert (forall n t, length t <= n ->
            Strings.Contains (Strings.ReplaceAll_go old (c0 :: new') 0 t) pat = true ->
            Strings.Contains t pat = true) as G;
    [|now apply (G (length t))].
  clear t. destruct pat as [|p0 pat'].
  { intros n t _ _. destruct t; reflexivity. }
  induction n as [|n IH]; intros t Hn.
  - destruct t; [|cbn in Hn; lia]. intros H. exact H.
  - destruct t as [|c t]; [intros H; exact H|].
    cbn [length] in Hn. cbn [Strings.ReplaceAll_go].
    destruct (Strings.HasPrefix (c :: t) old) eqn:E.
    + rewrite ReplaceAll_go_skip. intros H.
      apply (@Contains_app_inv _ _ _ p0 pat' eq_refl) in H.
      destruct H as [Hin|H].
      * exfalso. apply (Hfor p0 Hin). now left.
      * apply IH in H; [|rewrite length_skipn; lia].
        apply Contains_skipn in H. apply (Contains_app_l [c]) in H. exact H.
    + intros H.
      assert (Strings.HasPrefix (c :: Strings.ReplaceAll_go old (c0 :: new') 0 t)
                (p0 :: pat') = true ->
              Strings.HasPrefix (c :: t) (p0 :: pat') = true) as Hd.
      { intros Hp.
        apply (@ReplaceAll_go_prefix_back old new' c0 (p0 :: pat') (c :: t)).
        - apply Hfor. now left.
        - cbn [Strings.ReplaceAll_go]. rewrite E. exact Hp. }
      cbn [Strings.Contains] in H |- *. apply orb_true_iff in H.
      apply orb_true_iff. destruct H as [H|H].
      * left. now apply Hd.
      * right. apply IH; [lia|exact H].
Qed.

Lemma uint_chars_ver (d : Decimal.uint) : Forall (fun c => ver_char c = true) (uint_chars d).
Proof. induction d; cbn [uint_chars]; constructor; auto. Qed.

Lemma itoa_ver (z : Z) : Forall (fun c => ver_char c = true) (itoa z).
Proof.
  unfold itoa. destruct (Z.to_int z); [|constructor; [reflexivity|]];
    apply uint_chars_ver.
Qed.

Lemma verStr_ver (v : Semver.Version) : Forall (fun c => ver_char c = true) (verStr v).
Proof.
  unfold verStr.
  apply Forall_app; split; [apply itoa_ver|].
  apply Forall_app; split; [repeat constructor|].
  apply Forall_app; split; [apply itoa_ver|].
  apply Forall_app; split; [repeat constructor|apply itoa_ver].
Qed.

Lemma verStr_cons (v : Semver.Version) : exists c0 t, verStr v = c0 :: t.
Proof.
  unfold verStr. destruct (itoa (Semver.major v)) as [|c t];
    eexists; eexists; reflexivity.
Qed.

Lemma name_placeholder_foreign (c : ascii) :
  ver_char c = true -> ~ In c (L "#{name}").
Proof.
  intros H Hin. cbn in Hin.
  repeat (destruct Hin as [<-|Hin]; [discriminate H|]). exact Hin.
Qed.

(** The two passes of [expandStr] are [strings.Replace]. *)
Lemma expandStr_info (w : World) (tmpl nm ver : str) :
  no_dollar nm -> no_dollar ver ->
  expandStr tmpl (info_map w nm ver) =
  Ok (if nameFirst w
      then Strings.ReplaceAll (Strings.ReplaceAll tmpl (L "#{name}") nm)
             (L "#{version}") ver
      else Strings.ReplaceAll (Strings.ReplaceAll tmpl (L "#{version}") ver)
             (L "#{name}") nm).
Proof.
  intros Hn Hv. unfold info_map.
  destruct (nameFirst w); cbn [expandStr compilePlaceholder];
    rewrite !ReplaceAllString_Lit; auto; discriminate.
Qed.

Lemma expandStr_version_only (w : World) (tmpl nm : str) (nv : Semver.Version) :
  no_dollar nm ->
  ~ occurs_in (L "#{name}") tmpl ->
  expandStr tmpl (info_map w nm (verStr nv)) =
  Ok (Strings.ReplaceAll tmpl (L "#{version}") (verStr nv)).
Proof.
  intros Hn Hno.
  assert (Strings.Contains tmpl (L "#{name}") = false) as Hc.
  { destruct (Strings.Contains tmpl (L "#{name}")) eqn:E; [|reflexivity].
    exfalso. apply Hno. now apply Contains_spec. }
  rewrite expandStr_info; [|exact Hn|apply plain_no_dollar, verStr_plain].
  destruct (nameFirst w).
  - now rewrite (@ReplaceAll_absent _ _ nm Hc).
  - rewrite ReplaceAll_absent; [reflexivity|].
    destruct (Strings.Contains
                (Strings.ReplaceAll tmpl (L "#{version}") (verStr nv))
                (L "#{name}")) eqn:E; [|reflexivity].
    exfalso. unfold Strings.ReplaceAll in E.
    destruct (verStr_cons nv) as [c0 [t Hv]].
    pose proof (verStr_ver nv) as Hall. rewrite Hv in E, Hall.
    apply ReplaceAll_go_no_new in E.
    + congruence.
    + discriminate.
    + intros c Hin. apply name_placeholder_foreign.
      rewrite Forall_forall in Hall. now apply Hall.
Qed.

(** Without a match the text is left as it is, whatever the replacement. *)
Lemma ReplaceAllString_Lit_absent (p s v : str) :
  Strings.Contains s p = false -> ReplaceAllString (Lit p) s v = s.
Proof.
  intros H. unfold ReplaceAllString.
  replace (length s + 2) with (S (length s + 1)) by lia.
  cbn [replaceAll]. replace (length s <? 0) with false by (symmetry; apply Nat.ltb_ge; lia).
  unfold exec. cbn [skipn]. rewrite scan_Lit, (index_of_absent _ _ H).
  reflexivity.
Qed.

(** A text without the placeholder of the name: the name plays no part. *)
Lemma expandStr_name_absent (w : World) (tmpl nm : str) (nv : Semver.Version) :
  ~ occurs_in (L "#{name}") tmpl ->
  expandStr tmpl (info_map w nm (verStr nv)) =
  Ok (Strings.ReplaceAll tmpl (L "#{version}") (verStr nv)).
Proof.
  intros Hno.
  assert (Strings.Contains tmpl (L "#{name}") = false) as Hc.
  { destruct (Strings.Contains tmpl (L "#{name}")) eqn:E; [|reflexivity].
    exfalso. apply Hno. now apply Contains_spec. }
  assert (no_dollar (verStr nv)) as Hv by (apply plain_no_dollar, verStr_plain).
  unfold info_map. destruct (nameFirst w); cbn [expandStr compilePlaceholder].
  - change (L "#{" ++ L "name" ++ L "}") with (L "#{name}").
    rewrite (ReplaceAllString_Lit_absent _ _ nm Hc).
    rewrite ReplaceAllString_Lit; [reflexivity|discriminate|exact Hv].
  - change (L "#{" ++ L "name" ++ L "}") with (L "#{name}").
    change (L "#{" ++ L "version" ++ L "}") with (L "#{version}").
    rewrite (@ReplaceAllString_Lit (L "#{version}") tmpl (verStr nv));
      [|discriminate|exact Hv].
    rewrite ReplaceAllString_Lit_absent; [reflexivity|].
    destruct (Strings.Contains
                (Strings.ReplaceAll tmpl (L "#{version}") (verStr nv))
                (L "#{name}")) eqn:E; [|reflexivity].
    exfalso. unfold Strings.ReplaceAll in E.
    destruct (verStr_cons nv) as [c0 [t Hv']].
    pose proof (verStr_ver nv) as Hall.
    rewrite Hv' in E, Hall.
    apply ReplaceAll_go_no_new in E.
    + congruence.
    + discriminate.
    + intros c Hin. apply name_placeholder_foreign.
      rewrite Forall_forall in Hall. now apply Hall.
Qed.

(** ** The URL of a template *)

(** C4, the claim as written fails: the URL template of the sample
    formula contains "#{version}" and "#{name}"; a successful [update] to
    release v1.3.0 substitutes both, so the new URL is not the template
    with only "#{version}" replaced by "1.3.0". *)
Example update_template_substitutes_name :
  newFormula (Sample.world Sample.template_rb (L "v1.3.0") Sample.assets_130 200 true)
             (L "r.rb") = Ok Sample.fo_template /\
  occurs_in (L "#{version}") (urlTmpl Sample.fo_template) /\
  exists fo',
    update (Sample.world Sample.template_rb (L "v1.3.0") Sample.assets_130 200 true)
           Sample.fo_template = (fo', true, None) /\
    version fo' = L "1.3.0" /\
    url fo' = L "https://github.com/o/r/releases/download/v1.3.0/r_darwin_amd64.zip" /\
    Strings.ReplaceAll (urlTmpl Sample.fo_template) (L "#{version}") (L "1.3.0") =
      L "https://github.com/o/#{name}/releases/download/v1.3.0/#{name}_darwin_amd64.zip" /\
    url fo' <>
      Strings.ReplaceAll (urlTmpl Sample.fo_template) (L "#{version}") (version fo').
Proof.
  split; [vm_compute; reflexivity|].
  split; [apply Contains_spec; vm_compute; reflexivity|].
  eexists. split; [vm_compute; reflexivity|].
  split; [vm_compute; reflexivity|].
  split; [vm_compute; reflexivity|].
  split; [vm_compute; reflexivity|]. vm_compute. discriminate.
Qed.

(** C4, amended. For a loaded formula whose URL assignment contains
    "#{version}" and no "#{name}", a successful [update] computes the new
    URL by literal substitution, in the URL template, of "#{version}" by
    the new version string, which is major.minor.patch of the tag of the
    latest release, without any suffix of the tag. *)
Theorem update_version_placeholder (w : World) (f : str) (fo : formula)
    (w' : World) (fo' : formula) :
  newFormula w f = Ok fo ->
  occurs_in (L "#{version}") (urlTmpl fo) ->
  ~ occurs_in (L "#{name}") (urlTmpl fo) ->
  update w' fo = (fo', true, None) ->
  exists rele nv,
    getLatestRelease w' (owner fo) (repo fo) = Some rele /\
    Semver.NewVersion (tag_name rele) = Some nv /\
    version fo' =
      itoa (Semver.major nv) ++ L "." ++ itoa (Semver.minor nv) ++ L "." ++
      itoa (Semver.patch nv) /\
    url fo' = Strings.ReplaceAll (urlTmpl fo) (L "#{version}") (version fo').
Proof.
  intros Hload Hocc Hno Hup.
  apply newFormula_inv in Hload.
  destruct Hload as [b [_ [_ [_ [_ [_ [_ [_ [_ [_ [Ht _]]]]]]]]]]].
  assert (isURLTmpl fo = true) as Et.
  { rewrite Ht. now apply Contains_spec. }
  apply update_success_inv in Hup.
  destruct Hup as [rele [ov [nv [u [sha [_ [Hr [Hn [_ [He [_ ->]]]]]]]]]]].
  rewrite Et in He. unfold updateContent, with_fields. cbn [url version].
  exists rele, nv. split; [exact Hr|]. split; [exact Hn|]. split; [reflexivity|].
  rewrite (@expandStr_name_absent w' _ _ nv Hno) in He. now injection He as <-.
Qed.

Lemma update_version_placeholder_witness :
  exists rele nv,
    getLatestRelease (Sample.world Sample.version_tmpl_rb (L "v1.3.0-rc.1+build") Sample.assets_130 200 true)
      (owner Sample.fo_version_tmpl) (repo Sample.fo_version_tmpl) = Some rele /\
    Semver.NewVersion (tag_name rele) = Some nv /\
    version (fst (fst (update (Sample.world Sample.version_tmpl_rb (L "v1.3.0-rc.1+build") Sample.assets_130 200 true)
         Sample.fo_version_tmpl))) =
      itoa (Semver.major nv) ++ L "." ++ itoa (Semver.minor nv) ++ L "." ++
      itoa (Semver.patch nv) /\
    url (fst (fst (update (Sample.world Sample.version_tmpl_rb (L "v1.3.0-rc.1+build") Sample.assets_130 200 true)
         Sample.fo_version_tmpl))) =
      Strings.ReplaceAll (urlTmpl Sample.fo_version_tmpl) (L "#{version}")
        (version (fst (fst (update (Sample.world Sample.version_tmpl_rb (L "v1.3.0-rc.1+build") Sample.assets_130 200 true)
         Sample.fo_version_tmpl)))).
Proof.
  refine (@update_version_placeholder
    (Sample.world Sample.version_tmpl_rb (L "v1.3.0-rc.1+build") Sample.assets_130 200 true)
    (L "r.rb") Sample.fo_version_tmpl
    (Sample.world Sample.version_tmpl_rb (L "v1.3.0-rc.1+build") Sample.assets_130 200 true)
    (fst (fst (update (Sample.world Sample.version_tmpl_rb (L "v1.3.0-rc.1+build") Sample.assets_130 200 true)
         Sample.fo_version_tmpl))) _ _ _ _).
  - vm_compute. reflexivity.
  - apply Contains_spec. vm_compute. reflexivity.
  - intros H. apply Contains_spec in H. vm_compute in H. discriminate.
  - vm_compute. reflexivity.
Defined.

(** There the tag "v1.3.0-rc.1+build" gives the version "1.3.0". *)
Example update_version_placeholder_sample :
  url (fst (fst (update (Sample.world Sample.version_tmpl_rb (L "v1.3.0-rc.1+build") Sample.assets_130 200 true)
         Sample.fo_version_tmpl))) =
  L "https://github.com/o/r/releases/download/v1.3.0/r_darwin_amd64.zip".
Proof. vm_compute. reflexivity. Qed.

(** X2. For a loaded formula whose URL assignment contains
    "#{version}" and whose name has no [$], a successful [update] computes
    the new URL by literal substitution in the URL template of "#{version}"
    by the new version string and of "#{name}" by the name of the formula,
    one placeholder after the other in the order the map is visited; when
    the template has no "#{name}", the new URL is the literal substitution
    of "#{version}" alone.  The new version string is major.minor.patch of
    the latest release's tag. *)
Theorem update_template_url (w : World) (f : str) (fo : formula)
    (w' : World) (fo' : formula) :
  newFormula w f = Ok fo ->
  occurs_in (L "#{version}") (urlTmpl fo) ->
  no_dollar (name fo) ->
  update w' fo = (fo', true, None) ->
  url fo' =
    (if nameFirst w'
     then Strings.ReplaceAll (Strings.ReplaceAll (urlTmpl fo) (L "#{name}") (name fo))
            (L "#{version}") (version fo')
     else Strings.ReplaceAll (Strings.ReplaceAll (urlTmpl fo) (L "#{version}") (version fo'))
            (L "#{name}") (name fo)) /\
  (~ occurs_in (L "#{name}") (urlTmpl fo) ->
   url fo' = Strings.ReplaceAll (urlTmpl fo) (L "#{version}") (version fo')) /\
  exists rele nv,
    getLatestRelease w' (owner fo) (repo fo) = Some rele /\
    Semver.NewVersion (tag_name rele) = Some nv /\
    version fo' =
      itoa (Semver.major nv) ++ L "." ++ itoa (Semver.minor nv) ++ L "." ++
      itoa (Semver.patch nv).
Proof.
  intros Hload Hocc Hname Hup.
  apply newFormula_inv in Hload.
  destruct Hload as [b [_ [_ [_ [_ [_ [_ [_ [_ [_ [Ht _]]]]]]]]]]].
  assert (isURLTmpl fo = true) as Et.
  { rewrite Ht. now apply Contains_spec. }
  apply update_success_inv in Hup.
  destruct Hup as [rele [ov [nv [u [sha [_ [Hr [Hn [_ [He [_ ->]]]]]]]]]]].
  rewrite Et in He. unfold updateContent, with_fields. cbn [url version].
  split; [|split].
  - rewrite expandStr_info in He;
      [|exact Hname|apply plain_no_dollar, verStr_plain].
    now injection He as <-.
  - intros Hno. rewrite (@expandStr_version_only w' _ _ nv Hname Hno) in He.
    now injection He as <-.
  - exists rele, nv. repeat split; assumption.
Qed.

Lemma update_template_url_witness :
  url (fst (fst (update
    (Sample.world Sample.template_rb (L "v1.3.0") Sample.assets_130 200 true)
    Sample.fo_template))) =
  (if nameFirst (Sample.world Sample.template_rb (L "v1.3.0") Sample.assets_130 200 true)
   then Strings.ReplaceAll
          (Strings.ReplaceAll (urlTmpl Sample.fo_template) (L "#{name}")
             (name Sample.fo_template))
          (L "#{version}")
          (version (fst (fst (update
             (Sample.world Sample.template_rb (L "v1.3.0") Sample.assets_130 200 true)
             Sample.fo_template))))
   else Strings.ReplaceAll
          (Strings.ReplaceAll (urlTmpl Sample.fo_template) (L "#{version}")
             (version (fst (fst (update
                (Sample.world Sample.template_rb (L "v1.3.0") Sample.assets_130 200 true)
                Sample.fo_template)))))
          (L "#{name}") (name Sample.fo_template)).
Proof.
  refine (proj1 (@update_template_url _ (L "r.rb") Sample.fo_template
    (Sample.world Sample.template_rb (L "v1.3.0") Sample.assets_130 200 true)
    (fst (fst (update
       (Sample.world Sample.template_rb (L "v1.3.0") Sample.assets_130 200 true)
       Sample.fo_template)))
    (newFormula_template true) _ _ _)).
  - apply Contains_spec. vm_compute. reflexivity.
  - apply plain_no_dollar. apply Forall_forall, forallb_forall. vm_compute. reflexivity.
  - vm_compute. reflexivity.
Defined.

Example update_template_version_only :
  url (fst (fst (update
    (Sample.world
       (L "  version '1.2.0'
  url 'https://github.com/o/r/releases/download/v#{version}/r_darwin_amd64.zip'
  sha256 'abc'
") (L "v1.3.0-rc.1+build") Sample.assets_130 404 false)
    (mkFormula (L "r.rb") [] 
       (L "https://github.com/o/r/releases/download/v#{version}/r_darwin_amd64.zip")
       true [] (L "1.2.0") [] [] (L "o") (L "r"))))) =
  L "https://github.com/o/r/releases/download/v1.3.0/r_darwin_amd64.zip".
Proof. vm_compute. reflexivity. Qed.

Lemma expandStr_without_name (w : World) (tmpl nm ver : str) :
  no_dollar nm -> no_dollar ver ->
  ver <> [] -> (forall c, In c ver -> ~ In c (L "#{name}")) ->
  ~ occurs_in (L "#{name}") tmpl ->
  expandStr tmpl (info_map w nm ver) =
  Ok (Strings.ReplaceAll tmpl (L "#{version}") ver).
Proof.
  intros Hn Hv Hne Hfor Hno.
  assert (Strings.Contains tmpl (L "#{name}") = false) as Hc.
  { destruct (Strings.Contains tmpl (L "#{name}")) eqn:E; [|reflexivity].
    exfalso. apply Hno. now apply Contains_spec. }
  rewrite expandStr_info by assumption.
  destruct (nameFirst w).
  - now rewrite (@ReplaceAll_absent _ _ nm Hc).
  - rewrite ReplaceAll_absent; [reflexivity|].
    destruct (Strings.Contains
                (Strings.ReplaceAll tmpl (L "#{version}") ver)
                (L "#{name}")) eqn:E; [|reflexivity].
    exfalso. unfold Strings.ReplaceAll in E.
    destruct ver as [|c0 t]; [congruence|].
    apply ReplaceAll_go_no_new in E; [congruence|discriminate|exact Hfor].
Qed.

(** X1. [expandStr] on the map of a formula, for a name and a version
    without [$]: the result is never an error; it is the text with the two
    placeholders replaced by [strings.Replace], one after the other in the
    order the map is visited.  When the text has no "#{name}" and the
    version is not empty and has none of the bytes of "#{name}", the
    result is the text with "#{version}" replaced, in either order. *)
Theorem expandStr_literal_substitution (w : World) (tmpl nm ver : str) :
  no_dollar nm -> no_dollar ver ->
  expandStr tmpl (info_map w nm ver) =
    Ok (if nameFirst w
        then Strings.ReplaceAll (Strings.ReplaceAll tmpl (L "#{name}") nm)
               (L "#{version}") ver
        else Strings.ReplaceAll (Strings.ReplaceAll tmpl (L "#{version}") ver)
               (L "#{name}") nm) /\
  (ver <> [] -> (forall c, In c ver -> ~ In c (L "#{name}")) ->
   ~ occurs_in (L "#{name}") tmpl ->
   expandStr tmpl (info_map w nm ver) =
     Ok (Strings.ReplaceAll tmpl (L "#{version}") ver)).
Proof.
  intros Hn Hv. split.
  - now apply expandStr_info.
  - intros Hne Hfor Hno. now apply expandStr_without_name.
Qed.

Lemma expandStr_literal_substitution_witness :
  expandStr (L "https://github.com/o/#{name}/v#{version}/#{name}.zip")
    (info_map (Sample.world [] [] [] 200 false) (L "r") (L "1.3.0")) =
  Ok (if nameFirst (Sample.world [] [] [] 200 false)
      then Strings.ReplaceAll
             (Strings.ReplaceAll (L "https://github.com/o/#{name}/v#{version}/#{name}.zip")
                (L "#{name}") (L "r"))
             (L "#{version}") (L "1.3.0")
      else Strings.ReplaceAll
             (Strings.ReplaceAll (L "https://github.com/o/#{name}/v#{version}/#{name}.zip")
                (L "#{version}") (L "1.3.0"))
             (L "#{name}") (L "r")).
Proof.
  refine (proj1 (@expandStr_literal_substitution (Sample.world [] [] [] 200 false)
    (L "https://github.com/o/#{name}/v#{version}/#{name}.zip") (L "r") (L "1.3.0") _ _)).
  - apply plain_no_dollar. apply Forall_forall, forallb_forall. vm_compute. reflexivity.
  - apply plain_no_dollar. apply Forall_forall, forallb_forall. vm_compute. reflexivity.
Defined.

(** With an empty version the order of the map shows: the version
    placeholder inside a broken name placeholder. *)
Example expandStr_order_matters :
  expandStr (L "#{na#{version}me}") (info_map (Sample.world [] [] [] 200 true) (L "x") []) =
    Ok (L "#{name}") /\
  expandStr (L "#{na#{version}me}") (info_map (Sample.world [] [] [] 200 false) (L "x") []) =
    Ok (L "x").
Proof. split; vm_compute; reflexivity. Qed.

(** X3. At load, the URL of a template (name and version without [$]) is
    the URL template with the placeholders of the name and of the version
    read from the file replaced by [strings.Replace]. *)
Theorem newFormula_template_url (w : World) (f : str) (fo : formula) :
  newFormula w f = Ok fo ->
  occurs_in (L "#{version}") (urlTmpl fo) ->
  no_dollar (name fo) -> no_dollar (version fo) ->
  url fo =
    (if nameFirst w
     then Strings.ReplaceAll (Strings.ReplaceAll (urlTmpl fo) (L "#{name}") (name fo))
            (L "#{version}") (version fo)
     else Strings.ReplaceAll (Strings.ReplaceAll (urlTmpl fo) (L "#{version}") (version fo))
            (L "#{name}") (name fo)).
Proof.
  intros Hload Hocc Hn Hv. apply newFormula_inv in Hload.
  destruct Hload as [b [_ [_ [_ [_ [_ [_ [_ [_ [_ [Ht He]]]]]]]]]]].
  assert (isURLTmpl fo = true) as Et by (rewrite Ht; now apply Contains_spec).
  rewrite Et in He. rewrite expandStr_info in He by assumption.
  now injection He as <-.
Qed.

Lemma newFormula_template_url_witness :
  url Sample.fo_template =
  (if nameFirst (Sample.world Sample.template_rb (L "v1.3.0") Sample.assets_130 200 false)
   then Strings.ReplaceAll
          (Strings.ReplaceAll (urlTmpl Sample.fo_template) (L "#{name}")
             (name Sample.fo_template))
          (L "#{version}") (version Sample.fo_template)
   else Strings.ReplaceAll
          (Strings.ReplaceAll (urlTmpl Sample.fo_template) (L "#{version}")
             (version Sample.fo_template))
          (L "#{name}") (name Sample.fo_template)).
Proof.
  refine (@newFormula_template_url
    (Sample.world Sample.template_rb (L "v1.3.0") Sample.assets_130 200 false)
    (L "r.rb") Sample.fo_template (newFormula_template false) _ _ _).
  - apply Contains_spec. vm_compute. reflexivity.
  - apply plain_no_dollar. apply Forall_forall, forallb_forall. vm_compute. reflexivity.
  - apply plain_no_dollar. apply Forall_forall, forallb_forall. vm_compute. reflexivity.
Defined.

(** X4. The update of a template never reads the assets of the release:
    two worlds that agree on the tag of the latest release, on the order
    of the map and on the downloads give the same result. *)
Theorem update_template_ignores_assets (w1 w2 : World) (fo : formula) :
  isURLTmpl fo = true ->
  option_map tag_name (getLatestRelease w1 (owner fo) (repo fo)) =
  option_map tag_name (getLatestRelease w2 (owner fo) (repo fo)) ->
  nameFirst w1 = nameFirst w2 ->
  (forall u, httpGet w1 u = httpGet w2 u) ->
  update w1 fo = update w2 fo.
Proof.
  intros Et Htag Hord Hget. unfold update.
  destruct (Semver.NewVersion (version fo)) as [ov|]; [|reflexivity].
  destruct (getLatestRelease w1 (owner fo) (repo fo)) as [r1|],
           (getLatestRelease w2 (owner fo) (repo fo)) as [r2|];
    cbn [option_map] in Htag; try discriminate; [|reflexivity].
  injection Htag as Htag. rewrite Htag.
  destruct (Semver.NewVersion (tag_name r2)) as [nv|]; [|reflexivity].
  destruct (negb (Semver.LessThan ov nv)); [reflexivity|].
  rewrite Et. unfold info_map. rewrite Hord.
  destruct (expandStr _ _) as [u|e]; [|reflexivity].
  unfold getSHA256FromURL. rewrite Hget. reflexivity.
Qed.

Lemma update_template_ignores_assets_witness :
  update (Sample.world Sample.template_rb (L "v1.3.0") Sample.assets_130 200 true)
         Sample.fo_template =
  update (Sample.world Sample.template_rb (L "v1.3.0") [] 200 true) Sample.fo_template.
Proof.
  refine (@update_template_ignores_assets
    (Sample.world Sample.template_rb (L "v1.3.0") Sample.assets_130 200 true)
    (Sample.world Sample.template_rb (L "v1.3.0") [] 200 true)
    Sample.fo_template _ _ _ _).
  - reflexivity.
  - reflexivity.
  - reflexivity.
  - intros u. reflexivity.
Defined.

(** X5. After a successful [update] the checksum of the formula is the
    SHA-256 digest, in 64 hexadecimal digits, of the body that the GET of
    the formula's new URL delivered. *)
Theorem update_checksum_of_new_url (w : World) (fo fo' : formula) :
  update w fo = (fo', true, None) ->
  exists status body,
    httpGet w (url fo') = Response status body false /\
    sha256 fo' = sha256_hex body /\ length (sha256 fo') = 64.
Proof.
  intros H. apply update_success_inv in H.
  destruct H as [rele [ov [nv [u [sha [_ [_ [_ [_ [_ [Hs ->]]]]]]]]]]].
  unfold updateContent, with_fields. cbn [url sha256].
  unfold getSHA256FromURL in Hs.
  destruct (httpGet w u) as [| |status body rf]; try discriminate.
  destruct rf; [discriminate|]. injection Hs as <-.
  exists status, body. repeat split. apply sha256_hex_length.
Qed.

Lemma update_checksum_of_new_url_witness :
  exists status body,
    httpGet (Sample.world Sample.literal_rb (L "v1.3.0") Sample.assets_130 200 true)
      (url (fst (fst (update
         (Sample.world Sample.literal_rb (L "v1.3.0") Sample.assets_130 200 true)
         Sample.fo_literal)))) = Response status body false /\
    sha256 (fst (fst (update
      (Sample.world Sample.literal_rb (L "v1.3.0") Sample.assets_130 200 true)
      Sample.fo_literal))) = sha256_hex body /\
    length (sha256 (fst (fst (update
      (Sample.world Sample.literal_rb (L "v1.3.0") Sample.assets_130 200 true)
      Sample.fo_literal)))) = 64.
Proof.
  refine (@update_checksum_of_new_url
    (Sample.world Sample.literal_rb (L "v1.3.0") Sample.assets_130 200 true)
    Sample.fo_literal
    (fst (fst (update
      (Sample.world Sample.literal_rb (L "v1.3.0") Sample.assets_130 200 true)
      Sample.fo_literal))) _).
  vm_compute. reflexivity.
Defined.

(** X6. Whatever [update] returns, the file name, the name, the owner, the
    repository, the URL template and its kind are the ones of the formula
    it was given; when [updated] is false the whole formula is, and when
    it is true there is no error. *)
Theorem update_keeps_identity (w : World) (fo fo' : formula) (b : bool)
    (e : option error) :
  update w fo = (fo', b, e) ->
  fname fo' = fname fo /\ name fo' = name fo /\ owner fo' = owner fo /\
  repo fo' = repo fo /\ urlTmpl fo' = urlTmpl fo /\ isURLTmpl fo' = isURLTmpl fo /\
  (b = false -> fo' = fo) /\ (b = true -> e = None).
Proof.
  unfold update.
  destruct (Semver.NewVersion (version fo)) as [ov|];
    [|intros [= <- <- <-]; repeat split; discriminate].
  destruct (getLatestRelease w (owner fo) (repo fo)) as [rele|];
    [|intros [= <- <- <-]; repeat split; discriminate].
  destruct (Semver.NewVersion (tag_name rele)) as [nv|];
    [|intros [= <- <- <-]; repeat split; discriminate].
  destruct (negb (Semver.LessThan ov nv));
    [intros [= <- <- <-]; repeat split; discriminate|].
  destruct (if isURLTmpl fo then _ else _) as [u|e'] in |- *;
    [|intros [= <- <- <-]; repeat split; discriminate].
  destruct (getSHA256FromURL w u) as [h|e''];
    [|intros [= <- <- <-]; repeat split; discriminate].
  intros [= <- <- <-]. repeat split. discriminate.
Qed.

Lemma update_keeps_identity_witness :
  urlTmpl (fst (fst (update
    (Sample.world Sample.template_rb (L "v1.3.0") Sample.assets_130 200 true)
    Sample.fo_template))) = urlTmpl Sample.fo_template.
Proof.
  refine (proj1 (proj2 (proj2 (proj2 (proj2 (@update_keeps_identity
    (Sample.world Sample.template_rb (L "v1.3.0") Sample.assets_130 200 true)
    Sample.fo_template
    (fst (fst (update
      (Sample.world Sample.template_rb (L "v1.3.0") Sample.assets_130 200 true)
      Sample.fo_template)))
    true None _)))))).
  vm_compute. reflexivity.
Defined.

(** ** [replaceOne] on any expression *)

(** What one run of the engine reads is a prefix of the rest, and the
    position moves by its length. *)
Lemma mrun_span (r : regex) :
  forall fuel st st',
    In st' (mrun r fuel st) ->
    exists l, rest st = l ++ rest st' /\ pos st' = pos st + length l.
Proof.
  induction r as [|p|l0| | | |a IHa b IHb|a IHa b IHb|a IHa|n a IHa|];
    intros fuel st st'.
  - intros [<-|[]]. exists []. cbn [app length]. auto.
  - rewrite run_Cls. destruct (rest st) as [|c t] eqn:E; [intros []|].
    destruct (p c) eqn:Ep; [|intros []]. intros [<-|[]].
    exists [c]. unfold step1. cbn [rest pos app length]. split; [reflexivity|lia].
  - rewrite run_Lit. destruct (Strings.HasPrefix (rest st) l0) eqn:E; [|intros []].
    intros [<-|[]]. apply HasPrefix_spec in E. destruct E as [t E].
    exists l0. rewrite (rest_advance _ _ _ E), (pos_advance _ _ _ E). auto.
  - cbn [mrun]. destruct (at_bol st); [|intros []]. intros [<-|[]].
    exists []. cbn [app length]. auto.
  - cbn [mrun]. destruct (prev st); [intros []|]. intros [<-|[]].
    exists []. cbn [app length]. auto.
  - cbn [mrun]. destruct (rest st) eqn:E; [|intros []]. intros [<-|[]].
    exists []. cbn [app length]. auto.
  - rewrite run_Cat. intros H. apply in_flat_map in H. destruct H as [st1 [H1 H2]].
    destruct (IHa _ _ _ H1) as [l1 [E1 P1]].
    destruct (IHb _ _ _ H2) as [l2 [E2 P2]].
    exists (l1 ++ l2). rewrite length_app. split; [now rewrite E1, E2, app_assoc|lia].
  - cbn [mrun]. intros H. apply in_app_or in H. destruct H as [H|H]; eauto.
  - revert st. induction fuel as [|f IHf]; intros st.
    + intros [<-|[]]. exists []. cbn [app length]. auto.
    + rewrite mrun_Star_S. intros H. apply in_app_or in H. destruct H as [H|[<-|[]]].
      * apply in_flat_map in H. destruct H as [st1 [H1 H2]].
        destruct (pos st <? pos st1); [|destruct H2].
        destruct (IHa _ _ _ H1) as [l1 [E1 P1]].
        destruct (IHf _ H2) as [l2 [E2 P2]].
        exists (l1 ++ l2). rewrite length_app.
        split; [now rewrite E1, E2, app_assoc|lia].
      * exists []. cbn [app length]. auto.
  - rewrite run_Grp. intros H. apply in_map_iff in H. destruct H as [st1 [<- H1]].
    cbn [rest pos set_cap]. eauto.
  - intros H. apply in_Any in H. destruct H as [c [r [E [_ [_ [P _]]]]]].
    exists (c :: r). auto.
Qed.

Lemma scan_bounds (r : regex) (fuel : nat) :
  forall t pv p m,
    scan r fuel pv p t = Some m ->
    p <= m_start m /\ m_start m <= m_end m /\ m_end m <= p + length t.
Proof.
  assert (forall t pv p st' l,
             mrun r fuel (mkState pv p t []) = st' :: l ->
             p <= pos st' /\ pos st' <= p + length t) as Hd.
  { intros t pv p st' l E.
    assert (In st' (mrun r fuel (mkState pv p t []))) as Hin by (rewrite E; now left).
    apply mrun_span in Hin. destruct Hin as [x [Ex Px]]. cbn [rest pos] in Ex, Px.
    apply (f_equal (@length ascii)) in Ex. rewrite length_app in Ex. lia. }
  induction t as [|c t IH]; intros pv p m; cbn [scan];
    destruct (mrun r fuel _) as [|st' l] eqn:E.
  - discriminate.
  - intros [= <-]. cbn [m_start m_end]. destruct (Hd _ _ _ _ _ E). lia.
  - intros H. apply IH in H. cbn [length]. lia.
  - intros [= <-]. cbn [m_start m_end]. destruct (Hd _ _ _ _ _ E). lia.
Qed.

Lemma exec_bounds (r : regex) (s : str) (p : nat) (m : mtch) :
  p <= length s -> exec r s p = Some m ->
  p <= m_start m /\ m_start m <= m_end m /\ m_end m <= length s.
Proof.
  intros Hp H. unfold exec in H. apply scan_bounds in H.
  rewrite length_skipn in H. lia.
Qed.

(** X7. [replaceOne] with any expression: without a match the text comes
    back as it is; with one, the bytes before and after the leftmost-first
    match are kept and the bytes of the match give way to what
    [ReplaceAllString] makes of the matched text alone.  Later matches are
    never rewritten. *)
Theorem replaceOne_first_match_only (r : regex) (s replace : str) :
  replaceOne r s replace =
  match exec r s 0 with
  | None => s
  | Some m =>
      firstn (m_start m) s ++
      ReplaceAllString r (substr s (m_start m) (m_end m)) replace ++
      skipn (m_end m) s
  end.
Proof.
  unfold replaceOne, ReplaceAllStringFunc. rewrite Nat.add_comm. cbn [Nat.add].
  destruct (exec r s 0) as [m|] eqn:E.
  - erewrite replaceAll_step; [|apply Nat.le_0_l|exact E]. cbv zeta.
    destruct (exec_bounds r s (Nat.le_0_l _) E) as [_ [H2 H3]].
    assert ((0 <? m_end m) || (m_start m =? 0) = true) as ->.
    { destruct (m_end m) eqn:Em; [|reflexivity].
      replace (m_start m) with 0 by lia. reflexivity. }
    cbn [fst snd app].
    rewrite replaceAll_identity.
    + unfold substr at 1. rewrite Nat.sub_0_r. cbn [skipn].
      now rewrite <- app_assoc.
    + intros p m' Hp. now apply exec_bounds.
    + reflexivity.
    + destruct (m_end m <? 0 + 1) eqn:E1; [apply Nat.ltb_lt in E1|]; lia.
  - now rewrite replaceAll_stop.
Qed.

Example replaceOne_second_match_kept :
  replaceOne verReg Sample.two_versions_rb (repl_template (L "1.3.0")) =
  L "class R < Formula
  version '1.3.0'
  url 'https://github.com/o/r/releases/download/v1.2.0/r_darwin_amd64.zip'
  sha256 'abc'
  version '1.2.0'
end
".
Proof. vm_compute. reflexivity. Qed.

(** ** [strings.Split] *)

Lemma Split_cons (s : str) (sep : ascii) : exists a t, Strings.Split s sep = a :: t.
Proof.
  induction s as [|c s IH]; cbn [Strings.Split]; [eauto|].
  destruct (Ascii.eqb c sep); [eauto|].
  destruct IH as [a [t ->]]. eauto.
Qed.

Lemma join_cons (sep : ascii) (a b : str) (t : list str) :
  join sep (a :: b :: t) = a ++ sep :: join sep (b :: t).
Proof. reflexivity. Qed.

Lemma Split_join (s : str) (sep : ascii) : join sep (Strings.Split s sep) = s.
Proof.
  induction s as [|c s IH]; [reflexivity|]. cbn [Strings.Split].
  destruct (Split_cons s sep) as [a [t Ha]].
  destruct (Ascii.eqb c sep) eqn:E.
  - apply Ascii.eqb_eq in E. subst c.
    rewrite Ha, join_cons, <- Ha, IH. reflexivity.
  - rewrite Ha in IH |- *. destruct t as [|b t].
    + cbn [join] in IH |- *. now rewrite IH.
    + rewrite join_cons in IH |- *. cbn [app]. now rewrite IH.
Qed.

Lemma Split_no_sep (s : str) (sep : ascii) :
  Forall (fun p => ~ In sep p) (Strings.Split s sep).
Proof.
  induction s as [|c s IH]; cbn [Strings.Split].
  - constructor; [intros []|constructor].
  - destruct (Ascii.eqb c sep) eqn:E.
    + constructor; [intros []|exact IH].
    + destruct (Strings.Split s sep) as [|h r]; [constructor; [|constructor]|].
      * intros [->|[]]. now rewrite Ascii.eqb_refl in E.
      * inversion IH as [|? ? Hh Hr]; subst. constructor; [|exact Hr].
        intros [->|Hin]; [now rewrite Ascii.eqb_refl in E | contradiction].
Qed.

Lemma Split_length (s : str) (sep : ascii) :
  length (Strings.Split s sep) = S (count_occ ascii_dec s sep).
Proof.
  induction s as [|c s IH]; [reflexivity|]. cbn [Strings.Split count_occ].
  destruct (ascii_dec c sep) as [->|Hn].
  - rewrite Ascii.eqb_refl. cbn [length]. now rewrite IH.
  - replace (Ascii.eqb c sep) with false
      by (symmetry; now apply Ascii.eqb_neq).
    destruct (Strings.Split s sep) as [|h r]; cbn [length] in IH |- *; lia.
Qed.

(** ** The creator *)

(** X8. The slug of the creator is accepted exactly when it has one "/".
    Then it reads owner "/" repository, followed by nothing (no tag) or
    by "@" and the tag, which ends at the next "@" if there is one; the
    owner and the repository have no "/", the repository and the tag no
    "@", and the name is the repository. *)
Theorem parseSlug_shape (U : Unicode) (sl : str) :
  ((exists nf tag, parseSlug U sl = Ok (nf, tag)) <->
   count_occ ascii_dec sl "/"%char = 1) /\
  (forall nf tag,
      parseSlug U sl = Ok (nf, tag) ->
      Name nf = Repo nf /\
      ~ In "/"%char (Owner nf) /\ ~ In "/"%char (Repo nf) /\
      ~ In "@"%char (Repo nf) /\ ~ In "@"%char tag /\
      exists rest,
        sl = Owner nf ++ L "/" ++ Repo nf ++ rest /\
        ((rest = [] /\ tag = []) \/
         exists more, rest = L "@" ++ tag ++ more /\
                      (more = [] \/ exists m, more = L "@" ++ m))).
Proof.
  split.
  - pose proof (Split_length sl "/") as Hl. unfold parseSlug.
    destruct (Strings.Split sl "/") as [|ow [|rv [|x y]]]; cbn [length] in Hl; split.
    + intros [nf [tag H]]. discriminate.
    + intros H. lia.
    + intros [nf [tag H]]. discriminate.
    + intros H. lia.
    + intros _. lia.
    + intros _. eauto.
    + intros [nf [tag H]]. discriminate.
    + intros H. lia.
  - intros nf tag. unfold parseSlug.
    pose proof (Split_join sl "/") as Hj. pose proof (Split_no_sep sl "/") as Hs.
    destruct (Strings.Split sl "/") as [|ow [|rv [|x y]]]; try discriminate.
    intros [= <- <-]. cbn [Name Repo Owner].
    cbn [join] in Hj.
    apply Forall_cons_iff in Hs. destruct Hs as [Ho Hr'].
    apply Forall_cons_iff in Hr'. destruct Hr' as [Hr _].
    pose proof (Split_join rv "@") as Hj2. pose proof (Split_no_sep rv "@") as Hs2.
    destruct (Strings.Split rv "@") as [|rp parts]; cbn [nth].
    + cbn [join] in Hj2. subst rv. repeat split; auto.
      exists []. split; [now rewrite app_nil_r|]. left. auto.
    + apply Forall_cons_iff in Hs2. destruct Hs2 as [Hrp Hparts].
      assert (~ In "/"%char rp) as Hrp_slash.
      { intros Hin. apply Hr. rewrite <- Hj2.
        destruct parts; cbn [join]; [exact Hin|]. apply in_or_app. now left. }
      repeat split; auto.
      * destruct parts as [|t parts']; [intros []|].
        now apply Forall_cons_iff in Hparts.
      * destruct parts as [|t parts'].
        -- exists []. cbn [join] in Hj2. subst rv.
           split; [now rewrite app_nil_r|]. left. auto.
        -- exists ("@"%char :: join "@" (t :: parts')). split.
           ++ rewrite <- Hj, <- Hj2. reflexivity.
           ++ right. destruct parts' as [|t' parts''].
              ** exists []. cbn [join]. split; [now rewrite app_nil_r|]. now left.
              ** exists ("@"%char :: join "@" (t' :: parts'')).
                 split; [reflexivity|]. right.
                 exists (join "@" (t' :: parts'')). reflexivity.
Qed.

Lemma darwin_amd64_spec (a : asset) :
  Strings.Contains (Path.Base (browser_download_url a)) (L "amd64") &&
  Strings.Contains (Path.Base (browser_download_url a)) (L "darwin") = true <->
  darwin_amd64 a.
Proof.
  unfold darwin_amd64, occurs_in.
  rewrite andb_true_iff, !Contains_spec. tauto.
Qed.

Lemma selectAssetCreate_inv (l : list asset) (u : str) :
  selectAssetCreate l = Ok u ->
  exists l1 a l2,
    l = l1 ++ a :: l2 /\ u = browser_download_url a /\ darwin_amd64 a /\
    forall x, In x l1 -> ~ darwin_amd64 x.
Proof.
  induction l as [|x l IH]; cbn [selectAssetCreate]; [discriminate|].
  destruct (Strings.Contains _ (L "amd64") && Strings.Contains _ (L "darwin")) eqn:E.
  - intros [= <-]. exists [], x, l. repeat split; try apply darwin_amd64_spec, E.
    intros y [].
  - intros H. destruct (IH H) as [l1 [a [l2 [-> [-> [Ha Hn]]]]]].
    exists (x :: l1), a, l2. repeat split; try apply Ha.
    intros y [<-|Hy]; [|now apply Hn].
    intros Hx. apply darwin_amd64_spec in Hx. congruence.
Qed.

Lemma selectAssetCreate_none (l : list asset) :
  (forall x, In x l -> ~ darwin_amd64 x) -> selectAssetCreate l = Err ErrNoAssets.
Proof.
  induction l as [|x l IH]; intros H; cbn [selectAssetCreate]; [reflexivity|].
  destruct (Strings.Contains _ (L "amd64") && Strings.Contains _ (L "darwin")) eqn:E.
  - exfalso. apply (H x (or_introl eq_refl)). now apply darwin_amd64_spec.
  - apply IH. intros y Hy. apply H. now right.
Qed.

(** X9. What a successful [run] of the creator writes: the template
    rendered for the owner and the repository of the slug, with the
    version major.minor.patch of the tag of the release (the one of the
    slug's tag, or the latest one without a tag), the download URL of the
    first asset of that release whose file name contains "darwin" and
    "amd64" (whatever its extension) and the SHA-256 of the body served
    there; it goes to the file named by the creator, or to the formula
    name with ".rb", or to the writer. *)
Theorem run_writes_rendered_release (w : World) (cr : creator) (out : sink)
    (text : str) :
  run w cr = Ok (out, text) ->
  exists nf tag rele ver l1 a l2 status body,
    parseSlug (unicode w) (slug cr) = Ok (nf, tag) /\
    ((tag = [] /\ getLatestRelease w (Owner nf) (Repo nf) = Some rele) \/
     (tag <> [] /\ getReleaseByTag w (Owner nf) (Repo nf) tag = Some rele)) /\
    Semver.NewVersion (tag_name rele) = Some ver /\
    assets rele = l1 ++ a :: l2 /\ darwin_amd64 a /\
    (forall x, In x l1 -> ~ darwin_amd64 x) /\
    httpGet w (browser_download_url a) = Response status body false /\
    text = render (mkFormulaData (Repo nf) (capitalized (unicode w) (Repo nf))
                     (itoa (Semver.major ver) ++ L "." ++ itoa (Semver.minor ver) ++
                      L "." ++ itoa (Semver.patch ver))
                     (Owner nf) (Repo nf) (sha256_hex body)
                     (browser_download_url a)) /\
    out = destination cr (Repo nf) /\
    (forall fname, out = ToFile fname -> createFile w fname = true).
Proof.
  unfold run.
  destruct (parseSlug (unicode w) (slug cr)) as [[nf tag]|] eqn:Ep; [|discriminate].
  assert (Name nf = Repo nf /\ CapitalizedName nf = capitalized (unicode w) (Repo nf)) as [En Ec].
  { unfold parseSlug in Ep.
    destruct (Strings.Split (slug cr) "/") as [|ow [|rv [|? ?]]]; try discriminate.
    injection Ep as <- _. now split. }
  destruct (match tag with [] => _ | _ => _ end) as [rele|] eqn:Er; [|discriminate].
  destruct (Semver.NewVersion (tag_name rele)) as [ver|] eqn:Ev; [|discriminate].
  destruct (selectAssetCreate (assets rele)) as [u|] eqn:Ea; [|discriminate].
  destruct (getSHA256FromURL w u) as [sha|] eqn:Es; [|discriminate].
  apply selectAssetCreate_inv in Ea.
  destruct Ea as [l1 [a [l2 [El [-> [Ha Hn]]]]]].
  unfold getSHA256FromURL in Es.
  destruct (httpGet w (browser_download_url a)) as [| |status body rf] eqn:Eg;
    try discriminate.
  destruct rf; [discriminate|]. injection Es as <-.
  intros H. exists nf, tag, rele, ver, l1, a, l2, status, body.
  split; [reflexivity|]. split.
  { destruct tag; [left|right]; split; auto. discriminate. }
  split; [exact Ev|]. split; [exact El|]. split; [exact Ha|].
  split; [exact Hn|]. split; [exact Eg|].
  unfold destination. rewrite En, Ec in H.
  destruct (overwrite cr || negb (str_eqb (outFile cr) [])).
  - destruct (createFile w _) eqn:Ef; [|discriminate].
    injection H as <- <-. repeat split. intros fname [= <-]. exact Ef.
  - injection H as <- <-. repeat split. intros fname. discriminate.
Qed.

Lemma run_writes_rendered_release_witness :
  exists nf tag rele ver l1 a l2 status body,
    parseSlug Sample.tables (slug (mkCreator (L "o/r@v1.3.0") false [])) = Ok (nf, tag) /\
    ((tag = [] /\
      getLatestRelease (Sample.world [] (L "v9.9.9") Sample.assets_130 200 true)
        (Owner nf) (Repo nf) = Some rele) \/
     (tag <> [] /\
      getReleaseByTag (Sample.world [] (L "v9.9.9") Sample.assets_130 200 true)
        (Owner nf) (Repo nf) tag = Some rele)) /\
    Semver.NewVersion (tag_name rele) = Some ver /\
    assets rele = l1 ++ a :: l2 /\ darwin_amd64 a /\
    (forall x, In x l1 -> ~ darwin_amd64 x) /\
    httpGet (Sample.world [] (L "v9.9.9") Sample.assets_130 200 true)
      (browser_download_url a) = Response status body false /\
    snd (match run (Sample.world [] (L "v9.9.9") Sample.assets_130 200 true)
                   (mkCreator (L "o/r@v1.3.0") false []) with
         | Ok p => p
         | Err _ => (ToWriter, [])
         end) =
      render (mkFormulaData (Repo nf) (capitalized Sample.tables (Repo nf))
                (itoa (Semver.major ver) ++ L "." ++ itoa (Semver.minor ver) ++
                 L "." ++ itoa (Semver.patch ver))
                (Owner nf) (Repo nf) (sha256_hex body)
                (browser_download_url a)) /\
    fst (match run (Sample.world [] (L "v9.9.9") Sample.assets_130 200 true)
                   (mkCreator (L "o/r@v1.3.0") false []) with
         | Ok p => p
         | Err _ => (ToWriter, [])
         end) = destination (mkCreator (L "o/r@v1.3.0") false []) (Repo nf) /\
    (forall fname,
        fst (match run (Sample.world [] (L "v9.9.9") Sample.assets_130 200 true)
                       (mkCreator (L "o/r@v1.3.0") false []) with
             | Ok p => p
             | Err _ => (ToWriter, [])
             end) = ToFile fname ->
        createFile (Sample.world [] (L "v9.9.9") Sample.assets_130 200 true) fname = true).
Proof.
  refine (@run_writes_rendered_release
    (Sample.world [] (L "v9.9.9") Sample.assets_130 200 true)
    (mkCreator (L "o/r@v1.3.0") false [])
    (fst (match run (Sample.world [] (L "v9.9.9") Sample.assets_130 200 true)
                    (mkCreator (L "o/r@v1.3.0") false []) with
          | Ok p => p
          | Err _ => (ToWriter, [])
          end))
    (snd (match run (Sample.world [] (L "v9.9.9") Sample.assets_130 200 true)
                    (mkCreator (L "o/r@v1.3.0") false []) with
          | Ok p => p
          | Err _ => (ToWriter, [])
          end)) _).
  vm_compute. reflexivity.
Defined.

(** X10. When the release has no asset whose file name contains "darwin"
    and "amd64", [run] fails and writes nothing, whatever the slug's tag. *)
Theorem run_needs_darwin_amd64_asset (w : World) (cr : creator)
    (nf : formulaData) (tag : str) (rele : release) (ver : Semver.Version) :
  parseSlug (unicode w) (slug cr) = Ok (nf, tag) ->
  (match tag with
   | [] => getLatestRelease w (Owner nf) (Repo nf)
   | _ => getReleaseByTag w (Owner nf) (Repo nf) tag
   end) = Some rele ->
  Semver.NewVersion (tag_name rele) = Some ver ->
  (forall x, In x (assets rele) -> ~ darwin_amd64 x) ->
  run w cr = Err ErrNoAssets.
Proof.
  intros Hp Hr Hv Hn. unfold run. rewrite Hp, Hr, Hv.
  now rewrite (selectAssetCreate_none _ Hn).
Qed.

Lemma run_needs_darwin_amd64_asset_witness :
  run (Sample.world [] (L "v1.3.0")
         [mkAsset (L "https://github.com/o/r/releases/download/v1.3.0/r_linux_amd64.zip")]
         200 true)
      (mkCreator (L "o/r") true []) = Err ErrNoAssets.
Proof.
  refine (@run_needs_darwin_amd64_asset
    (Sample.world [] (L "v1.3.0")
       [mkAsset (L "https://github.com/o/r/releases/download/v1.3.0/r_linux_amd64.zip")]
       200 true)
    (mkCreator (L "o/r") true [])
    (mkFormulaData (L "r") (capitalized Sample.tables (L "r")) [] (L "o") (L "r") [] []) []
    (mkRelease (L "v1.3.0")
       [mkAsset (L "https://github.com/o/r/releases/download/v1.3.0/r_linux_amd64.zip")])
    (Semver.mkVersion 1 3 0 [] [] (L "v1.3.0")) _ _ _ _).
  - reflexivity.
  - reflexivity.
  - vm_compute. reflexivity.
  - intros x [<-|[]] H. apply darwin_amd64_spec in H. vm_compute in H. discriminate.
Defined.

(** ** The owner and the repository of a URL *)

(** The first result of a sequence goes through a result of its first
    part. *)
Lemma cat_head (a b : regex) (fuel : nat) (st y : state) (ys : list state) :
  mrun (a >> b) fuel st = y :: ys ->
  exists st1 ys', In st1 (mrun a fuel st) /\ mrun b fuel st1 = y :: ys'.
Proof.
  rewrite run_Cat.
  induction (mrun a fuel st) as [|x l IH]; cbn [flat_map]; [discriminate|].
  destruct (mrun b fuel x) as [|z zs] eqn:E; cbn [app].
  - intros H. destruct (IH H) as [st1 [ys' [H1 H2]]].
    exists st1, ys'. split; [now right|exact H2].
  - intros [= <- _]. exists x, zs. split; [now left|exact E].
Qed.

Lemma in_Lit (l : str) (fuel : nat) (st st1 : state) :
  In st1 (mrun (Lit l) fuel st) ->
  rest st = l ++ rest st1 /\ pos st1 = pos st + length l /\ caps st1 = caps st.
Proof.
  rewrite run_Lit. destruct (Strings.HasPrefix (rest st) l) eqn:E; [|intros []].
  intros [<-|[]]. apply HasPrefix_spec in E. destruct E as [t E].
  rewrite (rest_advance _ _ _ E), (pos_advance _ _ _ E), (caps_advance _ _ _ E).
  auto.
Qed.

Lemma in_Cls (p : ascii -> bool) (fuel : nat) (st st1 : state) :
  In st1 (mrun (Cls p) fuel st) ->
  exists c, rest st = c :: rest st1 /\ p c = true /\
            pos st1 = S (pos st) /\ caps st1 = caps st.
Proof.
  rewrite run_Cls. destruct (rest st) as [|c t]; [intros []|].
  destruct (p c) eqn:E; [|intros []]. intros [<-|[]]. exists c. auto.
Qed.

Lemma in_star_cls (p : ascii -> bool) :
  forall fuel st st1,
    In st1 (mrun (Star (Cls p)) fuel st) ->
    exists l, rest st = l ++ rest st1 /\ Forall (fun c => p c = true) l /\
              pos st1 = pos st + length l /\ caps st1 = caps st.
Proof.
  induction fuel as [|f IH]; intros st st1.
  - intros [<-|[]]. exists []. cbn [app length]. auto.
  - rewrite run_star_cls. destruct (rest st) as [|c t] eqn:E.
    + intros [<-|[]]. exists []. cbn [app length]. auto.
    + destruct (p c) eqn:Ep.
      * intros H. apply in_app_or in H. destruct H as [H|[<-|[]]].
        -- destruct (IH _ _ H) as [l [E1 [F1 [P1 C1]]]].
           cbn [rest pos caps step1] in E1, P1, C1.
           exists (c :: l). cbn [app length]. rewrite E1.
           repeat split; auto. lia.
        -- exists []. cbn [app length]. auto.
      * intros [<-|[]]. exists []. cbn [app length]. auto.
Qed.

Lemma in_plus_cls (p : ascii -> bool) (fuel : nat) (st st1 : state) :
  In st1 (mrun (Plus (Cls p)) fuel st) ->
  exists l, rest st = l ++ rest st1 /\ Forall (fun c => p c = true) l /\
            l <> [] /\ pos st1 = pos st + length l /\ caps st1 = caps st.
Proof.
  unfold Plus. rewrite run_Cat. intros H. apply in_flat_map in H.
  destruct H as [st0 [H0 H1]].
  apply in_Cls in H0. destruct H0 as [c [E0 [Pc [P0 C0]]]].
  apply in_star_cls in H1. destruct H1 as [l [E1 [F1 [P1 C1]]]].
  exists (c :: l). cbn [app length]. rewrite E0, E1.
  repeat split; auto; [discriminate|lia|congruence].
Qed.

(** The first result of a greedy class is the longest run. *)
Lemma star_cls_head (p : ascii -> bool) :
  forall fuel st,
    length (rest st) <= fuel ->
    exists y ys,
      mrun (Star (Cls p)) fuel st = y :: ys /\
      rest y = Path.drop_while p (rest st) /\
      pos y = pos st + length (take_while p (rest st)) /\ caps y = caps st.
Proof.
  induction fuel as [|f IH]; intros st Hf.
  - destruct (rest st) eqn:E; [|cbn in Hf; lia].
    exists st, []. cbn [mrun Path.drop_while take_while length]. rewrite E. auto.
  - rewrite run_star_cls. destruct (rest st) as [|c t] eqn:E.
    + exists st, []. cbn [Path.drop_while take_while length]. auto.
    + cbn [Path.drop_while take_while]. destruct (p c) eqn:Ep.
      * destruct (IH (step1 c t st)) as [y [ys [Ey [Ry [Py Cy]]]]];
          [cbn in Hf |- *; lia|].
        rewrite Ey. exists y, (ys ++ [st]). cbn [rest pos caps step1] in Ry, Py, Cy.
        cbn [app length]. repeat split; auto. lia.
      * exists st, []. cbn [length]. auto.
Qed.

Lemma plus_cls_head (p : ascii -> bool) (fuel : nat) (st y : state)
    (ys : list state) :
  length (rest st) <= fuel ->
  mrun (Plus (Cls p)) fuel st = y :: ys ->
  exists c t,
    rest st = c :: t /\ p c = true /\ rest y = Path.drop_while p t /\
    pos y = pos st + S (length (take_while p t)) /\ caps y = caps st.
Proof.
  intros Hf. unfold Plus. rewrite run_Cat, run_Cls.
  destruct (rest st) as [|c t] eqn:E; [discriminate|].
  destruct (p c) eqn:Ep; [|discriminate].
  cbn [flat_map]. rewrite app_nil_r.
  destruct (@star_cls_head p fuel (step1 c t st)) as [y' [ys' [Ey [Ry [Py Cy]]]]];
    [cbn in Hf |- *; lia|].
  rewrite Ey. intros [= <- _]. exists c, t.
  cbn [rest pos caps step1] in Ry, Py, Cy. repeat split; auto. lia.
Qed.

(** An expression that begins with the start of the text matches at the
    start or not at all. *)
Lemma exec_bot (r : regex) (s : str) (m : mtch) :
  begins_bot r -> exec r s 0 = Some m ->
  exists st' tl,
    mrun r (S (length s)) (mkState None 0 s []) = st' :: tl /\
    m = mkMatch 0 (pos st') (caps st').
Proof.
  intros Hb. unfold exec. cbn [prev_at skipn].
  set (fuel := S (length s)). clearbody fuel.
  assert (forall t c p, scan r fuel (Some c) p t = None) as Hnone.
  { induction t as [|c' t IH]; intros c p; cbn [scan].
    - destruct (mrun r fuel _) as [|st' l] eqn:E; [reflexivity|].
      assert (In st' (mrun r fuel (mkState (Some c) p [] []))) as Hin
        by (rewrite E; now left).
      apply (@mrun_begins_bot r Hb) in Hin. discriminate.
    - destruct (mrun r fuel _) as [|st' l] eqn:E; [apply IH|].
      assert (In st' (mrun r fuel (mkState (Some c) p (c' :: t) []))) as Hin
        by (rewrite E; now left).
      apply (@mrun_begins_bot r Hb) in Hin. discriminate. }
  destruct s as [|c t]; cbn [scan];
    destruct (mrun r fuel _) as [|st' l] eqn:E.
  - discriminate.
  - intros [= <-]. eauto.
  - now rewrite Hnone.
  - intros [= <-]. eauto.
Qed.

Lemma not_slash_false (c : ascii) : not_slash c = false -> c = "/"%char.
Proof.
  unfold not_slash. destruct (Ascii.eqb c "/") eqn:E; [|discriminate].
  intros _. now apply Ascii.eqb_eq.
Qed.

Lemma Forall_not_slash (l : str) :
  Forall (fun c => not_slash c = true) l -> ~ In "/"%char l.
Proof.
  intros H Hin. rewrite Forall_forall in H. apply H in Hin. discriminate.
Qed.

(** The match of [parseURLReg]: the parts of the URL and where the groups
    lie.  The dot has read the code point [c :: d]. *)
Lemma parseURLReg_match (u : str) (m : mtch) :
  exec parseURLReg u 0 = Some m ->
  exists h c d o r rest,
    u = L "https://" ++ h ++ L "github" ++ (c :: d) ++ L "com/" ++ o ++ L "/" ++ r ++ rest /\
    ~ In "/"%char h /\ is_nl c = false /\
    rune_width ((c :: d) ++ L "com/" ++ o ++ L "/" ++ r ++ rest) = length (c :: d) /\
    o <> [] /\ ~ In "/"%char o /\ r <> [] /\ ~ In "/"%char r /\
    (rest = [] \/ exists rest', rest = L "/" ++ rest') /\
    group u m 1 = o /\ group u m 2 = r.
Proof.
  intros H. apply exec_bot in H; [|exact I].
  destruct H as [st' [tl [H ->]]].
  set (fuel := S (length u)) in *.
  unfold parseURLReg in H.
  apply cat_head in H. destruct H as [s1 [? [H1 H]]].
  cbn [mrun prev] in H1. destruct H1 as [<-|[]].
  apply cat_head in H. destruct H as [s2 [? [H2 H]]].
  apply in_Lit in H2. cbn [rest pos caps] in H2. destruct H2 as [E2 [P2 C2]].
  apply cat_head in H. destruct H as [s3 [? [H3 H]]].
  apply in_star_cls in H3. destruct H3 as [h [E3 [F3 [P3 C3]]]].
  apply cat_head in H. destruct H as [s4 [? [H4 H]]].
  apply in_Lit in H4. destruct H4 as [E4 [P4 C4]].
  apply cat_head in H. destruct H as [s5 [? [H5 H]]].
  apply in_Any in H5. destruct H5 as [c [d [E5 [Pc [W5 [P5 C5]]]]]].
  apply cat_head in H. destruct H as [s6 [? [H6 H]]].
  apply in_Lit in H6. destruct H6 as [E6 [P6 C6]].
  apply cat_head in H. destruct H as [s7 [? [H7 H]]].
  rewrite run_Grp in H7. apply in_map_iff in H7. destruct H7 as [s7' [<- H7]].
  apply in_plus_cls in H7. destruct H7 as [o [E7 [F7 [N7 [P7 C7]]]]].
  apply cat_head in H. destruct H as [s8 [? [H8 H]]].
  apply in_Lit in H8. cbn [rest pos caps set_cap] in H8. destruct H8 as [E8 [P8 C8]].
  rewrite run_Grp in H.
  destruct (mrun (Plus (Cls not_slash)) fuel s8) as [|y ys] eqn:Ey; [discriminate|].
  cbn [map] in H. injection H as <- _.
  assert (length (rest s8) <= fuel) as Hf.
  { unfold fuel. rewrite E2, E3, E4, E5, E6, E7, E8.
    rewrite !length_app. cbn [length]. rewrite ?length_app. lia. }
  apply (plus_cls_head _ _ Hf) in Ey.
  destruct Ey as [c9 [t9 [E9 [Pc9 [R9 [P9 C9]]]]]].
  pose proof (take_drop_while not_slash t9) as Et.
  set (r := c9 :: take_while not_slash t9) in *.
  exists h, c, d, o, r, (Path.drop_while not_slash t9).
  assert (u = L "https://" ++ h ++ L "github" ++ (c :: d) ++ L "com/" ++ o ++ L "/" ++
              r ++ Path.drop_while not_slash t9) as Eu.
  { rewrite E2, E3, E4, E5, E6, E7, E8, E9. unfold r. cbn [app].
    now rewrite <- Et. }
  split; [exact Eu|]. split; [now apply Forall_not_slash|]. split; [exact Pc|].
  split.
  { rewrite <- W5, E5, E6, E7, E8, E9. unfold r. cbn [app]. now rewrite <- Et. }
  split; [exact N7|]. split; [now apply Forall_not_slash|].
  split; [discriminate|]. split.
  { apply Forall_not_slash. constructor; [exact Pc9|apply take_while_all]. }
  split.
  { destruct (Path.drop_while not_slash t9) as [|x9 t] eqn:Ed; [now left|].
    right. exists t. apply drop_while_head in Ed. apply not_slash_false in Ed.
    now subst. }
  unfold group. cbn [m_caps set_cap caps lookup_cap Nat.eqb pos].
  rewrite C9, C8. cbn [lookup_cap Nat.eqb].
  assert (pos s6 = length (L "https://" ++ h ++ L "github" ++ (c :: d) ++ L "com/")) as L6.
  { rewrite P6, P5, P4, P3, P2. rewrite !length_app. cbn [length]. lia. }
  assert (length r = S (length (take_while not_slash t9))) as Lr by reflexivity.
  split.
  - rewrite P7, L6, Eu.
    replace (L "https://" ++ h ++ L "github" ++ (c :: d) ++ L "com/" ++ o ++ L "/" ++
             r ++ Path.drop_while not_slash t9)
      with ((L "https://" ++ h ++ L "github" ++ (c :: d) ++ L "com/") ++ o ++
            (L "/" ++ r ++ Path.drop_while not_slash t9))
      by (now rewrite <- !app_assoc).
    apply substr_mid.
  - rewrite P9, P8, P7, L6, <- Lr, Eu.
    replace (L "https://" ++ h ++ L "github" ++ (c :: d) ++ L "com/" ++ o ++ L "/" ++
             r ++ Path.drop_while not_slash t9)
      with ((L "https://" ++ h ++ L "github" ++ (c :: d) ++ L "com/" ++ o ++ L "/") ++ r ++
            Path.drop_while not_slash t9)
      by (now rewrite <- !app_assoc).
    replace (length (L "https://" ++ h ++ L "github" ++ (c :: d) ++ L "com/") +
             length o + length (L "/"))
      with (length (L "https://" ++ h ++ L "github" ++ (c :: d) ++ L "com/" ++ o ++ L "/"))
      by (rewrite !length_app; cbn [length]; lia).
    apply substr_mid.
Qed.

Lemma newFormula_url_inv (w : World) (f : str) (fo : formula) :
  newFormula w f = Ok fo ->
  exec parseURLReg (url fo) 0 <> None /\
  owner fo = nth 1 (FindStringSubmatch parseURLReg (url fo)) [] /\
  repo fo = nth 2 (FindStringSubmatch parseURLReg (url fo)) [].
Proof.
  unfold newFormula. destruct (readFile w f) as [b|]; [|discriminate].
  destruct (length (FindStringSubmatch verReg b) <? 4); [discriminate|].
  destruct (length (FindStringSubmatch shaReg b) <? 4); [discriminate|].
  destruct (length (FindStringSubmatch urlReg b) <? 4); [discriminate|].
  assert (forall u, (length (FindStringSubmatch parseURLReg u) <? 3) = false ->
                    exec parseURLReg u 0 <> None) as Hex.
  { intros u Hr E. unfold FindStringSubmatch in Hr. rewrite E in Hr. discriminate. }
  destruct (if Strings.Contains _ _ then _ else _) as [u|]; [|discriminate].
  destruct (length (FindStringSubmatch parseURLReg u) <? 3) eqn:E; [discriminate|].
  intros [= <-]. cbn [url owner repo]. repeat split. now apply Hex.
Qed.

(** X11. The URL of a loaded formula reads "https://", a host without "/"
    that ends with "github", one code point other than a newline (the dot
    of the expression is not escaped: it reads the bytes [c :: d] of the
    first code point of what follows "github", one to four of them), then
    "com", "/", the owner, "/" and the repository: owner and repository
    are the first two elements of the path, not empty, and the repository
    ends at the next "/" or at the end of the URL.  A file whose URL is
    not of this form does not load. *)
Theorem newFormula_owner_repo (w : World) (f : str) (fo : formula) :
  newFormula w f = Ok fo ->
  exists h c d rest,
    url fo = L "https://" ++ h ++ L "github" ++ (c :: d) ++ L "com/" ++
             owner fo ++ L "/" ++ repo fo ++ rest /\
    ~ In "/"%char h /\ c <> nl /\
    rune_width ((c :: d) ++ L "com/" ++ owner fo ++ L "/" ++ repo fo ++ rest) =
      length (c :: d) /\
    owner fo <> [] /\ ~ In "/"%char (owner fo) /\
    repo fo <> [] /\ ~ In "/"%char (repo fo) /\
    (rest = [] \/ exists rest', rest = L "/" ++ rest').
Proof.
  intros H. apply newFormula_url_inv in H. destruct H as [Hx [Ho Hr]].
  unfold FindStringSubmatch in Ho, Hr.
  destruct (exec parseURLReg (url fo) 0) as [m|] eqn:E; [|congruence].
  change (numSubexp parseURLReg) with 2 in Ho, Hr.
  cbn [seq map nth] in Ho, Hr.
  destruct (parseURLReg_match _ E)
    as [h [c [d [o [r [rest [Eu [Hh [Hc [Wd [No [Ho' [Nr [Hr' [Hrest [G1 G2]]]]]]]]]]]]]]]].
  rewrite G1 in Ho. rewrite G2 in Hr. subst o r.
  exists h, c, d, rest. repeat split; auto.
  intros ->. discriminate Hc.
Qed.

Lemma newFormula_owner_repo_witness :
  exists h c d rest,
    url Sample.fo_literal =
      L "https://" ++ h ++ L "github" ++ (c :: d) ++ L "com/" ++
      owner Sample.fo_literal ++ L "/" ++ repo Sample.fo_literal ++ rest /\
    ~ In "/"%char h /\ c <> nl /\
    rune_width ((c :: d) ++ L "com/" ++ owner Sample.fo_literal ++ L "/" ++
                repo Sample.fo_literal ++ rest) = length (c :: d) /\
    owner Sample.fo_literal <> [] /\ ~ In "/"%char (owner Sample.fo_literal) /\
    repo Sample.fo_literal <> [] /\ ~ In "/"%char (repo Sample.fo_literal) /\
    (rest = [] \/ exists rest', rest = L "/" ++ rest').
Proof.
  exact (@newFormula_owner_repo _ _ _ newFormula_literal).
Defined.

(** The dot of the expression accepts any code point: a host that only
    looks like the one of GitHub loads. *)
Example newFormula_accepts_lookalike_host :
  exists fo,
    newFormula
      (Sample.world (L "  version '1.2.0'
  url 'https://evil-githubXcom/o/r/x_darwin_amd64.zip'
  sha256 'abc'
") (L "v1.3.0") [] 200 true) (L "r.rb") = Ok fo /\
    owner fo = L "o" /\ repo fo = L "r".
Proof. eexists. split; [vm_compute; reflexivity|]. split; reflexivity. Qed.

(** So does a host with a code point of two bytes (here U+00E9, the bytes
    195 and 169) in the place of the dot, and one with the first of the
    two bytes alone: followed by "com" it begins no well-formed encoding
    and is read as one code point. *)
Example newFormula_accepts_two_byte_dot :
  exists fo,
    newFormula
      (Sample.world
         (L "  version '1.2.0'
  url 'https://github" ++ ["195"; "169"]%char ++ L "com/o/r/x_darwin_amd64.zip'
  sha256 'abc'
") (L "v1.3.0") [] 200 true) (L "r.rb") = Ok fo /\
    owner fo = L "o" /\ repo fo = L "r".
Proof. eexists. split; [vm_compute; reflexivity|]. split; reflexivity. Qed.

Example newFormula_accepts_lone_byte_dot :
  exists fo,
    newFormula
      (Sample.world
         (L "  version '1.2.0'
  url 'https://github" ++ ["195"]%char ++ L "com/o/r/x_darwin_amd64.zip'
  sha256 'abc'
") (L "v1.3.0") [] 200 true) (L "r.rb") = Ok fo /\
    owner fo = L "o" /\ repo fo = L "r".
Proof. eexists. split; [vm_compute; reflexivity|]. split; reflexivity. Qed.

(** ** Reading back what the creator writes *)

Lemma prepend_nil r : prepend [] r = r.
Proof. destruct r as [[? ?]|]; reflexivity. Qed.

Lemma pv_after_app (pv : option ascii) (a b : str) :
  pv_after (pv_after pv a) b = pv_after pv (a ++ b).
Proof.
  unfold pv_after. rewrite rev_app_distr.
  destruct (rev b) as [|c t]; cbn [app]; reflexivity.
Qed.

Lemma head_of_mismatch (k0 : ascii) (kw' w : str) (x : ascii) (t : str) :
  all_space w -> is_space x = false -> x <> k0 ->
  head_of (k0 :: kw') (w ++ x :: t) = None.
Proof.
  intros Hw Hx Hk. unfold head_of.
  destruct (@take_while_app_stop is_space w (x :: t) Hw Hx) as [-> ->].
  destruct w; [reflexivity|].
  now rewrite (@HasPrefix_cons_neq x k0 t kw' Hk).
Qed.

Lemma starts_head_none (anchored : bool) (kw : str) (pv : option ascii) (s : str) :
  head_of kw s = None -> starts anchored kw pv s = None.
Proof.
  intros H. unfold starts. rewrite H. now destruct (anchored && negb (bol pv)).
Qed.

(** White space before a word that does not begin like the keyword. *)
Lemma skip_ws_mismatch (anchored : bool) (k0 : ascii) (kw' : str) (x : ascii) (t : str) :
  is_space x = false -> x <> k0 ->
  forall w pv,
    all_space w ->
    first_from anchored (k0 :: kw') pv (w ++ x :: t) =
    prepend w (first_from anchored (k0 :: kw') (pv_after pv w) (x :: t)).
Proof.
  intros Hx Hk. induction w as [|s w IH]; intros pv Hw.
  - cbn [app]. now rewrite prepend_nil.
  - apply Forall_cons_iff in Hw. destruct Hw as [Hs Hw]. cbn [app].
    rewrite first_from_next.
    + rewrite IH by exact Hw. rewrite prepend_prepend, pv_after_cons. reflexivity.
    + apply starts_head_none.
      apply (@head_of_mismatch k0 kw' (s :: w) x t); auto. now constructor.
Qed.

Lemma HasPrefix_word (kw : str) (s : ascii) :
  no_space kw -> is_space s = true ->
  forall z t,
    Strings.HasPrefix (z ++ s :: t) kw = true -> exists z', z = kw ++ z'.
Proof.
  intros Hkw Hs. induction Hkw as [|k kw Hk Hkw IH]; intros z t H.
  - now exists z.
  - destruct z as [|c z]; cbn [app Strings.HasPrefix] in H;
      apply andb_true_iff in H; destruct H as [H1 H2];
      apply Ascii.eqb_eq in H1; subst.
    + congruence.
    + destruct (IH _ _ H2) as [z' ->]. now exists z'.
Qed.

(** White space, a word without quotes, white space and a byte that is
    neither a quote nor the beginning of the keyword: no match starts at
    the first white space. *)
Lemma head_of_word (k0 : ascii) (kw' w z w' : str) (x : ascii) (t : str) :
  all_space w -> no_space z -> no_quote z -> all_space w' -> w' <> [] ->
  is_space x = false -> is_quote x = false -> x <> k0 -> no_space (k0 :: kw') ->
  head_of (k0 :: kw') (w ++ z ++ w' ++ x :: t) = None.
Proof.
  intros Hw Hz Hq Hw' Hne Hx Hxq Hk Hkw.
  destruct z as [|c z1].
  - cbn [app]. rewrite app_assoc. apply head_of_mismatch; auto.
    apply Forall_app. now split.
  - unfold head_of.
    assert (is_space c = false) as Hc by (now apply Forall_cons_iff in Hz).
    destruct (@take_while_app_stop is_space w ((c :: z1) ++ w' ++ x :: t) Hw Hc)
      as [-> ->].
    destruct w as [|s0 w0]; [reflexivity|].
    destruct (Strings.HasPrefix ((c :: z1) ++ w' ++ x :: t) (k0 :: kw')) eqn:E;
      [|reflexivity].
    destruct w' as [|s w'']; [congruence|].
    apply Forall_cons_iff in Hw'. destruct Hw' as [Hs Hw''].
    cbn [app] in E.
    destruct (@HasPrefix_word (k0 :: kw') s Hkw Hs (c :: z1) (w'' ++ x :: t) E)
      as [z' Ez].
    rewrite Ez, <- app_assoc, skipn_app_exact.
    rewrite Ez in Hz, Hq. apply Forall_app in Hz, Hq.
    destruct Hz as [_ Hz'], Hq as [_ Hq'].
    destruct z' as [|c' z''].
    + rewrite app_nil_l.
      destruct (@take_while_app_stop is_space (s :: w'') (x :: t)
                  ltac:(now constructor) Hx) as [_ ->].
      now rewrite Hxq.
    + apply Forall_cons_iff in Hz', Hq'.
      destruct Hz' as [Hc' _], Hq' as [Hq'' _].
      cbn [app Path.drop_while]. rewrite Hc'. now rewrite Hq''.
Qed.

Lemma skip_word (anchored : bool) (k0 : ascii) (kw' z w' : str) (x : ascii) (t : str) :
  no_space z -> no_quote z -> all_space w' -> w' <> [] ->
  is_space x = false -> is_quote x = false -> x <> k0 -> no_space (k0 :: kw') ->
  forall w pv,
    all_space w ->
    first_from anchored (k0 :: kw') pv (w ++ z ++ w' ++ x :: t) =
    prepend (w ++ z ++ w' ++ [x]) (first_from anchored (k0 :: kw') (Some x) t).
Proof.
  intros Hz Hq Hw' Hne Hx Hxq Hk Hkw. induction w as [|s w IH]; intros pv Hw.
  - cbn [app]. rewrite first_from_no_space by exact Hz.
    rewrite skip_ws_mismatch by assumption.
    rewrite first_from_next by (now apply starts_no_space).
    rewrite !prepend_prepend, <- !app_assoc. reflexivity.
  - apply Forall_cons_iff in Hw. destruct Hw as [Hs Hw]. cbn [app].
    rewrite first_from_next.
    + rewrite IH by exact Hw. now rewrite prepend_prepend.
    + apply starts_head_none.
      apply (@head_of_word k0 kw' (s :: w) z w' x t); auto. now constructor.
Qed.

(** A text made of words, each after white space, none of which begins
    like the keyword. *)
Lemma skip_tokens (anchored : bool) (k0 : ascii) (kw' : str)
    (toks : list (str * str)) :
  Forall (fun p => all_space (fst p) /\ no_space (snd p) /\
                   match snd p with x :: _ => x <> k0 | [] => False end) toks ->
  forall pv t,
    first_from anchored (k0 :: kw') pv
      (flat_map (fun p => fst p ++ snd p) toks ++ t) =
    prepend (flat_map (fun p => fst p ++ snd p) toks)
      (first_from anchored (k0 :: kw')
         (pv_after pv (flat_map (fun p => fst p ++ snd p) toks)) t).
Proof.
  intros H. induction H as [|[w z] toks [Hw [Hz Hx]] _ IH]; intros pv t.
  - cbn [flat_map app]. now rewrite prepend_nil.
  - cbn [flat_map fst snd] in *. destruct z as [|x z']; [contradiction|].
    rewrite <- !app_assoc. cbn [app].
    assert (is_space x = false) as Hxs by (now apply Forall_cons_iff in Hz).
    rewrite skip_ws_mismatch by assumption.
    change (x :: z' ++ flat_map (fun p => fst p ++ snd p) toks ++ t)
      with ((x :: z') ++ flat_map (fun p => fst p ++ snd p) toks ++ t).
    rewrite first_from_no_space by exact Hz.
    rewrite IH. rewrite !prepend_prepend, !pv_after_app.
    now rewrite <- !app_assoc.
Qed.

(** A match at the beginning of a line: white space, the keyword, white
    space, a quote, a text without newline, a quote, the end of line. *)
Lemma starts_line (anchored : bool) (k0 : ascii) (kw' w1 w2 : str)
    (q : ascii) (g : str) (q' : ascii) (t : str) (pv : option ascii) :
  anchored && negb (bol pv) = false ->
  is_space k0 = false -> w1 <> [] -> all_space w1 -> all_space w2 ->
  is_quote q = true -> one_line g -> is_quote q' = true ->
  starts anchored (k0 :: kw') pv
    ((w1 ++ (k0 :: kw') ++ w2 ++ [q]) ++ g ++ q' :: nl :: t) =
  Some (w1 ++ (k0 :: kw') ++ w2 ++ [q], g, q', nl :: t).
Proof.
  intros Ha Hk Hne H1 H2 Hq Hg Hq'. unfold starts. rewrite Ha.
  rewrite head_of_intro by assumption.
  now rewrite (@lastq_intro g q' (nl :: t) Hg Hq' eq_refl).
Qed.

(** A line in which no anchored match starts is passed over. *)
Lemma skip_line (kw : str) (pv : option ascii) (c : ascii) (l t : str) :
  starts true kw pv ((c :: l) ++ nl :: t) = None ->
  one_line (c :: l) ->
  first_from true kw pv ((c :: l) ++ nl :: t) =
  prepend ((c :: l) ++ [nl]) (first_from true kw (Some nl) t).
Proof.
  intros Hs Hl. apply Forall_cons_iff in Hl. destruct Hl as [Hc Hl].
  assert (forall x, is_dot x = true -> bol (Some x) = false) as Hb.
  { intros x Hx. unfold is_dot in Hx. cbn [bol]. now destruct (is_nl x). }
  cbn [app] in *. rewrite first_from_next by exact Hs.
  rewrite first_from_one_line by (auto using Hb).
  rewrite first_from_next.
  - rewrite !prepend_prepend. now rewrite <- app_assoc.
  - apply starts_not_bol. unfold pv_after.
    destruct (rev l) as [|y r] eqn:Er; [now apply Hb|].
    apply Hb. rewrite Forall_forall in Hl. apply Hl.
    apply in_rev. rewrite Er. now left.
Qed.
Lemma skip_line_word (kw : str) (pv : option ascii) (c : ascii) (l t : str) :
  is_space c = false -> one_line (c :: l) ->
  first_from true kw pv ((c :: l) ++ nl :: t) =
  prepend ((c :: l) ++ [nl]) (first_from true kw (Some nl) t).
Proof.
  intros Hc Hl. apply skip_line; [|exact Hl]. now apply starts_no_space.
Qed.

Lemma skip_line_mismatch (k0 : ascii) (kw' : str) (pv : option ascii)
    (s0 : ascii) (w : str) (x : ascii) (l t : str) :
  all_space (s0 :: w) -> is_space x = false -> x <> k0 ->
  one_line ((s0 :: w) ++ x :: l) ->
  first_from true (k0 :: kw') pv (((s0 :: w) ++ x :: l) ++ nl :: t) =
  prepend (((s0 :: w) ++ x :: l) ++ [nl]) (first_from true (k0 :: kw') (Some nl) t).
Proof.
  intros Hw Hx Hk Hl. apply (@skip_line (k0 :: kw') pv s0 (w ++ x :: l) t).
  - apply starts_head_none.
    change ((s0 :: w ++ x :: l) ++ nl :: t) with (((s0 :: w) ++ x :: l) ++ nl :: t).
    rewrite <- app_assoc. now apply head_of_mismatch.
  - exact Hl.
Qed.

Ltac flatten_text :=
  cbn [list_ascii_of_string app flat_map fst snd];
  repeat (rewrite <- app_assoc; cbn [app]).

Lemma render_version_line (d : formulaData) :
  exists tail,
    render d =
    ("c"%char :: L "lass " ++ CapitalizedName d ++ L " < Formula") ++ nl ::
    (L "  " ++ ("v"%char :: L "ersion") ++ L " " ++ ["'"%char]) ++
    Version d ++ "'"%char :: nl :: tail.
Proof.
  eexists. unfold render, nl. flatten_text. reflexivity.
Qed.

Lemma render_url_line (d : formulaData) :
  exists tail,
    render d =
    ("c"%char :: L "lass " ++ CapitalizedName d ++ L " < Formula") ++ nl ::
    ((" "%char :: L " ") ++ "v"%char :: L "ersion '" ++ Version d ++ L "'") ++ nl ::
    ((" "%char :: L " ") ++ "h"%char ::
       L "omepage 'https://github.com/" ++ Owner d ++ L "/" ++ Repo d ++ L "'") ++ nl ::
    (L "  " ++ ("u"%char :: L "rl") ++ L " " ++ ["034"%char]) ++
    URL d ++ "034"%char :: nl :: tail.
Proof.
  eexists. unfold render, nl. flatten_text. reflexivity.
Qed.

Lemma render_sha256_line (d : formulaData) :
  exists tail,
    render d =
    L "class" ++ L " " ++ CapitalizedName d ++ L " " ++ "<"%char ::
    flat_map (fun p => fst p ++ snd p)
      [(L " ", L "Formula");
       (nl :: L "  ", L "version");
       (L " ", "'"%char :: Version d ++ L "'");
       (nl :: L "  ", L "homepage");
       (L " ", "'"%char :: L "https://github.com/" ++ Owner d ++ L "/" ++ Repo d ++ L "'");
       (nl :: L "  ", L "url");
       (L " ", "034"%char :: URL d ++ ["034"%char])] ++
    ((nl :: L "  ") ++ ("s"%char :: L "ha256") ++ L " " ++ ["'"%char]) ++
    SHA256 d ++ "'"%char :: nl :: tail.
Proof.
  eexists. unfold render, nl. flatten_text. reflexivity.
Qed.
Ltac chars :=
  cbn [list_ascii_of_string app];
  repeat first
    [ assumption
    | apply Forall_nil
    | apply Forall_cons; [reflexivity|]
    | apply Forall_app; split ].

Lemma Fv_render (d : formulaData) :
  one_line (CapitalizedName d) -> one_line (Version d) ->
  exists pre g1 q post, Fv (render d) = Some (pre, (g1, Version d, q, post)).
Proof.
  intros Hc Hv. destruct (render_version_line d) as [tail E].
  unfold Fv. rewrite E.
  rewrite skip_line_word; [|reflexivity|unfold one_line; chars].
  erewrite first_from_here; [cbn [prepend]; eauto|].
  apply starts_line; try reflexivity; try discriminate; try exact Hv;
    unfold all_space; chars.
Qed.

Lemma Fu_render (d : formulaData) :
  one_line (CapitalizedName d) -> one_line (Version d) ->
  one_line (Owner d) -> one_line (Repo d) -> one_line (URL d) ->
  exists pre g1 q post, Fu (render d) = Some (pre, (g1, URL d, q, post)).
Proof.
  intros Hc Hv Ho Hr Hu. destruct (render_url_line d) as [tail E].
  unfold Fu. rewrite E.
  rewrite skip_line_word; [|reflexivity|unfold one_line; chars].
  change (L "url") with ("u"%char :: L "rl").
  rewrite skip_line_mismatch;
    [|unfold all_space; chars|reflexivity|discriminate|unfold one_line; chars].
  rewrite skip_line_mismatch;
    [|unfold all_space; chars|reflexivity|discriminate|unfold one_line; chars].
  erewrite first_from_here; [cbn [prepend]; eauto|].
  apply starts_line; try reflexivity; try discriminate; try exact Hu;
    unfold all_space; chars.
Qed.

Lemma Fs_render (d : formulaData) :
  no_space (CapitalizedName d) -> no_quote (CapitalizedName d) ->
  no_space (Version d) -> no_space (Owner d) -> no_space (Repo d) ->
  no_space (URL d) -> one_line (SHA256 d) ->
  exists pre g1 q post, Fs (render d) = Some (pre, (g1, SHA256 d, q, post)).
Proof.
  intros Hc Hq Hv Ho Hr Hu Hs. destruct (render_sha256_line d) as [tail E].
  unfold Fs. rewrite E.
  change (L "sha256") with ("s"%char :: L "ha256").
  rewrite first_from_no_space by (unfold no_space; chars).
  rewrite skip_word
    by first [ assumption | reflexivity | discriminate
             | unfold all_space, no_space; chars ].
  rewrite skip_tokens.
  - erewrite first_from_here; [cbn [prepend]; eauto|].
    apply starts_line; try reflexivity; try discriminate; try exact Hs;
      unfold all_space; chars.
  - repeat (apply Forall_cons; [cbn [fst snd]; split; [unfold all_space; chars|];
                                split; [unfold no_space; chars|discriminate]|]).
    apply Forall_nil.
Qed.
Lemma expandStr_ok (w : World) (s nm ver : str) (e : error) :
  expandStr s (info_map w nm ver) <> Err e.
Proof.
  unfold info_map. destruct (nameFirst w); cbn [expandStr compilePlaceholder];
    discriminate.
Qed.

(** What the three patterns find in a rendering. *)
Lemma render_finds (d : formulaData) :
  no_space (CapitalizedName d) -> no_quote (CapitalizedName d) ->
  no_space (Version d) -> no_space (Owner d) -> no_space (Repo d) ->
  no_space (URL d) -> one_line (SHA256 d) ->
  exists g1v qv g1s qs g1u qu,
    FindStringSubmatch verReg (render d) =
      [g1v ++ Version d ++ [qv]; g1v; Version d; [qv]] /\
    FindStringSubmatch shaReg (render d) =
      [g1s ++ SHA256 d ++ [qs]; g1s; SHA256 d; [qs]] /\
    FindStringSubmatch urlReg (render d) =
      [g1u ++ URL d ++ [qu]; g1u; URL d; [qu]].
Proof.
  intros Hc Hq Hv Ho Hr Hu Hs.
  destruct (@Fv_render d (no_space_one_line Hc) (no_space_one_line Hv))
    as [pv [g1v [qv [postv Ev]]]].
  destruct (@Fs_render d Hc Hq Hv Ho Hr Hu Hs) as [ps [g1s [qs [posts Es]]]].
  destruct (@Fu_render d (no_space_one_line Hc) (no_space_one_line Hv)
              (no_space_one_line Ho) (no_space_one_line Hr) (no_space_one_line Hu))
    as [pu [g1u [qu [postu Eu]]]].
  exists g1v, qv, g1s, qs, g1u, qu.
  rewrite Find_ver, Ev, Find_sha, Es, Find_url, Eu. auto.
Qed.

(** [newFormula] on a file in which the three patterns find [v], [s] and
    [u]. *)
Lemma newFormula_of_finds (w : World) (f b : str) (av bv cv a_s b_s c_s au bu cu v s u : str) :
  readFile w f = Some b ->
  FindStringSubmatch verReg b = [av; bv; v; cv] ->
  FindStringSubmatch shaReg b = [a_s; b_s; s; c_s] ->
  FindStringSubmatch urlReg b = [au; bu; u; cu] ->
  (forall fo,
      newFormula w f = Ok fo ->
      content fo = b /\ version fo = v /\ sha256 fo = s /\ urlTmpl fo = u) /\
  (forall e, newFormula w f = Err e -> e = ErrInvalidURLFormat u).
Proof.
  intros Hf Fv' Fs' Fu'. split.
  - intros fo H. apply newFormula_inv in H.
    destruct H as [b' [Hb [Ec [_ [_ [_ [_ [E1 [E2 [E3 _]]]]]]]]]].
    rewrite Hf in Hb. injection Hb as <-.
    rewrite Fv' in E1. rewrite Fs' in E2. rewrite Fu' in E3. auto.
  - intros e. unfold newFormula. rewrite Hf, Fv', Fs', Fu'. cbn [length nth].
    change (4 <? 4) with false. cbv iota.
    destruct (Strings.Contains u (L "#{version}")).
    + destruct (expandStr _ _) as [u'|e'] eqn:Ex;
        [|exfalso; exact (expandStr_ok _ _ _ _ Ex)].
      destruct (length (FindStringSubmatch parseURLReg u') <? 3);
        [now intros [= <-]|discriminate].
    + destruct (length (FindStringSubmatch parseURLReg u) <? 3);
        [now intros [= <-]|discriminate].
Qed.

(** X12. A file that holds the creator's template, rendered for fields
    without white space (capitalized name, version, owner, repository,
    URL), a capitalized name without quotes and a one-line checksum, is
    read back by [newFormula] as it was written: the three patterns find
    the version, the checksum and the URL of the rendering, and the load
    can only fail on the form of the URL. *)
Theorem rendered_formula_loads (d : formulaData) (w : World) (f : str) :
  no_space (CapitalizedName d) -> no_quote (CapitalizedName d) ->
  no_space (Version d) -> no_space (Owner d) -> no_space (Repo d) ->
  no_space (URL d) -> one_line (SHA256 d) ->
  readFile w f = Some (render d) ->
  nth 2 (FindStringSubmatch verReg (render d)) [] = Version d /\
  nth 2 (FindStringSubmatch shaReg (render d)) [] = SHA256 d /\
  nth 2 (FindStringSubmatch urlReg (render d)) [] = URL d /\
  (forall fo,
      newFormula w f = Ok fo ->
      content fo = render d /\ version fo = Version d /\
      sha256 fo = SHA256 d /\ urlTmpl fo = URL d) /\
  (forall e, newFormula w f = Err e -> e = ErrInvalidURLFormat (URL d)).
Proof.
  intros Hc Hq Hv Ho Hr Hu Hs Hf.
  destruct (@render_finds d Hc Hq Hv Ho Hr Hu Hs)
    as [g1v [qv [g1s [qs [g1u [qu [Fv' [Fs' Fu']]]]]]]].
  split; [now rewrite Fv'|]. split; [now rewrite Fs'|]. split; [now rewrite Fu'|].
  exact (@newFormula_of_finds w f (render d) _ _ _ _ _ _ _ _ _ _ _ _ Hf Fv' Fs' Fu').
Qed.

Lemma rendered_formula_loads_witness :
  nth 2 (FindStringSubmatch shaReg (render
    (mkFormulaData (L "r") (L "R") (L "1.3.0") (L "o") (L "r") Sample.abc_digest
       (L "https://github.com/o/r/releases/download/v1.3.0/r_darwin_amd64.zip")))) [] =
  SHA256 (mkFormulaData (L "r") (L "R") (L "1.3.0") (L "o") (L "r") Sample.abc_digest
            (L "https://github.com/o/r/releases/download/v1.3.0/r_darwin_amd64.zip")).
Proof.
  refine (proj1 (proj2 (@rendered_formula_loads
    (mkFormulaData (L "r") (L "R") (L "1.3.0") (L "o") (L "r") Sample.abc_digest
       (L "https://github.com/o/r/releases/download/v1.3.0/r_darwin_amd64.zip"))
    (Sample.world
       (render (mkFormulaData (L "r") (L "R") (L "1.3.0") (L "o") (L "r")
                  Sample.abc_digest
                  (L "https://github.com/o/r/releases/download/v1.3.0/r_darwin_amd64.zip")))
       (L "v1.3.0") Sample.assets_130 200 true)
    (L "r.rb") _ _ _ _ _ _ _ _))).
  - apply plain_no_space. apply Forall_forall, forallb_forall. vm_compute. reflexivity.
  - apply plain_no_quote. apply Forall_forall, forallb_forall. vm_compute. reflexivity.
  - apply plain_no_space. apply Forall_forall, forallb_forall. vm_compute. reflexivity.
  - apply plain_no_space. apply Forall_forall, forallb_forall. vm_compute. reflexivity.
  - apply plain_no_space. apply Forall_forall, forallb_forall. vm_compute. reflexivity.
  - apply plain_no_space. apply Forall_forall, forallb_forall. vm_compute. reflexivity.
  - apply plain_one_line. apply Forall_forall, forallb_forall. vm_compute. reflexivity.
  - reflexivity.
Defined.

(** *** From [run] to [newFormula] *)

Lemma toTitle_space (c : ascii) : is_space (toTitle c) = is_space c.
Proof. destruct c as [[] [] [] [] [] [] [] []]; reflexivity. Qed.

Lemma toTitle_quote (c : ascii) : is_quote (toTitle c) = is_quote c.
Proof. destruct c as [[] [] [] [] [] [] [] []]; reflexivity. Qed.

(** An ASCII byte is a code point of its own. *)
Lemma rune_width_ascii (c : ascii) (t : str) :
  is_ascii c = true -> rune_width (c :: t) = 1.
Proof.
  unfold is_ascii, rune_width, byte_in. intros H. apply N.ltb_lt in H.
  replace (194 <=? N_of_ascii c)%N with false by (symmetry; apply N.leb_gt; lia).
  replace (224 <=? N_of_ascii c)%N with false by (symmetry; apply N.leb_gt; lia).
  replace (240 <=? N_of_ascii c)%N with false by (symmetry; apply N.leb_gt; lia).
  reflexivity.
Qed.

Lemma decodeRune_ascii (c : ascii) (t : str) :
  is_ascii c = true -> decodeRune (c :: t) = ([c], 1).
Proof.
  intros H. unfold decodeRune. rewrite (@rune_width_ascii c t H).
  cbn [firstn]. now rewrite H.
Qed.

Lemma decodeRune_width (c : ascii) (t : str) :
  1 <= snd (decodeRune (c :: t)) <= length (c :: t).
Proof.
  pose proof (rune_width_bounds c t) as B. unfold decodeRune.
  destruct (firstn (rune_width (c :: t)) (c :: t)) as [|x [|y r]];
    cbn [snd length] in *; lia.
Qed.

(** [Title] takes one step for each code point: any number of steps that
    the length of the text allows gives the same result. *)
Lemma Title_go_fuel (U : Unicode) :
  forall f1 f2 prev s,
    length s <= f1 -> length s <= f2 ->
    Title_go U f1 prev s = Title_go U f2 prev s.
Proof.
  induction f1 as [|f1 IH]; intros f2 prev s H1 H2.
  - destruct s; [|cbn [length] in H1; lia]. now destruct f2.
  - destruct s as [|c t]; [now destruct f2|].
    destruct f2 as [|f2]; [cbn [length] in H2; lia|].
    cbn [Title_go]. pose proof (decodeRune_width c t) as B.
    destruct (decodeRune (c :: t)) as [r n]. cbn [snd] in B. f_equal.
    assert (length (skipn n (c :: t)) <= length t) as Hl
      by (rewrite length_skipn; cbn [length] in *; lia).
    cbn [length] in H1, H2. apply IH; lia.
Qed.

(** On ASCII text [Title] goes byte by byte and leaves a byte or takes it
    to its title case. *)
Lemma Title_go_Forall (U : Unicode) (P : ascii -> bool) :
  (forall c, P (toTitle c) = P c) ->
  forall f s prev,
    ascii_only s ->
    Forall (fun c => P c = false) s ->
    Forall (fun c => P c = false) (Title_go U f prev s).
Proof.
  intros HP. induction f as [|f IH]; intros s prev Ha H; [constructor|].
  destruct s as [|c s]; [constructor|]. cbn [Title_go].
  apply Forall_cons_iff in Ha. destruct Ha as [Ac As].
  apply Forall_cons_iff in H. destruct H as [Hc Hs].
  rewrite (@decodeRune_ascii c s Ac). cbn [skipn].
  apply Forall_app. split; [|now apply IH].
  unfold toTitleRune, as_ascii. rewrite Ac.
  destruct (isSeparator U prev); constructor; try constructor;
    [now rewrite HP|exact Hc].
Qed.

Lemma capitalized_Forall (U : Unicode) (P : ascii -> bool) (s : str) :
  (forall c, P (toTitle c) = P c) ->
  ascii_only s ->
  Forall (fun c => P c = false) s ->
  Forall (fun c => P c = false) (capitalized U s).
Proof.
  intros HP Ha H. unfold capitalized. rewrite ReplaceAll_hyphen.
  apply Forall_forall. intros c Hc. apply filter_In in Hc. destruct Hc as [Hc _].
  pose proof (@Title_go_Forall U P HP (length s) s (L " ") Ha H) as F.
  rewrite Forall_forall in F. now apply F.
Qed.

Lemma In_join_head (sep : ascii) (a : str) (t : list str) (c : ascii) :
  In c a -> In c (join sep (a :: t)).
Proof.
  intros H. destruct t; [exact H|]. rewrite join_cons. apply in_or_app. now left.
Qed.

Lemma parseSlug_parts (U : Unicode) (sl : str) (nf : formulaData) (tag : str) :
  parseSlug U sl = Ok (nf, tag) ->
  Name nf = Repo nf /\ CapitalizedName nf = capitalized U (Repo nf) /\
  (forall c, In c (Owner nf) -> In c sl) /\ (forall c, In c (Repo nf) -> In c sl).
Proof.
  unfold parseSlug. pose proof (Split_join sl "/") as Hj.
  destruct (Strings.Split sl "/") as [|ow [|rv [|x y]]]; try discriminate.
  intros [= <- _]. cbn [Name Repo Owner CapitalizedName].
  rewrite join_cons in Hj. cbn [join] in Hj.
  pose proof (Split_join rv "@") as Hj2.
  split; [reflexivity|]. split; [reflexivity|]. split.
  - intros c Hc. rewrite <- Hj. apply in_or_app. now left.
  - intros c Hc. rewrite <- Hj. apply in_or_app. right. right.
    rewrite <- Hj2. destruct (Strings.Split rv "@") as [|rp parts]; [destruct Hc|].
    cbn [nth] in Hc. now apply In_join_head.
Qed.

Lemma Forall_sub (P : ascii -> Prop) (a b : str) :
  (forall c, In c a -> In c b) -> Forall P b -> Forall P a.
Proof.
  intros H Hb. rewrite Forall_forall in *. auto.
Qed.

(** X13. What the creator writes for an ASCII slug without white space
    and quotes loads again.  When [run] succeeds, the slug gives an owner,
    a repository and a tag, the release fetched for them (by the tag, or
    the latest one without a tag) has a tag that is a version, its first
    asset [a] whose file name contains "darwin" and "amd64" is the one
    chosen, and its URL serves a body; when that URL has no white space,
    [newFormula] on a file with the written text finds the version
    major.minor.patch of the release's tag, the checksum of the body and
    the URL of the asset, and it can only fail on the form of the URL. *)
Theorem created_formula_reloads (w : World) (cr : creator) (out : sink)
    (text : str) :
  run w cr = Ok (out, text) ->
  ascii_only (slug cr) -> no_space (slug cr) -> no_quote (slug cr) ->
  exists nf tag rele ver l1 a l2 status body,
    parseSlug (unicode w) (slug cr) = Ok (nf, tag) /\
    ((tag = [] /\ getLatestRelease w (Owner nf) (Repo nf) = Some rele) \/
     (tag <> [] /\ getReleaseByTag w (Owner nf) (Repo nf) tag = Some rele)) /\
    Semver.NewVersion (tag_name rele) = Some ver /\
    assets rele = l1 ++ a :: l2 /\ darwin_amd64 a /\
    (forall x, In x l1 -> ~ darwin_amd64 x) /\
    httpGet w (browser_download_url a) = Response status body false /\
    (no_space (browser_download_url a) ->
     forall w' f,
       readFile w' f = Some text ->
       (forall fo,
           newFormula w' f = Ok fo ->
           content fo = text /\ version fo = verStr ver /\
           sha256 fo = sha256_hex body /\ urlTmpl fo = browser_download_url a) /\
       (forall e, newFormula w' f = Err e ->
                  e = ErrInvalidURLFormat (browser_download_url a))).
Proof.
  unfold run. intros H Hasc Hs Hq.
  destruct (parseSlug (unicode w) (slug cr)) as [[nf tag]|] eqn:Ep; [|discriminate].
  destruct (parseSlug_parts _ _ Ep) as [En [Ec [Ho Hr]]].
  destruct (match tag with [] => _ | _ => _ end) as [rele|] eqn:Er; [|discriminate].
  destruct (Semver.NewVersion (tag_name rele)) as [ver|] eqn:Ev; [|discriminate].
  destruct (selectAssetCreate (assets rele)) as [u|] eqn:Ea; [|discriminate].
  destruct (getSHA256FromURL w u) as [sha|] eqn:Eh; [|discriminate].
  apply selectAssetCreate_inv in Ea.
  destruct Ea as [l1 [a [l2 [El [-> [Ha Hn]]]]]].
  pose proof (getSHA256FromURL_plain _ _ Eh) as Hsha.
  unfold getSHA256FromURL in Eh.
  destruct (httpGet w (browser_download_url a)) as [| |status body rf] eqn:Eg;
    try discriminate.
  destruct rf; [discriminate|]. injection Eh as <-.
  exists nf, tag, rele, ver, l1, a, l2, status, body.
  split; [reflexivity|]. split.
  { destruct tag; [left|right]; split; auto. discriminate. }
  split; [exact Ev|]. split; [exact El|]. split; [exact Ha|].
  split; [exact Hn|]. split; [exact Eg|]. intros Hu w' f Hf.
  set (d := mkFormulaData (Name nf) (CapitalizedName nf) (verStr ver) (Owner nf)
              (Repo nf) (sha256_hex body) (browser_download_url a)) in *.
  assert (text = render d) as ->.
  { destruct (overwrite cr || negb (str_eqb (outFile cr) []));
      [destruct (createFile w _); [|discriminate]|]; now injection H as _ <-. }
  assert (ascii_only (Repo nf)) as HRa by (exact (Forall_sub _ Hr Hasc)).
  assert (no_space (Repo nf)) as HR by (exact (Forall_sub _ Hr Hs)).
  assert (no_quote (Repo nf)) as HRq by (exact (Forall_sub _ Hr Hq)).
  assert (no_space (CapitalizedName d)) as C1.
  { cbn [CapitalizedName d]. rewrite Ec.
    exact (capitalized_Forall (unicode w) is_space toTitle_space HRa HR). }
  assert (no_quote (CapitalizedName d)) as C2.
  { cbn [CapitalizedName d]. rewrite Ec.
    exact (capitalized_Forall (unicode w) is_quote toTitle_quote HRa HRq). }
  assert (no_space (Version d)) as C3 by (apply plain_no_space, verStr_plain).
  assert (no_space (Owner d)) as C4 by (exact (Forall_sub _ Ho Hs)).
  assert (one_line (SHA256 d)) as C5 by (now apply plain_one_line).
  destruct (@render_finds d C1 C2 C3 C4 HR Hu C5)
    as [g1v [qv [g1s [qs [g1u [qu [Fv' [Fs' Fu']]]]]]]].
  exact (@newFormula_of_finds w' f (render d) _ _ _ _ _ _ _ _ _ _ _ _ Hf Fv' Fs' Fu').
Qed.

Lemma created_formula_reloads_witness :
  exists nf tag rele ver l1 a l2 status body,
    parseSlug Sample.tables (slug (mkCreator (L "o/r@v1.3.0") false [])) =
      Ok (nf, tag) /\
    ((tag = [] /\
      getLatestRelease (Sample.world [] (L "v9.9.9") Sample.assets_130 200 true)
        (Owner nf) (Repo nf) = Some rele) \/
     (tag <> [] /\
      getReleaseByTag (Sample.world [] (L "v9.9.9") Sample.assets_130 200 true)
        (Owner nf) (Repo nf) tag = Some rele)) /\
    Semver.NewVersion (tag_name rele) = Some ver /\
    assets rele = l1 ++ a :: l2 /\ darwin_amd64 a /\
    (forall x, In x l1 -> ~ darwin_amd64 x) /\
    httpGet (Sample.world [] (L "v9.9.9") Sample.assets_130 200 true)
      (browser_download_url a) = Response status body false /\
    (no_space (browser_download_url a) ->
     forall w' f,
       readFile w' f =
         Some (snd (match run (Sample.world [] (L "v9.9.9") Sample.assets_130 200 true)
                    (mkCreator (L "o/r@v1.3.0") false []) with
          | Ok p => p
          | Err _ => (ToWriter, [])
          end)) ->
       (forall fo,
           newFormula w' f = Ok fo ->
           content fo =
             snd (match run (Sample.world [] (L "v9.9.9") Sample.assets_130 200 true)
                    (mkCreator (L "o/r@v1.3.0") false []) with
          | Ok p => p
          | Err _ => (ToWriter, [])
          end) /\
           version fo = verStr ver /\
           sha256 fo = sha256_hex body /\ urlTmpl fo = browser_download_url a) /\
       (forall e, newFormula w' f = Err e ->
                  e = ErrInvalidURLFormat (browser_download_url a))).
Proof.
  refine (@created_formula_reloads
    (Sample.world [] (L "v9.9.9") Sample.assets_130 200 true)
    (mkCreator (L "o/r@v1.3.0") false [])
    (fst (match run (Sample.world [] (L "v9.9.9") Sample.assets_130 200 true)
                    (mkCreator (L "o/r@v1.3.0") false []) with
          | Ok p => p
          | Err _ => (ToWriter, [])
          end))
    (snd (match run (Sample.world [] (L "v9.9.9") Sample.assets_130 200 true)
                    (mkCreator (L "o/r@v1.3.0") false []) with
          | Ok p => p
          | Err _ => (ToWriter, [])
          end)) _ _ _ _).
  - vm_compute. reflexivity.
  - apply Forall_forall, forallb_forall. vm_compute. reflexivity.
  - apply plain_no_space. apply Forall_forall, forallb_forall. vm_compute. reflexivity.
  - apply plain_no_quote. apply Forall_forall, forallb_forall. vm_compute. reflexivity.
Defined.

(** The text written for "o/r@v1.3.0" is loaded with the fields that were
    written. *)
Example created_sample_reloads :
  exists text fo,
    run (Sample.world [] (L "v9.9.9") Sample.assets_130 200 true)
        (mkCreator (L "o/r@v1.3.0") false []) = Ok (ToWriter, text) /\
    newFormula (Sample.world text (L "v9.9.9") Sample.assets_130 200 true) (L "r.rb") =
      Ok fo /\
    version fo = L "1.3.0" /\ sha256 fo = Sample.abc_digest /\
    url fo = L "https://github.com/o/r/releases/download/v1.3.0/r_darwin_amd64.tar.gz" /\
    name fo = [] /\ owner fo = L "o" /\ repo fo = L "r".
Proof.
  eexists. eexists. split; [vm_compute; reflexivity|].
  split; [vm_compute; reflexivity|]. repeat split.
Qed.

(** ** A version written by [update] parses again *)

Ltac digit_value :=
  match goal with
  | |- context [Z.of_N (digit_val ?c)] =>
      let e := eval vm_compute in (Z.of_N (digit_val c)) in
      change (Z.of_N (digit_val c)) with e
  end.

Lemma digits_val_acc (d : Decimal.uint) :
  forall acc : positive,
    Semver.digits_val (uint_chars d) (Z.pos acc) = Some (Z.pos (Pos.of_uint_acc d acc)).
Proof.
  induction d; intros acc; cbn [uint_chars Semver.digits_val Pos.of_uint_acc];
    [reflexivity|..];
    (replace (is_digit _) with true by reflexivity);
    digit_value;
    match goal with
    | |- Semver.digits_val _ ?z = Some (Z.pos (Pos.of_uint_acc _ ?a)) =>
        replace z with (Z.pos a) by lia
    end; apply IHd.
Qed.

Lemma digits_val_uint (d : Decimal.uint) :
  Semver.digits_val (uint_chars d) 0 = Some (Z.of_N (Pos.of_uint d)).
Proof.
  induction d; cbn [uint_chars Semver.digits_val Pos.of_uint];
    [reflexivity|exact IHd|..];
    (replace (is_digit _) with true by reflexivity);
    digit_value;
    match goal with
    | |- Semver.digits_val _ ?z = Some (Z.of_N (N.pos (Pos.of_uint_acc _ ?a))) =>
        replace z with (Z.pos a) by lia
    end; apply digits_val_acc.
Qed.

Lemma uint_chars_digits (d : Decimal.uint) :
  Forall (fun c => is_digit c = true) (uint_chars d).
Proof. induction d; cbn [uint_chars]; constructor; auto. Qed.

Lemma uint_chars_nonnil (d : Decimal.uint) : d <> Decimal.Nil -> uint_chars d <> [].
Proof. destruct d; cbn [uint_chars]; congruence. Qed.

Lemma digit_not_sign (c : ascii) :
  is_digit c = true ->
  Ascii.eqb c "-" = false /\ Ascii.eqb c "+" = false /\ Ascii.eqb c "." = false /\
  Ascii.eqb c "v" = false.
Proof. destruct c as [[] [] [] [] [] [] [] []]; try discriminate; repeat split. Qed.

Lemma ParseInt_digits (ds : str) :
  ds <> [] -> Forall (fun c => is_digit c = true) ds ->
  Semver.ParseInt ds =
  match Semver.digits_val ds 0 with
  | Some v => if (v <=? Semver.max_int64)%Z then Some v else None
  | None => None
  end.
Proof.
  intros Hne Hd. unfold Semver.ParseInt. destruct ds as [|c t]; [congruence|].
  apply Forall_cons_iff in Hd. destruct Hd as [Hc _].
  destruct (digit_not_sign c Hc) as [-> [-> _]]. reflexivity.
Qed.

(** [strconv.ParseInt] reads back what [%d] writes for a number of the
    non-negative [int64] range. *)
Lemma ParseInt_itoa (z : Z) :
  (0 <= z <= Semver.max_int64)%Z -> Semver.ParseInt (itoa z) = Some z.
Proof.
  intros Hz. destruct z as [|p|p]; [reflexivity| |lia].
  unfold itoa. cbn [Z.to_int].
  rewrite ParseInt_digits.
  - rewrite digits_val_uint, DecimalPos.Unsigned.of_to. cbn [Z.of_N].
    destruct (Z.pos p <=? Semver.max_int64)%Z eqn:E; [reflexivity|].
    apply Z.leb_gt in E. lia.
  - apply uint_chars_nonnil, DecimalPos.Unsigned.to_uint_nonnil.
  - apply uint_chars_digits.
Qed.

Lemma itoa_digits (z : Z) :
  (0 <= z)%Z -> itoa z <> [] /\ Forall (fun c => is_digit c = true) (itoa z).
Proof.
  intros Hz. destruct z as [|p|p]; [|  |lia].
  - split; [discriminate|repeat constructor].
  - unfold itoa. cbn [Z.to_int]. split.
    + apply uint_chars_nonnil, DecimalPos.Unsigned.to_uint_nonnil.
    + apply uint_chars_digits.
Qed.

Lemma digits_val_nonneg (ds : str) :
  forall acc v, (0 <= acc)%Z -> Semver.digits_val ds acc = Some v -> (0 <= v)%Z.
Proof.
  induction ds as [|c t IH]; intros acc v Ha; cbn [Semver.digits_val].
  - intros [= <-]. exact Ha.
  - destruct (is_digit c); [|discriminate]. apply IH. lia.
Qed.

Lemma ParseInt_digits_range (ds : str) (z : Z) :
  ds <> [] -> Forall (fun c => is_digit c = true) ds ->
  Semver.ParseInt ds = Some z -> (0 <= z <= Semver.max_int64)%Z.
Proof.
  intros Hne Hd. rewrite ParseInt_digits by assumption.
  destruct (Semver.digits_val ds 0) as [v|] eqn:E; [|discriminate].
  destruct (v <=? Semver.max_int64)%Z eqn:El; [|discriminate].
  intros [= <-]. apply Z.leb_le in El.
  split; [|exact El]. exact (@digits_val_nonneg ds 0%Z v (Z.le_refl 0) E).
Qed.

Lemma flat_map_map (A B C : Type) (f : B -> list C) (g : A -> B) (l : list A) :
  flat_map f (map g l) = flat_map (fun x => f (g x)) l.
Proof. induction l as [|x l IH]; cbn [map flat_map]; [reflexivity|]. now rewrite IH. Qed.

Lemma run_Opt (a : regex) (fuel : nat) (st : state) :
  mrun (Opt a) fuel st = mrun a fuel st ++ [st].
Proof. reflexivity. Qed.

(** An optional group that begins with a literal the input does not
    have is passed over. *)
Lemma opt_skip (n : nat) (l : str) (a K : regex) (fuel : nat) (st : state) :
  Strings.HasPrefix (rest st) l = false ->
  mrun (Opt (Grp n (Lit l >> a)) >> K) fuel st = mrun K fuel st.
Proof.
  intros H. rewrite run_Cat, run_Opt, run_Grp, run_Cat, run_Lit, H.
  cbn [flat_map map app]. apply app_nil_r.
Qed.

Lemma opt_lit_skip (l : str) (K : regex) (fuel : nat) (st : state) :
  Strings.HasPrefix (rest st) l = false ->
  mrun (Opt (Lit l) >> K) fuel st = mrun K fuel st.
Proof.
  intros H. rewrite run_Cat, run_Opt, run_Lit, H.
  cbn [flat_map app]. apply app_nil_r.
Qed.

(** A group of a literal and a greedy class, before something that cannot
    begin with a byte of the class, takes the longest run. *)
Lemma grp_lit_plus_then (n : nat) (cls : ascii -> bool) (K : state -> list state)
    (fuel : nat) (st : state) (l ds t' : str) :
  (forall st1 c t, rest st1 = c :: t -> cls c = true -> K st1 = []) ->
  length (rest st) <= fuel ->
  rest st = l ++ ds ++ t' -> ds <> [] ->
  Forall (fun c => cls c = true) ds ->
  match t' with c :: _ => cls c = false | [] => True end ->
  flat_map K (mrun (Grp n (Lit l >> Plus (Cls cls))) fuel st) =
  K (set_cap n (pos st) (advance (l ++ ds) st)).
Proof.
  intros HK Hf E Hne Hd Ht.
  rewrite run_Grp, flat_map_map, run_Cat, run_Lit, E, HasPrefix_app.
  cbn [flat_map]. rewrite app_nil_r.
  rewrite (@advance_advance l ds (ds ++ t') st E).
  set (st1 := advance l st).
  assert (rest st1 = ds ++ t') as E1 by (apply (@rest_advance l (ds ++ t') st E)).
  destruct ds as [|c0 ds']; [congruence|].
  apply Forall_cons_iff in Hd. destruct Hd as [Hc0 Hd'].
  unfold Plus. rewrite run_Cat, run_Cls, E1. cbn [app]. rewrite Hc0.
  cbn [flat_map]. rewrite app_nil_r.
  rewrite (@star_cls_then cls (fun s => K (set_cap n (pos st) s))).
  - cbn [rest step1].
    destruct (@take_while_app_stop cls ds' t' Hd' Ht) as [-> _].
    now rewrite (@advance_cons c0 ds' (ds' ++ t') st1 c0 E1).
  - intros s c t Hs Hc. apply (HK _ c t); [exact Hs|exact Hc].
  - cbn [rest step1]. rewrite E, !length_app in Hf. cbn [length] in Hf.
    rewrite length_app. lia.
Qed.

Lemma grp_plus_then (n : nat) (cls : ascii -> bool) (K : state -> list state)
    (fuel : nat) (st : state) (ds t' : str) :
  (forall st1 c t, rest st1 = c :: t -> cls c = true -> K st1 = []) ->
  length (rest st) <= fuel ->
  rest st = ds ++ t' -> ds <> [] ->
  Forall (fun c => cls c = true) ds ->
  match t' with c :: _ => cls c = false | [] => True end ->
  flat_map K (mrun (Grp n (Plus (Cls cls))) fuel st) =
  K (set_cap n (pos st) (advance ds st)).
Proof.
  intros HK Hf E Hne Hd Ht.
  rewrite run_Grp, flat_map_map.
  destruct ds as [|c0 ds']; [congruence|].
  apply Forall_cons_iff in Hd. destruct Hd as [Hc0 Hd'].
  unfold Plus. rewrite run_Cat, run_Cls, E. cbn [app]. rewrite Hc0.
  cbn [flat_map]. rewrite app_nil_r.
  rewrite (@star_cls_then cls (fun s => K (set_cap n (pos st) s))).
  - cbn [rest step1].
    destruct (@take_while_app_stop cls ds' t' Hd' Ht) as [-> _].
    now rewrite (@advance_cons c0 ds' (ds' ++ t') st c0 E).
  - intros s c t Hs Hc. apply (HK _ c t); [exact Hs|exact Hc].
  - cbn [rest step1]. rewrite E in Hf. cbn [app length] in Hf. lia.
Qed.

Lemma HasPrefix_digit (c : ascii) (t : str) (k : ascii) :
  is_digit c = true -> is_digit k = false ->
  Strings.HasPrefix (c :: t) [k] = false.
Proof.
  intros Hc Hk. apply HasPrefix_cons_neq. intros ->. congruence.
Qed.

(** The engine on a text of three numbers with dots between them. *)
Lemma version_run (fuel : nat) (M m p : str) :
  M <> [] -> m <> [] -> p <> [] ->
  Forall (fun c => is_digit c = true) M ->
  Forall (fun c => is_digit c = true) m ->
  Forall (fun c => is_digit c = true) p ->
  length (M ++ L "." ++ m ++ L "." ++ p) <= fuel ->
  exists st' tl,
    mrun Semver.versionRegex fuel
      (mkState None 0 (M ++ L "." ++ m ++ L "." ++ p) []) = st' :: tl /\
    pos st' = length (M ++ L "." ++ m ++ L "." ++ p) /\
    caps st' =
      [(3, (length M + 1 + length m, length M + 1 + length m + 1 + length p));
       (2, (length M, length M + 1 + length m));
       (1, (0, length M))].
Proof.
  intros NM Nm Np HM Hm Hp Hf.
  set (s := M ++ L "." ++ m ++ L "." ++ p) in *.
  set (st0 := mkState None 0 s []).
  unfold Semver.versionRegex, Semver.digits.
  set (K4 := Opt (Grp 4 _) >> Opt (Grp 7 _) >> Eot).
  set (K3 := Opt (Grp 3 _) >> K4).
  set (K2 := Opt (Grp 2 _) >> K3).
  assert (forall st c t, rest st = c :: t -> is_digit c = true ->
                         mrun K4 fuel st = []) as HK4.
  { intros st c t E Hc. unfold K4.
    rewrite opt_skip by (rewrite E; now apply HasPrefix_digit).
    rewrite opt_skip by (rewrite E; now apply HasPrefix_digit).
    cbn [mrun]. now rewrite E. }
  assert (forall st c t, rest st = c :: t -> is_digit c = true ->
                         mrun K3 fuel st = []) as HK3.
  { intros st c t E Hc. unfold K3.
    rewrite opt_skip by (rewrite E; now apply HasPrefix_digit).
    now apply (HK4 st c t). }
  assert (forall st c t, rest st = c :: t -> is_digit c = true ->
                         mrun K2 fuel st = []) as HK2.
  { intros st c t E Hc. unfold K2.
    rewrite opt_skip by (rewrite E; now apply HasPrefix_digit).
    now apply (HK3 st c t). }
  assert (forall st, rest st = [] -> mrun K4 fuel st = [st]) as HK4e.
  { intros st E. unfold K4.
    rewrite opt_skip by (now rewrite E).
    rewrite opt_skip by (now rewrite E).
    cbn [mrun]. now rewrite E. }
  rewrite run_Cat. change (mrun Bot fuel st0) with [st0].
  cbn [flat_map]. rewrite app_nil_r.
  rewrite opt_lit_skip.
  2:{ cbn [rest st0]. unfold s. destruct M as [|c0 M']; [congruence|].
      apply Forall_cons_iff in HM. cbn [app]. now apply HasPrefix_digit. }
  assert (rest st0 = M ++ (L "." ++ m ++ L "." ++ p)) as E0 by reflexivity.
  rewrite run_Cat.
  rewrite (@grp_plus_then 1 is_digit (mrun K2 fuel) fuel st0 M
             (L "." ++ m ++ L "." ++ p) HK2 Hf E0 NM HM eq_refl).
  set (S1 := set_cap 1 (pos st0) (advance M st0)).
  assert (rest S1 = L "." ++ m ++ (L "." ++ p)) as E1
    by (exact (@rest_advance M _ st0 E0)).
  assert (length (rest S1) <= fuel) as Hf1.
  { rewrite E1. unfold s in Hf. rewrite !length_app in *. lia. }
  unfold K2 at 1. rewrite run_Cat, run_Opt, flat_map_app.
  rewrite (@grp_lit_plus_then 2 is_digit (mrun K3 fuel) fuel S1 (L ".") m
             (L "." ++ p) HK3 Hf1 E1 Nm Hm eq_refl).
  set (S2 := set_cap 2 (pos S1) (advance (L "." ++ m) S1)).
  assert (rest S1 = (L "." ++ m) ++ (L "." ++ p)) as E1'
    by (now rewrite <- app_assoc).
  assert (rest S2 = L "." ++ p ++ []) as E2.
  { rewrite app_nil_r. exact (@rest_advance (L "." ++ m) _ S1 E1'). }
  assert (length (rest S2) <= fuel) as Hf2.
  { rewrite E2. unfold s in Hf. rewrite !length_app in *. cbn [length list_ascii_of_string] in *. lia. }
  unfold K3 at 1. rewrite run_Cat, run_Opt, flat_map_app.
  rewrite (@grp_lit_plus_then 3 is_digit (mrun K4 fuel) fuel S2 (L ".") p
             [] HK4 Hf2 E2 Np Hp I).
  set (S3 := set_cap 3 (pos S2) (advance (L "." ++ p) S2)).
  assert (rest S2 = (L "." ++ p) ++ []) as E2' by (now rewrite <- app_assoc).
  assert (rest S3 = []) as E3 by (exact (@rest_advance (L "." ++ p) _ S2 E2')).
  rewrite (HK4e S3 E3). cbn [app].
  exists S3. eexists. split; [reflexivity|].
  assert (pos S1 = length M) as P1
    by (exact (@pos_advance M _ st0 E0)).
  assert (pos S2 = length M + 1 + length m) as P2.
  { unfold S2. cbn [pos set_cap]. rewrite (@pos_advance (L "." ++ m) _ S1 E1').
    rewrite P1, length_app. cbn [length list_ascii_of_string]. lia. }
  assert (pos S3 = length M + 1 + length m + 1 + length p) as P3.
  { unfold S3. cbn [pos set_cap]. rewrite (@pos_advance (L "." ++ p) _ S2 E2').
    rewrite P2, length_app. cbn [length list_ascii_of_string]. lia. }
  split.
  - rewrite P3. unfold s. rewrite !length_app. cbn [length list_ascii_of_string]. lia.
  - unfold S3. cbn [caps set_cap pos].
    rewrite (@caps_advance (L "." ++ p) _ S2 E2'),
      (@pos_advance (L "." ++ p) _ S2 E2'), P2.
    unfold S2. cbn [caps set_cap pos].
    rewrite (@caps_advance (L "." ++ m) _ S1 E1'),
      (@pos_advance (L "." ++ m) _ S1 E1'), P1.
    unfold S1. cbn [caps set_cap pos].
    rewrite (@caps_advance M _ st0 E0), (@pos_advance M _ st0 E0).
    cbn [pos caps st0]. rewrite !length_app.
    cbn [length list_ascii_of_string].
    repeat (f_equal; try lia).
Qed.

Lemma scan_head (r : regex) (fuel : nat) (pv : option ascii) (p : nat) (s : str)
    (st' : state) (tl : list state) :
  mrun r fuel (mkState pv p s []) = st' :: tl ->
  scan r fuel pv p s = Some (mkMatch p (pos st') (caps st')).
Proof. intros H. destruct s; cbn [scan]; now rewrite H. Qed.

(** What the version expression finds in three numbers with dots. *)
Lemma version_groups (M m p : str) :
  M <> [] -> m <> [] -> p <> [] ->
  Forall (fun c => is_digit c = true) M ->
  Forall (fun c => is_digit c = true) m ->
  Forall (fun c => is_digit c = true) p ->
  FindStringSubmatch Semver.versionRegex (M ++ L "." ++ m ++ L "." ++ p) =
  [M ++ L "." ++ m ++ L "." ++ p; M; L "." ++ m; L "." ++ p; []; []; []; []; []; []].
Proof.
  intros NM Nm Np HM Hm Hp.
  set (s := M ++ L "." ++ m ++ L "." ++ p).
  destruct (@version_run (S (length s)) M m p NM Nm Np HM Hm Hp) as [st' [tl [R [P C]]]];
    [fold s; lia|].
  fold s in R, P.
  unfold FindStringSubmatch, exec. cbn [prev_at skipn].
  rewrite (scan_head _ _ _ _ _ R).
  change (numSubexp Semver.versionRegex) with 9.
  cbn [seq map]. unfold group. cbn [m_start m_end m_caps].
  rewrite C, P. cbn [lookup_cap Nat.eqb].
  assert (substr s 0 (length s) = s) as ->.
  { rewrite <- (app_nil_r s) at 1. apply substr_0. }
  assert (substr s 0 (length M) = M) as -> by apply substr_0.
  assert (substr s (length M) (length M + 1 + length m) = L "." ++ m) as ->.
  { unfold s.
    replace (length M + 1 + length m) with (length M + length (L "." ++ m))
      by (rewrite length_app; cbn [length list_ascii_of_string]; lia).
    rewrite (app_assoc (L ".") m). apply substr_mid. }
  assert (substr s (length M + 1 + length m)
            (length M + 1 + length m + 1 + length p) = L "." ++ p) as ->.
  { unfold s.
    replace (M ++ L "." ++ m ++ L "." ++ p)
      with ((M ++ L "." ++ m) ++ (L "." ++ p) ++ [])
      by (now rewrite app_nil_r, <- !app_assoc).
    replace (length M + 1 + length m) with (length (M ++ L "." ++ m))
      by (rewrite !length_app; cbn [length list_ascii_of_string]; lia).
    replace (length (M ++ L "." ++ m) + 1 + length p)
      with (length (M ++ L "." ++ m) + length (L "." ++ p))
      by (rewrite !length_app; cbn [length list_ascii_of_string]; lia).
    apply substr_mid. }
  reflexivity.
Qed.

(** [NewVersion] reads back the text [%d.%d.%d] of three numbers of the
    non-negative [int64] range. *)
Lemma NewVersion_triple (a b c : Z) :
  (0 <= a <= Semver.max_int64)%Z -> (0 <= b <= Semver.max_int64)%Z ->
  (0 <= c <= Semver.max_int64)%Z ->
  Semver.NewVersion (itoa a ++ L "." ++ itoa b ++ L "." ++ itoa c) =
  Some (Semver.mkVersion a b c [] []
          (itoa a ++ L "." ++ itoa b ++ L "." ++ itoa c)).
Proof.
  intros Ha Hb Hc.
  destruct (@itoa_digits a (proj1 Ha)) as [Na Da].
  destruct (@itoa_digits b (proj1 Hb)) as [Nb Db].
  destruct (@itoa_digits c (proj1 Hc)) as [Nc Dc].
  unfold Semver.NewVersion. rewrite version_groups by assumption.
  cbn [nth Semver.segment app list_ascii_of_string].
  now rewrite !ParseInt_itoa by assumption.
Qed.

(** A run only adds groups of its expression. *)
Lemma mrun_caps_keys (r : regex) :
  forall fuel st st',
    In st' (mrun r fuel st) ->
    exists new, caps st' = new ++ caps st /\
                Forall (fun e => In (fst e) (group_ids r)) new.
Proof.
  induction r as [|p|l0| | | |a IHa b IHb|a IHa b IHb|a IHa|n a IHa|];
    intros fuel st st'; cbn [group_ids].
  - intros [<-|[]]. exists []. auto.
  - intros H. apply in_Cls in H. destruct H as [c [_ [_ [_ C]]]]. exists []. auto.
  - intros H. apply in_Lit in H. destruct H as [_ [_ C]]. exists []. auto.
  - cbn [mrun]. destruct (at_bol st); [|intros []]. intros [<-|[]]. exists []. auto.
  - cbn [mrun]. destruct (prev st); [intros []|]. intros [<-|[]]. exists []. auto.
  - cbn [mrun]. destruct (rest st); [|intros []]. intros [<-|[]]. exists []. auto.
  - rewrite run_Cat. intros H. apply in_flat_map in H. destruct H as [st1 [H1 H2]].
    destruct (IHa _ _ _ H1) as [n1 [C1 F1]]. destruct (IHb _ _ _ H2) as [n2 [C2 F2]].
    exists (n2 ++ n1). split; [now rewrite C2, C1, app_assoc|].
    apply Forall_app. split; eapply Forall_impl; try eassumption;
      cbn beta; intros e He; apply in_or_app; auto.
  - cbn [mrun]. intros H. apply in_app_or in H. destruct H as [H|H].
    + destruct (IHa _ _ _ H) as [n1 [C1 F1]]. exists n1. split; [exact C1|].
      eapply Forall_impl; [|exact F1]. cbn beta. intros e He. apply in_or_app; auto.
    + destruct (IHb _ _ _ H) as [n1 [C1 F1]]. exists n1. split; [exact C1|].
      eapply Forall_impl; [|exact F1]. cbn beta. intros e He. apply in_or_app; auto.
  - revert st. induction fuel as [|f IHf]; intros st.
    + intros [<-|[]]. exists []. auto.
    + rewrite mrun_Star_S. intros H. apply in_app_or in H. destruct H as [H|[<-|[]]].
      * apply in_flat_map in H. destruct H as [st1 [H1 H2]].
        destruct (pos st <? pos st1); [|destruct H2].
        destruct (IHa _ _ _ H1) as [n1 [C1 F1]]. destruct (IHf _ H2) as [n2 [C2 F2]].
        exists (n2 ++ n1). split; [now rewrite C2, C1, app_assoc|].
        apply Forall_app. now split.
      * exists []. auto.
  - rewrite run_Grp. intros H. apply in_map_iff in H. destruct H as [st1 [<- H1]].
    destruct (IHa _ _ _ H1) as [n1 [C1 F1]].
    exists ((n, (pos st, pos st1)) :: n1). cbn [caps set_cap app]. rewrite C1.
    split; [reflexivity|]. constructor; [now left|].
    eapply Forall_impl; [|exact F1]. cbn beta. intros e He. now right.
  - intros H. apply in_Any in H. destruct H as [c [d [_ [_ [_ [_ C]]]]]].
    exists []. auto.
Qed.

Lemma lookup_cap_skip (n : nat) (new old : list (nat * (nat * nat))) :
  Forall (fun e => fst e <> n) new ->
  lookup_cap n (new ++ old) = lookup_cap n old.
Proof.
  intros H. induction H as [|[k ab] new Hk _ IH]; [reflexivity|].
  cbn [app lookup_cap]. cbn [fst] in Hk.
  destruct (Nat.eqb k n) eqn:E; [|exact IH].
  apply Nat.eqb_eq in E. congruence.
Qed.

Lemma located_step (v x : str) (st st1 : state) :
  located v st -> rest st = x ++ rest st1 -> pos st1 = pos st + length x ->
  located v st1 /\ substr v (pos st) (pos st1) = x.
Proof.
  intros [before [E L0]] Er Ep. split.
  - exists (before ++ x). rewrite length_app, <- app_assoc, <- Er. split; [exact E|lia].
  - rewrite E, Er, Ep, <- L0. apply substr_mid.
Qed.

Lemma in_opt_grp (n : nat) (l : str) (cls : ascii -> bool) (fuel : nat)
    (st st1 : state) :
  In st1 (mrun (Opt (Grp n (Lit l >> Plus (Cls cls)))) fuel st) ->
  st1 = st \/
  exists ds,
    rest st = (l ++ ds) ++ rest st1 /\ ds <> [] /\
    Forall (fun c => cls c = true) ds /\
    pos st1 = pos st + length (l ++ ds) /\
    caps st1 = (n, (pos st, pos st1)) :: caps st.
Proof.
  rewrite run_Opt. intros H. apply in_app_or in H.
  destruct H as [H|[<-|[]]]; [right|now left].
  rewrite run_Grp in H. apply in_map_iff in H. destruct H as [s' [<- H]].
  rewrite run_Cat in H. apply in_flat_map in H. destruct H as [sx [Hx H]].
  apply in_Lit in Hx. destruct Hx as [Ex [Px Cx]].
  apply in_plus_cls in H. destruct H as [ds [E [F [N [P C]]]]].
  exists ds. cbn [rest pos caps set_cap].
  rewrite Ex, E, P, Px, C, Cx, length_app, <- app_assoc.
  repeat split; auto. lia.
Qed.

(** The first three groups of a match of the version expression are
    numbers, the second and the third after a dot when they are there. *)
Lemma version_match_groups (v : str) (m : mtch) :
  exec Semver.versionRegex v 0 = Some m ->
  (exists ds, group v m 1 = ds /\ ds <> [] /\
              Forall (fun c => is_digit c = true) ds) /\
  (group v m 2 = [] \/
   exists ds, group v m 2 = L "." ++ ds /\ ds <> [] /\
              Forall (fun c => is_digit c = true) ds) /\
  (group v m 3 = [] \/
   exists ds, group v m 3 = L "." ++ ds /\ ds <> [] /\
              Forall (fun c => is_digit c = true) ds).
Proof.
  intros H. apply exec_bot in H; [|exact I].
  destruct H as [st' [tl [H ->]]].
  set (fuel := S (length v)) in *.
  unfold Semver.versionRegex, Semver.digits in H.
  apply cat_head in H. destruct H as [s1 [? [H1 H]]].
  cbn [mrun prev] in H1. destruct H1 as [<-|[]].
  assert (located v (mkState None 0 v [])) as L1 by (now exists []).
  apply cat_head in H. destruct H as [s2 [? [H2 H]]].
  assert (located v s2 /\ caps s2 = []) as [L2 C2].
  { rewrite run_Opt in H2. apply in_app_or in H2. destruct H2 as [H2|[<-|[]]].
    - apply in_Lit in H2. destruct H2 as [E [P C]].
      split; [|exact C]. now apply (@located_step v _ _ _ L1 E P).
    - now split. }
  apply cat_head in H. destruct H as [s3 [? [H3 H]]].
  rewrite run_Grp in H3. apply in_map_iff in H3. destruct H3 as [s3' [<- H3]].
  apply in_plus_cls in H3. destruct H3 as [d1 [E3 [F3 [N3 [P3 C3]]]]].
  destruct (@located_step v _ _ _ L2 E3 P3) as [L3 G1].
  set (s3 := set_cap 1 (pos s2) s3') in *.
  assert (located v s3) as L3' by exact L3.
  assert (caps s3 = [(1, (pos s2, pos s3'))]) as C3'
    by (unfold s3; cbn [caps set_cap]; now rewrite C3, C2).
  apply cat_head in H. destruct H as [s4 [? [H4 H]]].
  apply in_opt_grp in H4.
  apply cat_head in H. destruct H as [s5 [? [H5 H]]].
  apply in_opt_grp in H5.
  assert (In st' (mrun (Opt (Grp 4 (Lit (L "-") >>
             Grp 5 (Semver.ident >> Star (Grp 6 (Lit (L ".") >> Semver.ident))))) >>
           Opt (Grp 7 (Lit (L "+") >>
             Grp 8 (Semver.ident >> Star (Grp 9 (Lit (L ".") >> Semver.ident))))) >>
           Eot) fuel s5)) as Hin by (rewrite H; now left).
  apply mrun_caps_keys in Hin. destruct Hin as [new [Cn Fn]].
  assert (forall k, In k [1; 2; 3] ->
                    lookup_cap k (caps st') = lookup_cap k (caps s5)) as Hk.
  { intros k Hk. rewrite Cn. apply lookup_cap_skip.
    eapply Forall_impl; [|exact Fn]. cbn beta. intros e He Heq.
    rewrite Heq in He. cbn in He, Hk. intuition congruence. }
  unfold group. cbn [m_caps].
  rewrite (Hk 1), (Hk 2), (Hk 3) by (cbn; auto).
  destruct H4 as [->|[d2 [E4 [N4 [F4 [P4 C4]]]]]];
    destruct H5 as [->|[d3 [E5 [N5 [F5 [P5 C5]]]]]].
  - rewrite C3'. cbn [lookup_cap Nat.eqb]. rewrite G1.
    split; [eauto|]. split; now left.
  - destruct (@located_step v _ _ _ L3' E5 P5) as [_ G3].
    rewrite C5, C3'. cbn [lookup_cap Nat.eqb]. rewrite G1, G3.
    split; [eauto|]. split; [now left|right; eauto].
  - destruct (@located_step v _ _ _ L3' E4 P4) as [_ G2].
    rewrite C4, C3'. cbn [lookup_cap Nat.eqb]. rewrite G1, G2.
    split; [eauto|]. split; [right; eauto|now left].
  - destruct (@located_step v _ _ _ L3' E4 P4) as [L4 G2].
    destruct (@located_step v _ _ _ L4 E5 P5) as [_ G3].
    rewrite C5, C4, C3'. cbn [lookup_cap Nat.eqb]. rewrite G1, G2, G3.
    split; [eauto|]. split; right; eauto.
Qed.

(** The numbers of a parsed version are of the non-negative [int64]
    range. *)
Lemma NewVersion_range (v : str) (ver : Semver.Version) :
  Semver.NewVersion v = Some ver ->
  (0 <= Semver.major ver <= Semver.max_int64)%Z /\
  (0 <= Semver.minor ver <= Semver.max_int64)%Z /\
  (0 <= Semver.patch ver <= Semver.max_int64)%Z.
Proof.
  unfold Semver.NewVersion, FindStringSubmatch.
  destruct (exec Semver.versionRegex v 0) as [m|] eqn:E; [|discriminate].
  destruct (version_match_groups _ E) as [[d1 [G1 [N1 F1]]] [G2 G3]].
  change (numSubexp Semver.versionRegex) with 9. cbn [seq map nth].
  rewrite G1.
  destruct (Semver.ParseInt d1) as [a|] eqn:Ea; [|discriminate].
  destruct (Semver.segment (group v m 2)) as [b|] eqn:Eb; [|discriminate].
  destruct (Semver.segment (group v m 3)) as [c|] eqn:Ec; [|discriminate].
  intros [= <-]. cbn [Semver.major Semver.minor Semver.patch].
  assert (forall g z,
             (g = [] \/ exists ds, g = L "." ++ ds /\ ds <> [] /\
                                   Forall (fun c => is_digit c = true) ds) ->
             Semver.segment g = Some z -> (0 <= z <= Semver.max_int64)%Z) as Hseg.
  { intros g z [->|[ds [-> [N F]]]]; cbn [Semver.segment app list_ascii_of_string].
    - intros [= <-]. unfold Semver.max_int64. lia.
    - now apply ParseInt_digits_range. }
  split; [now apply (ParseInt_digits_range N1 F1)|].
  split; [now apply (Hseg _ _ G2)|now apply (Hseg _ _ G3)].
Qed.

Lemma compareSegment_refl (x : Z) : Semver.compareSegment x x = 0%Z.
Proof. unfold Semver.compareSegment. now rewrite Z.ltb_irrefl. Qed.

(** A version without prerelease is not less than a version with the same
    three numbers. *)
Lemma LessThan_same_numbers (a b : Semver.Version) :
  Semver.major a = Semver.major b -> Semver.minor a = Semver.minor b ->
  Semver.patch a = Semver.patch b -> Semver.pre a = [] ->
  Semver.LessThan a b = false.
Proof.
  intros H1 H2 H3 H4. unfold Semver.LessThan, Semver.Compare.
  rewrite H1, H2, H3, H4, !compareSegment_refl. cbn [Z.eqb negb].
  now destruct (Semver.pre b).
Qed.

(** X14. [update] is idempotent: right after a successful [update], the
    version of the formula parses, with the three numbers of the latest
    release's tag and no prerelease, and a second [update] in the same
    world reports no update and leaves the formula as it is. *)
Theorem update_idempotent (w : World) (fo fo' : formula) :
  update w fo = (fo', true, None) ->
  (exists rele nv nv',
      getLatestRelease w (owner fo) (repo fo) = Some rele /\
      Semver.NewVersion (tag_name rele) = Some nv /\
      Semver.NewVersion (version fo') = Some nv' /\
      Semver.major nv' = Semver.major nv /\ Semver.minor nv' = Semver.minor nv /\
      Semver.patch nv' = Semver.patch nv /\ Semver.pre nv' = []) /\
  update w fo' = (fo', false, None).
Proof.
  intros H. apply update_success_inv in H.
  destruct H as [rele [ov [nv [u [sha [_ [Hr [Hn [_ [_ [_ ->]]]]]]]]]]].
  destruct (NewVersion_range _ Hn) as [Ra [Rb Rc]].
  pose proof (NewVersion_triple Ra Rb Rc) as Hv. fold (verStr nv) in Hv.
  split.
  - exists rele, nv, (Semver.mkVersion (Semver.major nv) (Semver.minor nv)
                        (Semver.patch nv) [] [] (verStr nv)).
    unfold updateContent, with_fields. cbn [version]. repeat split; auto.
  - unfold update at 1. unfold updateContent at 1 2 3, with_fields.
    cbn [version owner repo]. rewrite Hv, Hr, Hn.
    rewrite LessThan_same_numbers by reflexivity. reflexivity.
Qed.

Lemma update_idempotent_witness :
  update (Sample.world Sample.literal_rb (L "v1.3.0") Sample.assets_130 200 true)
    (fst (fst (update
       (Sample.world Sample.literal_rb (L "v1.3.0") Sample.assets_130 200 true)
       Sample.fo_literal))) =
  (fst (fst (update
     (Sample.world Sample.literal_rb (L "v1.3.0") Sample.assets_130 200 true)
     Sample.fo_literal)), false, None).
Proof.
  refine (proj2 (@update_idempotent
    (Sample.world Sample.literal_rb (L "v1.3.0") Sample.assets_130 200 true)
    Sample.fo_literal
    (fst (fst (update
       (Sample.world Sample.literal_rb (L "v1.3.0") Sample.assets_130 200 true)
       Sample.fo_literal))) _)).
  vm_compute. reflexivity.
Defined.

(** A release candidate: the version written loses the suffix, and the
    second [update] finds nothing newer. *)
Example update_release_candidate :
  exists fo',
    update (Sample.world Sample.template_rb (L "v1.3.0-rc.1") [] 200 true)
           Sample.fo_template = (fo', true, None) /\
    version fo' = L "1.3.0" /\
    update (Sample.world Sample.template_rb (L "v1.3.0-rc.1") [] 200 true) fo' =
      (fo', false, None).
Proof.
  eexists. split; [vm_compute; reflexivity|].
  split; [vm_compute; reflexivity|]. vm_compute. reflexivity.
Qed.
